(** * Gemini-Thread-to-Markdown: the popup script's extraction core

    A shallow embedding of [extractMarkdownFromPage] and of the functions
    nested in it (the Markdown renderer, the conversation-node collector,
    the canvas orchestrator and its poller), with the properties the
    specification states about them.

    JavaScript strings are sequences of UTF-16 code units; they are modelled
    as lists of [N].  Regular-expression replacements are modelled by a
    left-to-right scanner that, at every position, asks a matcher for the
    length of the match starting there, as [String.prototype.replace] does
    with a global pattern. *)

From Stdlib Require Import List NArith ZArith Bool Arith Lia String Ascii.
From Stdlib Require Import Sorted Permutation.
From Stdlib Require DecimalString.
Import ListNotations.

Set Implicit Arguments.
Set Warnings "-register-all".

(** ** JavaScript strings *)

Module Js.

Definition char := N.
Definition str := list char.

(** ASCII literal to code units. *)
Definition lit (s : string) : str :=
  List.map N_of_ascii (list_ascii_of_string s).

Definition LF : char := 10%N.
Definition CR : char := 13%N.
Definition TAB : char := 9%N.
Definition SP : char := 32%N.
Definition NBSP : char := 160%N.
Definition BACKTICK : char := 96%N.

(** The characters [String.prototype.trim] strips and [\s] matches:
    ECMAScript WhiteSpace and LineTerminator. *)
Definition is_space (c : char) : bool :=
  ((9 <=? c) && (c <=? 13) || (c =? 32) || (c =? 160) || (c =? 5760)
   || (8192 <=? c) && (c <=? 8202) || (c =? 8232) || (c =? 8233)
   || (c =? 8239) || (c =? 8287) || (c =? 12288) || (c =? 65279))%N.

(** [[ \t]] *)
Definition is_blank (c : char) : bool := ((c =? SP) || (c =? TAB))%N.

Definition is_lf (c : char) : bool := (c =? LF)%N.
Definition is_tick (c : char) : bool := (c =? BACKTICK)%N.

Fixpoint eqb (a b : str) : bool :=
  match a, b with
  | [], [] => true
  | x :: a', y :: b' => (x =? y)%N && eqb a' b'
  | _, _ => false
  end.

Fixpoint dropWhile (p : char -> bool) (s : str) : str :=
  match s with
  | [] => []
  | c :: tl => if p c then dropWhile p tl else s
  end.

(** Length of the longest prefix whose characters satisfy [p]. *)
Fixpoint span_len (p : char -> bool) (s : str) : nat :=
  match s with
  | [] => 0
  | c :: tl => if p c then S (span_len p tl) else 0
  end.

Definition trimStart (s : str) : str := dropWhile is_space s.
Definition trimEnd (s : str) : str := rev (dropWhile is_space (rev s)).
Definition trim (s : str) : str := trimEnd (trimStart s).

(** [Array.prototype.join] *)
Fixpoint join (sep : str) (parts : list str) : str :=
  match parts with
  | [] => []
  | [p] => p
  | p :: rest => p ++ sep ++ join sep rest
  end.

(** [String.prototype.repeat] *)
Fixpoint repeat (s : str) (n : nat) : str :=
  match n with
  | 0 => []
  | S k => s ++ repeat s k
  end.

Fixpoint startsWith (s p : str) : bool :=
  match p, s with
  | [], _ => true
  | x :: p', y :: s' => (x =? y)%N && startsWith s' p'
  | _ :: _, [] => false
  end.

(** [String.prototype.includes]: [p] occurs in [s] as a contiguous run. *)
Fixpoint includes (s p : str) : bool :=
  startsWith s p ||
  match s with
  | [] => false
  | _ :: tl => includes tl p
  end.

(** [text.split("\n")] *)
Fixpoint split_lf (cur : str) (s : str) : list str :=
  match s with
  | [] => [rev cur]
  | c :: tl => if is_lf c then rev cur :: split_lf [] tl
               else split_lf (c :: cur) tl
  end.

(** *** Global regular-expression replacement

    A matcher answers, for the text that starts at the current position,
    the length of the match found there ([None]: no match here).
    [replace_go m rep skip s] is [s.replace(re, rep)] for a global [re]:
    a match is replaced by [rep] and the scan resumes after it ([skip]
    counts the matched characters still to pass over); where nothing
    matches, the character is copied and the scan moves one step. *)
Definition matcher := str -> option nat.

Fixpoint replace_go (m : matcher) (rep : str) (skip : nat) (s : str) : str :=
  match s with
  | [] => []
  | c :: tl =>
      match skip with
      | S k => replace_go m rep k tl
      | O =>
          match m s with
          | Some (S n) => rep ++ replace_go m rep n tl
          | _ => c :: replace_go m rep 0 tl
          end
      end
  end.

Definition replace_all (m : matcher) (rep : str) (s : str) : str :=
  replace_go m rep 0 s.

(** [/\r\n/] *)
Definition re_crlf : matcher := fun s =>
  match s with
  | c :: d :: _ => if ((c =? CR) && (d =? LF))%N then Some 2 else None
  | _ => None
  end.

(** [/\r/] *)
Definition re_cr : matcher := fun s =>
  match s with
  | c :: _ => if (c =? CR)%N then Some 1 else None
  | _ => None
  end.

(** [/[ \t]+\n/]: the greedy run of blanks must be followed by a line
    feed; a shorter run is followed by a blank, so backtracking finds
    nothing more. *)
Definition re_blanks_lf : matcher := fun s =>
  let n := span_len is_blank s in
  match n, nth_error s n with
  | S _, Some c => if is_lf c then Some (S n) else None
  | _, _ => None
  end.

(** [/\n{k,}/]: the greedy run of line feeds, if it has [k] or more. *)
Definition re_lf_min (k : nat) : matcher := fun s =>
  let n := span_len is_lf s in
  if (k <=? n) && (1 <=? n) then Some n else None.

(** [/ /] *)
Definition re_nbsp : matcher := fun s =>
  match s with
  | c :: _ => if (c =? NBSP)%N then Some 1 else None
  | _ => None
  end.

(** [/\s+/]: the greedy run of white space. *)
Definition re_spaces : matcher := fun s =>
  match span_len is_space s with
  | 0 => None
  | n => Some n
  end.

(** Position just after the last line feed among the first [n]
    characters, counted from the start ([0]: none). *)
Fixpoint last_lf_end (n : nat) (s : str) : nat :=
  match n, s with
  | S k, c :: tl =>
      match last_lf_end k tl with
      | S j => S (S j)
      | 0 => if is_lf c then 1 else 0
      end
  | _, _ => 0
  end.

(** [/\s+\n/]: [\s+] takes the whole run of white space (line feeds
    included) and gives back characters until a line feed follows, so the
    match ends at the last line feed of the run, and that line feed must
    not be the first character of the run. *)
Definition re_spaces_lf : matcher := fun s =>
  match last_lf_end (span_len is_space s) s with
  | S (S j) => Some (S (S j))
  | _ => None
  end.

(** [/\n+$/]: a run of line feeds that reaches the end of the text. *)
Definition re_lf_end : matcher := fun s =>
  let n := span_len is_lf s in
  match n, nth_error s n with
  | S _, None => Some n
  | _, _ => None
  end.

End Js.

Import Js.

(** ** Whitespace normalisation *)

Definition cleanupMarkdownInline (text : str) : str :=
  replace_all (re_lf_min 2) [LF]
    (replace_all re_blanks_lf [LF] text).

Definition cleanupMarkdown (text : str) : str :=
  trim
    (replace_all (re_lf_min 3) [LF; LF]
      (replace_all re_blanks_lf [LF]
        (replace_all re_cr [LF]
          (replace_all re_crlf [LF] text)))).

(** ** The document tree *)

(** A node of the page: a text node, an element, or a node of another kind
    (comment, processing instruction).  [tag] is [tagName.toLowerCase()];
    [display] is [el.style.display]. *)
Inductive node : Type :=
| Text (value : str)
| Other
| Elem (tag : str) (attrs : list (str * str)) (display : str)
       (children : list node).

Definition childNodes (n : node) : list node :=
  match n with
  | Elem _ _ _ ch => ch
  | _ => []
  end.

Definition tagName (n : node) : str :=
  match n with
  | Elem t _ _ _ => t
  | _ => []
  end.

Definition isElement (n : node) : bool :=
  match n with
  | Elem _ _ _ _ => true
  | _ => false
  end.

Definition tag_is (t : string) (n : node) : bool :=
  isElement n && Js.eqb (tagName n) (lit t).

(** [el.getAttribute(name)]; [None] is [null]. *)
Fixpoint assoc (name : str) (attrs : list (str * str)) : option str :=
  match attrs with
  | [] => None
  | (k, v) :: rest => if Js.eqb k name then Some v else assoc name rest
  end.

Definition getAttribute (n : node) (name : string) : option str :=
  match n with
  | Elem _ attrs _ _ => assoc (lit name) attrs
  | _ => None
  end.

(** [x || ""] for an attribute value. *)
Definition or_empty (o : option str) : str :=
  match o with
  | Some v => v
  | None => []
  end.

(** [a || b] on strings that may be [null]: the first non-empty one. *)
Definition or_else (o : option str) (b : option str) : option str :=
  match o with
  | Some (_ :: _) => o
  | _ => b
  end.

Definition className (n : node) : str := or_empty (getAttribute n "class").

(** ASCII white space, which separates the tokens of a class attribute. *)
Definition is_ascii_ws (c : char) : bool :=
  ((c =? 9) || (c =? 10) || (c =? 12) || (c =? 13) || (c =? 32))%N.

Fixpoint tokens_go (cur : str) (s : str) : list str :=
  match s with
  | [] => match cur with [] => [] | _ => [rev cur] end
  | c :: tl =>
      if is_ascii_ws c
      then match cur with
           | [] => tokens_go [] tl
           | _ => rev cur :: tokens_go [] tl
           end
      else tokens_go (c :: cur) tl
  end.

Definition classList_contains (n : node) (c : string) : bool :=
  existsb (Js.eqb (lit c)) (tokens_go [] (className n)).

(** [node.textContent]: the text of the node and of its descendants. *)
Fixpoint textContent (n : node) : str :=
  match n with
  | Text v => v
  | Other => []
  | Elem _ _ _ ch => List.concat (List.map textContent ch)
  end.

(** ASCII case folding, as the [i] flag of a pattern or of an attribute
    selector applies it. *)
Definition lower (c : char) : char :=
  if ((65 <=? c) && (c <=? 90))%N then (c + 32)%N else c.

Definition lower_str (s : str) : str := List.map lower s.

(** *** Selectors

    The selectors of the script are groups of compound selectors made of a
    tag name, attribute tests and class tests. *)
Inductive cond : Type :=
| TagIs (t : string)
| HasAttr (a : string)
| AttrEq (a v : string)
| AttrStarts (a v : string)
| AttrHasCI (a v : string)
| ClassIs (c : string).

Definition cond_holds (n : node) (c : cond) : bool :=
  match c with
  | TagIs t => tag_is t n
  | HasAttr a => match getAttribute n a with Some _ => true | None => false end
  | AttrEq a v =>
      match getAttribute n a with
      | Some x => Js.eqb x (lit v)
      | None => false
      end
  | AttrStarts a v =>
      match getAttribute n a with
      | Some x => startsWith x (lit v)
      | None => false
      end
  | AttrHasCI a v =>
      match getAttribute n a with
      | Some x => includes (lower_str x) (lower_str (lit v))
      | None => false
      end
  | ClassIs c => classList_contains n c
  end.

Definition compound := list cond.
Definition selector := list compound.

(** [el.matches(selector)] *)
Definition matches (sel : selector) (n : node) : bool :=
  isElement n && existsb (fun cs => forallb (cond_holds n) cs) sel.

(** An element of the tree under a search root is identified by the path
    of child indices that leads to it. *)
Definition path := list nat.
Definition handle : Type := path * node.

(** The nodes of a tree in document order, with their paths. *)
Fixpoint walk (p : path) (n : node) : list handle :=
  (p, n) ::
  match n with
  | Elem _ _ _ ch =>
      (fix kids (i : nat) (cs : list node) : list handle :=
         match cs with
         | [] => []
         | c :: cs' => walk (p ++ [i]) c ++ kids (S i) cs'
         end) 0 ch
  | _ => []
  end.

(** The descendants of a node, in document order. *)
Definition descendants (h : handle) : list handle :=
  tl (walk (fst h) (snd h)).

(** [root.querySelectorAll(selector)] *)
Definition querySelectorAll (h : handle) (sel : selector) : list handle :=
  filter (fun d => matches sel (snd d)) (descendants h).

(** [root.querySelector(selector)] *)
Definition querySelector (h : handle) (sel : selector) : option handle :=
  hd_error (querySelectorAll h sel).

(** ** The Markdown renderer *)

(** Exceptions carry their message. *)
Inductive exn : Type := Exn (message : str).

(** The completion of a call that may throw. *)
Inductive completion (A : Type) : Type :=
| Normal (a : A)
| Throw (e : exn).
Arguments Normal {A} a.
Arguments Throw {A} e.

(** [try { body } catch (e) { handler }] on completions. *)
Definition try_catch {A} (body : completion A) (handler : exn -> completion A)
  : completion A :=
  match body with
  | Normal a => Normal a
  | Throw e => handler e
  end.

(** All the matches of a global pattern: [s.match(re) || []]. *)
Fixpoint match_go (m : matcher) (skip : nat) (s : str) : list str :=
  match s with
  | [] => []
  | c :: tl =>
      match skip with
      | S k => match_go m k tl
      | O =>
          match m s with
          | Some (S n) => firstn (S n) s :: match_go m n tl
          | _ => match_go m 0 tl
          end
      end
  end.

Definition match_all (m : matcher) (s : str) : list str := match_go m 0 s.

(** [/`+/]: the greedy run of backticks. *)
Definition re_ticks : matcher := fun s =>
  match span_len is_tick s with
  | 0 => None
  | n => Some n
  end.

Definition ticks (n : nat) : str := Js.repeat [BACKTICK] n.

Definition makeFence (code : str) : str :=
  let matches := match_all re_ticks code in
  let max := fold_left (fun m s => Nat.max m (List.length s)) matches 0 in
  let len := Nat.max 3 (max + 1) in
  ticks len.

Definition makeInlineFence (text : str) : str :=
  let matches := match_all re_ticks text in
  let max := fold_left (fun m s => Nat.max m (List.length s)) matches 0 in
  ticks (max + 1).

Definition normalizeCode (code : str) : str :=
  replace_all re_lf_end []
    (replace_all re_cr [LF]
      (replace_all re_crlf [LF] code)).

Definition escapeText (text : str) : str := replace_all re_nbsp [SP] text.

Definition is_lang_char (c : char) : bool :=
  ((97 <=? c) && (c <=? 122) || (65 <=? c) && (c <=? 90)
   || (48 <=? c) && (c <=? 57) || (c =? 95) || (c =? 43) || (c =? 45))%N.

(** [String(value || "").match(/language-([a-z0-9_+-]+)/i)], first group. *)
Fixpoint fromClass (value : str) : str :=
  match value with
  | [] => []
  | _ :: tl =>
      if startsWith (lower_str value) (lit "language-")
      then
        let rest := skipn 9 value in
        match span_len is_lang_char rest with
        | 0 => fromClass tl
        | n => firstn n rest
        end
      else fromClass tl
  end.

Definition first_nonempty (a b : str) : str :=
  match a with
  | [] => b
  | _ => a
  end.

Definition detectLanguage (preEl : node) (codeEl : option node) : str :=
  let codeClass := match codeEl with Some c => className c | None => [] end in
  let codeData :=
    match codeEl with Some c => getAttribute c "data-language" | None => None end in
  trim
    (first_nonempty (fromClass codeClass)
       (first_nonempty (fromClass (className preEl))
          (or_empty (or_else codeData (getAttribute preEl "data-language"))))).

Definition isBlockLike (tag : str) : bool :=
  existsb (fun t => Js.eqb tag (lit t))
    ["div"; "section"; "article"; "main"; "header"; "footer"; "figure";
     "figcaption"]%string.

Definition nonempty (o : option str) : option str :=
  match o with
  | Some (_ :: _) => o
  | _ => None
  end.

Definition find_text (el : node) (sel : selector) : option str :=
  match querySelector ([], el) sel with
  | Some h => nonempty (Some (textContent (snd h)))
  | None => None
  end.

(** The LaTeX source of a math element, or [None] ([null]). *)
Definition extractLatex (el : node) : option str :=
  match or_else (getAttribute el "data-math") (getAttribute el "data-tex") with
  | Some (c :: dataMath) => Some (c :: dataMath)
  | _ =>
    match find_text el [[TagIs "annotation"; AttrEq "encoding" "application/x-tex"]] with
    | Some t => Some t
    | None =>
      let dataTex :=
        or_else (getAttribute el "data-tex")
          (or_else (getAttribute el "alt") (getAttribute el "aria-label")) in
      match dataTex with
      | Some (c :: d) =>
          if includes (c :: d) [92%N] || includes (c :: d) [61%N]
          then Some (c :: d)
          else find_text el [[TagIs "script"; AttrStarts "type" "math/tex"]]
      | _ => find_text el [[TagIs "script"; AttrStarts "type" "math/tex"]]
      end
    end
  end.

(** The context threaded through the recursion.  [listOrdered] and
    [listIndex] are absent from the initial context of the script and are
    read only by [convertListItem], which [convertList] always calls with
    both set. *)
Record ctx : Type := {
  listDepth : nat;
  inBlockquote : bool;
  listOrdered : bool;
  listIndex : nat
}.

Definition decimal (n : nat) : str :=
  lit (DecimalString.NilZero.string_of_uint (Nat.to_uint n)).

Definition heading_level (tag : str) : option nat :=
  match tag with
  | [h; d] =>
      if ((h =? 104) && (49 <=? d) && (d <=? 54))%N
      then Some (N.to_nat (d - 48))
      else None
  | _ => None
  end.

Section Renderer.

(** [new URL(href, location.href).toString()]: the absolute URL, or the
    exception the constructor throws on a malformed [href]. *)
Variable newURL : str -> completion str.

Definition toAbsoluteUrl (href : str) : completion str :=
  try_catch (newURL href) (fun _ => Normal href).

(** The value of a call that completes normally; [toAbsoluteUrl] always
    does. *)
Definition value (c : completion str) : str :=
  match c with
  | Normal v => v
  | Throw _ => []
  end.

Definition is_list (n : node) : bool := tag_is "ul" n || tag_is "ol" n.

(** The lines of [convertList]: the [li] children in order, each with
    the next index. *)
Definition list_lines (convItem : node -> ctx -> str) (c : ctx)
  (isOrdered : bool) : nat -> list node -> list str :=
  fix go (index : nat) (cs : list node) : list str :=
    match cs with
    | [] => []
    | ch :: cs' =>
        if tag_is "li" ch
        then convItem ch {| listDepth := listDepth c + 1;
                            inBlockquote := inBlockquote c;
                            listOrdered := isOrdered;
                            listIndex := index |}
             :: go (S index) cs'
        else go index cs'
    end.

Definition convertList_with (convItem : node -> ctx -> str)
  (tag : str) (children : list node) (c : ctx) : str :=
  let isOrdered := Js.eqb tag (lit "ol") in
  match list_lines convItem c isOrdered 1 children with
  | [] => []
  | lines => join [LF] lines ++ [LF; LF]
  end.

(** The head line of a list item: indentation, bullet and the item's
    own text. *)
Definition itemText (childParts : list str) : str :=
  trim (replace_all re_spaces_lf [LF]
          (cleanupMarkdownInline (List.concat childParts))).

Definition bullet (c : ctx) : str :=
  if listOrdered c then decimal (listIndex c) ++ lit ". " else lit "- ".

Definition headLine (c : ctx) (text : str) : str :=
  let indent := Js.repeat (lit "  ") (Nat.max 0 (listDepth c - 1)) in
  trimEnd (indent ++ bullet c ++ text).

Definition is_nil (s : str) : bool :=
  match s with [] => true | _ => false end.

Definition convertListItem_with (convNode convItem : node -> ctx -> str)
  (children : list node) (c : ctx) : str :=
  let childParts :=
    List.concat
      (List.map (fun ch => if is_list ch then [] else [convNode ch c])
         children) in
  let nestedMdParts :=
    List.concat
      (List.map
         (fun ch =>
            match ch with
            | Elem tag _ _ items =>
                if is_list ch
                then [trimEnd (convertList_with convItem tag items c)]
                else []
            | _ => []
            end)
         children) in
  let nestedMd := join [LF] (filter (fun s => negb (is_nil s)) nestedMdParts) in
  match nestedMd with
  | [] => headLine c (itemText childParts)
  | _ => headLine c (itemText childParts) ++ [LF] ++ nestedMd
  end.

Definition quote_line (l : str) : str :=
  match l with
  | [] => lit ">"
  | _ => lit "> " ++ l
  end.

Definition is_math (tag : str) (el : node) : bool :=
  Js.eqb tag (lit "math")
  || classList_contains el "katex"
  || classList_contains el "mjx-container"
  || classList_contains el "MathJax"
  || classList_contains el "math-inline"
  || classList_contains el "math-block".

Fixpoint convertNode (n : node) (c : ctx) {struct n} : str :=
  match n with
  | Text v => escapeText v
  | Other => []
  | Elem tag attrs disp children =>
      let el := n in
      let convertChildren (c' : ctx) : str :=
        List.concat (List.map (fun ch => convertNode ch c') children) in
      if Js.eqb tag (lit "br") then [LF] else
      match heading_level tag with
      | Some level =>
          match trim (cleanupMarkdownInline (convertChildren c)) with
          | [] => []
          | text => [LF] ++ Js.repeat (lit "#") level ++ [SP] ++ text ++ [LF; LF]
          end
      | None =>
      if Js.eqb tag (lit "p") then
        match trim (cleanupMarkdownInline (convertChildren c)) with
        | [] => []
        | text => text ++ [LF; LF]
        end
      else if Js.eqb tag (lit "hr") then [LF] ++ lit "---" ++ [LF; LF]
      else if Js.eqb tag (lit "blockquote") then
        match trim (cleanupMarkdown
                      (convertChildren {| listDepth := listDepth c;
                                          inBlockquote := true;
                                          listOrdered := listOrdered c;
                                          listIndex := listIndex c |})) with
        | [] => []
        | inner =>
            [LF] ++ join [LF] (List.map quote_line (split_lf [] inner))
                 ++ [LF; LF]
        end
      else if Js.eqb tag (lit "pre") then
        let codeEl := option_map snd (querySelector ([], el) [[TagIs "code"]]) in
        let lang := detectLanguage el codeEl in
        let code :=
          match codeEl with
          | Some ce => textContent ce
          | None => textContent el
          end in
        let normalized := normalizeCode code in
        match trim normalized with
        | [] => []
        | _ =>
            let fence := makeFence normalized in
            [LF] ++ fence ++ lang ++ [LF] ++ normalized ++ [LF] ++ fence
                 ++ [LF; LF]
        end
      else if Js.eqb tag (lit "code") then
        match trim (replace_all re_spaces [SP] (textContent el)) with
        | [] => []
        | text =>
            let fence := makeInlineFence text in
            fence ++ text ++ fence
        end
      else if Js.eqb tag (lit "a") then
        let href := or_empty (getAttribute el "href") in
        let text :=
          first_nonempty (trim (cleanupMarkdownInline (convertChildren c)))
            href in
        if is_nil href then text
        else if startsWith href (lit "javascript:") then text
        else lit "[" ++ text ++ lit "](" ++ value (toAbsoluteUrl href) ++ lit ")"
      else if Js.eqb tag (lit "img") then
        let src := or_empty (getAttribute el "src") in
        if is_nil src || startsWith src (lit "data:") then []
        else
          let alt :=
            trim (or_empty (or_else (getAttribute el "alt")
                              (Some (lit "image")))) in
          lit "![" ++ alt ++ lit "](" ++ value (toAbsoluteUrl src) ++ lit ")"
      else if Js.eqb tag (lit "strong") || Js.eqb tag (lit "b") then
        match trim (cleanupMarkdownInline (convertChildren c)) with
        | [] => []
        | inner => lit "**" ++ inner ++ lit "**"
        end
      else if Js.eqb tag (lit "em") || Js.eqb tag (lit "i") then
        match trim (cleanupMarkdownInline (convertChildren c)) with
        | [] => []
        | inner => lit "*" ++ inner ++ lit "*"
        end
      else if Js.eqb tag (lit "ul") || Js.eqb tag (lit "ol") then
        convertList_with convertListItem tag children c
      else if Js.eqb tag (lit "li") then convertChildren c
      else
        let combined := convertChildren c in
        if isBlockLike tag then
          match trim (cleanupMarkdown combined) with
          | [] => []
          | trimmed => trimmed ++ [LF; LF]
          end
        else
          let plain := combined in
          if is_math tag el then
            match extractLatex el with
            | Some (x :: latex) =>
                let isBlock :=
                  classList_contains el "block-math"
                  || classList_contains el "math-block"
                  || Js.eqb disp (lit "block")
                  || Js.eqb tag (lit "div")
                  || match getAttribute el "display" with
                     | Some d => Js.eqb d (lit "block")
                     | None => false
                     end in
                let cleanTex := trim (x :: latex) in
                if isBlock
                then [LF] ++ lit "$$" ++ [LF] ++ cleanTex ++ [LF] ++ lit "$$"
                       ++ [LF; LF]
                else lit "$" ++ cleanTex ++ lit "$"
            | _ => plain
            end
          else plain
      end
  end

with convertListItem (li : node) (c : ctx) {struct li} : str :=
  match li with
  | Elem _ _ _ children =>
      convertListItem_with convertNode convertListItem children c
  | _ => headLine c (itemText [])
  end.

Definition convertChildren (parent : node) (c : ctx) : str :=
  List.concat (List.map (fun ch => convertNode ch c) (childNodes parent)).

Definition convertList (listEl : node) (c : ctx) : str :=
  convertList_with convertListItem (tagName listEl) (childNodes listEl) c.

End Renderer.

(** *** The pre-pass that strips controls and scripts *)

(** The tree without the descendants that [drop] selects. *)
Fixpoint prune (drop : node -> bool) (n : node) : node :=
  match n with
  | Elem t a d ch =>
      Elem t a d
        ((fix go (cs : list node) : list node :=
            match cs with
            | [] => []
            | c :: cs' => if drop c then go cs' else prune drop c :: go cs'
            end) ch)
  | _ => n
  end.

(** [el.type.includes("math") || el.type.includes("tex")] *)
Definition math_type (el : node) : bool :=
  let type := or_empty (getAttribute el "type") in
  includes type (lit "math") || includes type (lit "tex").

Definition removeSelectors : list compound :=
  [ [TagIs "button"]; [TagIs "svg"]; [TagIs "mat-icon"]; [TagIs "style"];
    [TagIs "textarea"]; [TagIs "input"]; [AttrEq "role" "button"];
    [ClassIs "feedback-container"]; [ClassIs "edit-button"];
    [ClassIs "speech_icon"] ].

Definition cleanup (rootEl : node) : node :=
  let stripped :=
    fold_left
      (fun root sel =>
         prune (fun el => matches [sel] el
                          && negb (tag_is "script" el && math_type el))
               root)
      removeSelectors rootEl in
  prune (fun el => matches [[TagIs "script"]] el && negb (math_type el))
        stripped.

Definition htmlToMarkdown (newURL : str -> completion str)
  (element : option node) : str :=
  match element with
  | None => []
  | Some el =>
      let clone := cleanup el in
      convertChildren newURL clone
        {| listDepth := 0; inBlockquote := false;
           listOrdered := false; listIndex := 0 |}
  end.

(** ** Collecting the conversation turns *)

Fixpoint path_eqb (a b : path) : bool :=
  match a, b with
  | [], [] => true
  | i :: a', j :: b' => (i =? j) && path_eqb a' b'
  | _, _ => false
  end.

(** [a === b] on elements of one tree. *)
Definition same (a b : handle) : bool := path_eqb (fst a) (fst b).

Fixpoint is_prefix (a b : path) : bool :=
  match a, b with
  | [], _ => true
  | i :: a', j :: b' => (i =? j) && is_prefix a' b'
  | _ :: _, [] => false
  end.

(** [a.contains(b)]: [b] is [a] or a descendant of [a]. *)
Definition contains (a b : handle) : bool := is_prefix (fst a) (fst b).

Definition DOCUMENT_POSITION_PRECEDING : Z := 2.
Definition DOCUMENT_POSITION_FOLLOWING : Z := 4.
Definition DOCUMENT_POSITION_CONTAINS : Z := 8.
Definition DOCUMENT_POSITION_CONTAINED_BY : Z := 16.

(** [a.compareDocumentPosition(b)]: the position of [b] relative to [a]. *)
Fixpoint comparePaths (a b : path) : Z :=
  match a, b with
  | [], [] => 0
  | [], _ :: _ =>
      Z.lor DOCUMENT_POSITION_CONTAINED_BY DOCUMENT_POSITION_FOLLOWING
  | _ :: _, [] =>
      Z.lor DOCUMENT_POSITION_CONTAINS DOCUMENT_POSITION_PRECEDING
  | i :: a', j :: b' =>
      if i =? j then comparePaths a' b'
      else if i <? j then DOCUMENT_POSITION_FOLLOWING
      else DOCUMENT_POSITION_PRECEDING
  end.

Definition compareDocumentPosition (a b : handle) : Z :=
  comparePaths (fst a) (fst b).

Definition compareDomOrder (a b : handle) : Z :=
  if same a b then 0
  else
    let pos := compareDocumentPosition a b in
    if negb (Z.land pos DOCUMENT_POSITION_FOLLOWING =? 0)%Z then (-1)%Z
    else if negb (Z.land pos DOCUMENT_POSITION_PRECEDING =? 0)%Z then 1%Z
    else 0%Z.

(** [Array.prototype.sort] with a comparison function: a stable sort. *)
Fixpoint insert_by (cmp : handle -> handle -> Z) (x : handle)
  (l : list handle) : list handle :=
  match l with
  | [] => [x]
  | y :: tl => if (cmp x y <=? 0)%Z then x :: l else y :: insert_by cmp x tl
  end.

Definition sort_by (cmp : handle -> handle -> Z) (l : list handle)
  : list handle :=
  fold_right (insert_by cmp) [] l.

Fixpoint uniqueElements_go (seen : list handle) (elements : list handle)
  : list handle :=
  match elements with
  | [] => []
  | el :: rest =>
      if existsb (same el) seen then uniqueElements_go seen rest
      else el :: uniqueElements_go (el :: seen) rest
  end.

Definition uniqueElements (elements : list handle) : list handle :=
  uniqueElements_go [] elements.

Fixpoint removeContained_go (out : list handle) (sortedElements : list handle)
  : list handle :=
  match sortedElements with
  | [] => out
  | el :: rest =>
      if existsb (fun prev => contains prev el) out
      then removeContained_go out rest
      else removeContained_go (out ++ [el]) rest
  end.

Definition removeContainedElements (sortedElements : list handle)
  : list handle :=
  removeContained_go [] sortedElements.

Definition userSelectors : selector :=
  [ [TagIs "user-query"]; [AttrEq "data-test-id" "user-query"];
    [AttrEq "data-message-role" "user"];
    [AttrEq "data-message-author" "user"] ].

Definition modelSelectors : selector :=
  [ [TagIs "model-response"]; [AttrEq "data-test-id" "model-response"];
    [AttrEq "data-message-role" "assistant"];
    [AttrEq "data-message-author" "assistant"] ].

Definition turnSelectors : selector :=
  [ [AttrHasCI "data-test-id" "turn"]; [AttrHasCI "data-testid" "turn"];
    [AttrEq "role" "listitem"] ].

Definition has_text (n : node) : bool :=
  negb (is_nil (trim (textContent n))).

(** The candidates before they are deduplicated, ordered and filtered. *)
Definition turnCandidates (searchRoot : node) : list handle :=
  match querySelectorAll ([], searchRoot) (userSelectors ++ modelSelectors) with
  | [] =>
      filter (fun el => has_text (snd el))
        (querySelectorAll ([], searchRoot) turnSelectors)
  | candidates => candidates
  end.

Definition collectConversationNodes (searchRoot : node) : list handle :=
  let candidates := turnCandidates searchRoot in
  let candidates := sort_by compareDomOrder (uniqueElements candidates) in
  removeContainedElements candidates.

Definition getSpeaker (n : node) : str :=
  if Js.eqb (tagName n) (lit "user-query") || matches userSelectors n
  then lit "User"
  else if Js.eqb (tagName n) (lit "model-response") || matches modelSelectors n
  then lit "Gemini"
  else if includes (lower_str (className n)) (lit "user") then lit "User"
  else lit "Gemini".

Definition contentSelectors : list compound :=
  [ [HasAttr "data-message-text"]; [AttrHasCI "data-test-id" "message"];
    [TagIs "message-content"]; [ClassIs "message-content"];
    [ClassIs "markdown"]; [ClassIs "content"]; [TagIs "article"];
    [TagIs "section"] ].

Fixpoint firstContent (n : node) (selectors : list compound) : node :=
  match selectors with
  | [] => n
  | sel :: rest =>
      match querySelector ([], n) [sel] with
      | Some el => if has_text (snd el) then snd el else firstContent n rest
      | None => firstContent n rest
      end
  end.

Definition getBestContentNode (n : node) : node :=
  firstContent n contentSelectors.

(** [raw.replace(/^Gemini\s*-\s*/i, "")] *)
Definition strip_gemini (raw : str) : str :=
  if startsWith (lower_str raw) (lit "gemini")
  then
    match dropWhile is_space (skipn 6 raw) with
    | c :: rest => if (c =? 45)%N then dropWhile is_space rest else raw
    | [] => raw
    end
  else raw.

(** [getThreadTitle()], from [document.title]. *)
Definition getThreadTitle (documentTitle : str) : str :=
  let raw := trim documentTitle in
  let cleaned := trim (strip_gemini raw) in
  first_nonempty cleaned (lit "Gemini").

(** ** The live page and the effects of the script *)

(** What [captureUiState] records.  Scroll offsets are numbers the script
    only stores and writes back. *)
Record UISnapshot (Num : Type) : Type := {
  sidebarWasOpen : bool;
  activeSidebarTabLabel : option str;
  hadMonacoOpen : bool;
  currentCanvasTitle : option str;
  windowScroll : option (Num * Num);
  sidePanelScrollTop : option Num;
  fileListScrollTop : option Num;
  monacoScroll : option (Num * Num);
  immersivePanelOpen : bool
}.

(** The document as the renderer reads it. *)
Record page : Type := {
  hostname : str;
  documentTitle : str;
  documentElement : node
}.

(** The selectors the orchestrator hands to [document.querySelector]. *)
Inductive query : Type :=
| closeBtnSel        (* the two "close sidebar" buttons *)
| monacoViewLine     (* .monaco-editor .view-line *)
| monacoScrollable.  (* .monaco-editor .scrollable-element *)

(** The browser: the state of the live page and the calls the script makes
    into it.  A call may change the page and may throw.  The functions of
    the script that only query or click the page ([findSidePanel],
    [openFileByTitle], ...) are calls of the host. *)
Class Host : Type := {
  W : Type;
  Element : Type;
  Num : Type;
  (** milliseconds a call has taken, and the lateness of a timer *)
  elapsed : W -> N;
  late : W -> N;
  document : W -> page;
  captureUiState : node -> W -> completion (UISnapshot Num) * W;
  getMonacoModelContent : W -> completion (option (str * str)) * W;
  readMonacoDomText : W -> completion (option str) * W;
  canvasTitleText : W -> completion (option str) * W;
  listCreatedFileTitles : node -> W -> completion (list str) * W;
  openFileByTitle : node -> str -> W -> completion bool * W;
  document_querySelector : query -> W -> completion (option Element) * W;
  closestSidePanel : Element -> W -> completion (option Element) * W;
  ensureCodeTabSelected : option Element -> W -> completion unit * W;
  getCanvasSidebarItems : node -> W -> completion unit * W;
  tryClickOpenButton : node -> W -> completion bool * W;
  checkForCanvasReference : node -> W -> completion bool * W;
  click : Element -> W -> completion unit * W;
  window_scrollTo : Num -> Num -> W -> completion unit * W;
  findSidePanel : W -> completion (option Element) * W;
  isElementVisible : Element -> W -> completion bool * W;
  findSidebarToggleButton : W -> completion (option Element) * W;
  findImmersivePanel : W -> completion (option Element) * W;
  findCloseButton : Element -> W -> completion (option Element) * W;
  clickBackButton : Element -> W -> completion bool * W;
  clickFilesTab : Element -> W -> completion bool * W;
  findCreatedSectionContainer : node -> W -> completion (option Element) * W;
  findTabByLabel : Element -> str -> W -> completion (option Element) * W;
  set_scrollTop : Element -> Num -> W -> completion unit * W;
  set_scrollLeft : Element -> Num -> W -> completion unit * W;
  newURL : W -> str -> completion str
}.

(** What the theorems observe of a run: calls of [restoreUiState] and
    pushes onto [results].  The script itself never reads the trace. *)
Inductive event : Type :=
| EvRestore
| EvPush (content : str).

(** The variables of [extractAllCanvasContent] that its loop updates. *)
Record locals : Type := {
  results : list str;
  processedTitles : list str;
  everOpenedEditor : bool
}.

Section Script.

Context {H : Host}.

Record St : Type := {
  host : W;
  clock : Z;
  vars : locals;
  trace : list event
}.

(** A computation of the script: it runs on a state and completes
    normally or throws. *)
Definition M (A : Type) : Type := St -> completion A * St.

Definition ret {A} (a : A) : M A := fun s => (Normal a, s).

Definition bind {A B} (m : M A) (k : A -> M B) : M B := fun s =>
  match m s with
  | (Normal a, s1) => k a s1
  | (Throw e, s1) => (Throw e, s1)
  end.

Definition throw {A} (e : exn) : M A := fun s => (Throw e, s).

(** [try { body } catch (e) { handler e }] *)
Definition catch {A} (body : M A) (handler : exn -> M A) : M A := fun s =>
  match body s with
  | (Normal a, s1) => (Normal a, s1)
  | (Throw e, s1) => handler e s1
  end.

(** [try { body } finally { fin }]: [fin] runs however [body] completes;
    an exception of [fin] replaces the completion of [body]. *)
Definition finally {A} (body : M A) (fin : M unit) : M A := fun s =>
  let (r, s1) := body s in
  match fin s1 with
  | (Normal _, s2) => (r, s2)
  | (Throw e, s2) => (Throw e, s2)
  end.

(** A call into the host; the clock advances by the time it took. *)
Definition call {A} (f : W -> completion A * W) : M A := fun s =>
  let (r, w) := f (host s) in
  (r, {| host := w; clock := clock s + Z.of_N (elapsed w);
         vars := vars s; trace := trace s |}).

(** [Date.now()] *)
Definition Date_now : M Z := fun s => (Normal (clock s), s).

(** [await new Promise((r) => setTimeout(r, interval))] *)
Definition sleep (interval : positive) (s : St) : St :=
  {| host := host s;
     clock := clock s + Z.pos interval + Z.of_N (late (host s));
     vars := vars s; trace := trace s |}.

Definition mark (e : event) : M unit := fun s =>
  (Normal tt, {| host := host s; clock := clock s; vars := vars s;
                 trace := e :: trace s |}).

Definition get_vars : M locals := fun s => (Normal (vars s), s).

Definition set_vars (v : locals) : M unit := fun s =>
  (Normal tt, {| host := host s; clock := clock s; vars := v;
                 trace := trace s |}).

(** [console.warn(...)] has no effect on the page. *)
Definition console_warn : M unit := ret tt.

End Script.

Declare Scope script_scope.
Delimit Scope script_scope with script.
Notation "x <- m ;; k" := (bind m (fun x => k))
  (at level 61, m at next level, right associativity) : script_scope.
Notation "m ;;; k" := (bind m (fun _ => k))
  (at level 61, right associativity) : script_scope.

(** ** The poller and the canvas orchestrator *)

Definition is_some {A} (o : option A) : bool :=
  match o with Some _ => true | None => false end.

(** Truthiness of a string that may be [null]. *)
Definition is_content (o : option str) : bool :=
  match o with Some (_ :: _) => true | _ => false end.

Definition endsWith (s p : str) : bool := startsWith (rev s) (rev p).

(** [.] of a pattern: any character but a line terminator. *)
Definition is_dot (c : char) : bool :=
  negb ((c =? 10) || (c =? 13) || (c =? 8232) || (c =? 8233))%N.

(** The first group of the pattern that [extractAllCanvasContent] matches
    against the content: what follows [## Canvas: ] on a line that a line
    feed ends. *)
Fixpoint canvas_title_match (s : str) : option str :=
  match s with
  | [] => None
  | _ :: tl =>
      if startsWith s (lit "## Canvas: ")
      then
        let rest := skipn 11 s in
        let n := span_len is_dot rest in
        match nth_error rest n with
        | Some c => if is_lf c then Some (firstn n rest)
                    else canvas_title_match tl
        | None => canvas_title_match tl
        end
      else canvas_title_match tl
  end.

Definition language_of_title (title : str) : str :=
  if endsWith title (lit ".js") || endsWith title (lit ".ts")
  then lit "javascript"
  else if endsWith title (lit ".py") then lit "python"
  else if endsWith title (lit ".html") then lit "html"
  else if endsWith title (lit ".css") then lit "css"
  else if endsWith title (lit ".json") then lit "json"
  else if endsWith title (lit ".md") then lit "markdown"
  else [].

Inductive ctl : Type := Next | Break.

Definition MAX_TOTAL_MS : Z := 45000.

Section Orchestrator.

Context {H : Host}.
Local Open Scope script_scope.

(** [waitFor(fn, { timeout, interval })].  Every round of the loop ends
    with a timer of [interval] milliseconds, so the loop has made at most
    [timeout] rounds when its test fails; the model runs that many. *)
Fixpoint waitFor_loop {A} (truthy : A -> bool) (fn : M A)
  (start timeout : Z) (interval : positive) (rounds : nat)
  : M (option A) := fun s =>
  match rounds with
  | 0 => (Normal None, s)
  | S r =>
      if (clock s - start <? timeout)%Z
      then
        match fn s with
        | (Normal result, s1) =>
            if truthy result then (Normal (Some result), s1)
            else waitFor_loop truthy fn start timeout interval r
                   (sleep interval s1)
        | (Throw _, s1) =>
            waitFor_loop truthy fn start timeout interval r
              (sleep interval s1)
        end
      else (Normal None, s)
  end.

Definition waitFor {A} (truthy : A -> bool) (fn : M A)
  (timeout : Z) (interval : positive) : M (option A) := fun s =>
  waitFor_loop truthy fn (clock s) timeout interval (Z.to_nat timeout) s.

Definition truthy_bool (b : bool) : bool := b.

(** [isElementVisible(el)] with [el] possibly [null]. *)
Definition visible (el : option Element) : M bool :=
  match el with
  | Some e => call (isElementVisible e)
  | None => ret false
  end.

Definition isFileListVisible (root : node) : M bool :=
  container <- call (findCreatedSectionContainer root) ;;
  visible container.

Definition isImmersivePanelOpen : M bool :=
  panel <- call findImmersivePanel ;;
  visible panel.

Definition ensureSidebarOpen (root : node) : M unit :=
  sidePanel <- call findSidePanel ;;
  shown <- visible sidePanel ;;
  if shown then ret tt else
  closeSidebarBtn <- call (document_querySelector closeBtnSel) ;;
  if is_some closeSidebarBtn then ret tt else
  openSidebarBtn <- call findSidebarToggleButton ;;
  match openSidebarBtn with
  | Some btn =>
      call (click btn) ;;;
      _ <- waitFor truthy_bool
             (closeBtn <- call (document_querySelector closeBtnSel) ;;
              panel <- call findSidePanel ;;
              if is_some closeBtn then ret true else visible panel)
             2500 100 ;;
      ret tt
  | None => ret tt
  end.

Definition closeImmersivePanel : M bool :=
  panel <- call findImmersivePanel ;;
  match panel with
  | None => ret true
  | Some p =>
      closeBtn <- call (findCloseButton p) ;;
      match closeBtn with
      | Some btn =>
          call (click btn) ;;;
          closed <- waitFor truthy_bool
                      (o <- isImmersivePanelOpen ;; ret (negb o))
                      2000 100 ;;
          ret (is_some closed)
      | None =>
          o <- isImmersivePanelOpen ;;
          ret (negb o)
      end
  end.

Definition waitListVisible (root : node) : M bool :=
  ok <- waitFor truthy_bool (isFileListVisible root) 1500 100 ;;
  ret (is_some ok).

Definition ensureFileListVisible (root : node) : M bool :=
  shown <- isFileListVisible root ;;
  if shown then ret true else
  sidePanel <- call findSidePanel ;;
  found <-
    match sidePanel with
    | Some sp =>
        back <- call (clickBackButton sp) ;;
        ok <- (if back then waitListVisible root else ret false) ;;
        if ok then ret true else
        files <- call (clickFilesTab sp) ;;
        if files then waitListVisible root else ret false
    | None => ret false
    end ;;
  if found then ret true else
  closeBtn <- call (document_querySelector closeBtnSel) ;;
  match closeBtn with
  | Some btn =>
      call (click btn) ;;;
      _ <- waitFor truthy_bool
             (b <- call (document_querySelector closeBtnSel) ;;
              ret (negb (is_some b)))
             1500 100 ;;
      ret tt
  | None => ret tt
  end ;;;
  ensureSidebarOpen root ;;;
  isFileListVisible root.

Definition getCanvasContent (titleFallback : option str) : M (option str) :=
  catch
    (call (ensureCodeTabSelected None) ;;;
     monacoContent <- call getMonacoModelContent ;;
     let modelCode := nonempty (option_map fst monacoContent) in
     let lang := or_empty (option_map snd monacoContent) in
     codeText <-
       match modelCode with
       | Some code => ret (Some code)
       | None => t <- call readMonacoDomText ;; ret (nonempty t)
       end ;;
     match codeText with
     | None => ret None
     | Some code =>
         title <-
           match nonempty titleFallback with
           | Some t => ret t
           | None =>
               titleText <- call canvasTitleText ;;
               match nonempty titleText with
               | Some t => ret (trim t)
               | None => ret (lit "Canvas Content")
               end
           end ;;
         let lang := first_nonempty lang (language_of_title title) in
         ret (Some (lit "## Canvas: " ++ title ++ [LF; LF] ++ ticks 3 ++ lang
                      ++ [LF] ++ code ++ [LF] ++ ticks 3))
     end)
    (fun _ => console_warn ;;; ret None).

Definition when (b : bool) (m : M unit) : M unit :=
  if b then m else ret tt.

Definition snapshot := UISnapshot Num.

(** [state?.field], with [dflt] standing for a falsy [undefined]. *)
Definition field {A} (state : option snapshot) (f : snapshot -> A) (dflt : A)
  : A :=
  match state with
  | Some st => f st
  | None => dflt
  end.

Definition closeSidebar : M unit :=
  closeBtn <- call (document_querySelector closeBtnSel) ;;
  match closeBtn with
  | Some btn =>
      call (click btn) ;;;
      _ <- waitFor truthy_bool
             (b <- call (document_querySelector closeBtnSel) ;;
              ret (negb (is_some b)))
             1500 100 ;;
      ret tt
  | None => ret tt
  end.

(** The steps of [restoreUiState] for a sidebar that was open. *)
Definition restoreOpenSidebar (root : node) (st : snapshot) : M unit :=
  ensureSidebarOpen root ;;;
  sidePanel <- call findSidePanel ;;
  match hadMonacoOpen st, nonempty (currentCanvasTitle st) with
  | true, Some title =>
      _ <- ensureFileListVisible root ;;
      _ <- call (openFileByTitle root title) ;;
      match sidePanel with
      | Some sp => call (ensureCodeTabSelected (Some sp))
      | None => ret tt
      end ;;;
      match monacoScroll st with
      | Some (top, lft) =>
          _ <- waitFor is_some
                 (call (document_querySelector monacoScrollable))
                 1500 100 ;;
          monacoEl <- call (document_querySelector monacoScrollable) ;;
          match monacoEl with
          | Some el =>
              call (set_scrollTop el top) ;;;
              call (set_scrollLeft el lft)
          | None => ret tt
          end
      | None => ret tt
      end
  | _, _ =>
      match sidePanel, nonempty (activeSidebarTabLabel st) with
      | Some sp, Some label =>
          target <- call (findTabByLabel sp label) ;;
          match target with
          | Some t => call (click t)
          | None => ret tt
          end
      | _, _ => ret tt
      end ;;;
      when (negb (hadMonacoOpen st))
        (monacoOpen <- call (document_querySelector monacoViewLine) ;;
         match monacoOpen, sidePanel with
         | Some _, Some sp =>
             back <- call (clickBackButton sp) ;;
             (if back then ret tt
              else _ <- call (clickFilesTab sp) ;; ret tt) ;;;
             _ <- waitFor truthy_bool
                    (l <- call (document_querySelector monacoViewLine) ;;
                     ret (negb (is_some l)))
                    1500 100 ;;
             ret tt
         | _, _ => ret tt
         end) ;;;
      match fileListScrollTop st with
      | Some top =>
          _ <- ensureFileListVisible root ;;
          container <- call (findCreatedSectionContainer root) ;;
          match container with
          | Some c => call (set_scrollTop c top)
          | None => ret tt
          end
      | None => ret tt
      end
  end ;;;
  match sidePanel, sidePanelScrollTop st with
  | Some sp, Some top => call (set_scrollTop sp top)
  | _, _ => ret tt
  end.

Definition restoreUiState (root : node) (state : option snapshot) : M unit :=
  mark EvRestore ;;;
  let shouldCloseImmersive := negb (field state (@immersivePanelOpen _) false) in
  catch
    (match field state (@windowScroll _) None with
     | Some (x, y) => call (window_scrollTo x y)
     | None => ret tt
     end ;;;
     if negb (field state (@sidebarWasOpen _) false)
     then
       closeSidebar ;;;
       when shouldCloseImmersive (_ <- closeImmersivePanel ;; ret tt)
     else
       match state with
       | Some st => restoreOpenSidebar root st
       | None => ret tt
       end ;;;
       when shouldCloseImmersive (_ <- closeImmersivePanel ;; ret tt))
    (fun _ => console_warn).

End Orchestrator.

Section Extraction.

Context {H : Host}.
Local Open Scope script_scope.

Definition has_title (title : str) (titles : list str) : bool :=
  existsb (Js.eqb title) titles.

(** [results.push(content)] *)
Definition push_result (content : str) : M unit :=
  v <- get_vars ;;
  set_vars {| results := results v ++ [content];
              processedTitles := processedTitles v;
              everOpenedEditor := everOpenedEditor v |} ;;;
  mark (EvPush content).

(** [processedTitles.add(title)] *)
Definition add_processed (title : str) : M unit :=
  v <- get_vars ;;
  set_vars {| results := results v;
              processedTitles :=
                if has_title title (processedTitles v)
                then processedTitles v
                else processedTitles v ++ [title];
              everOpenedEditor := everOpenedEditor v |}.

Definition set_everOpenedEditor (b : bool) : M unit :=
  v <- get_vars ;;
  set_vars {| results := results v;
              processedTitles := processedTitles v;
              everOpenedEditor := b |}.

(** The end of one round of the loop, from the result of the wait for the
    content of [title]. *)
Definition after_content (root : node) (title : str) (content : option str)
  : M ctl :=
  stop <-
    match content with
    | Some (c :: text) =>
        push_result (c :: text) ;;;
        add_processed title ;;;
        set_everOpenedEditor true ;;;
        ret false
    | _ =>
        v <- get_vars ;;
        ret (negb (everOpenedEditor v))
    end ;;
  if stop then ret Break else
  listRestored <- ensureFileListVisible root ;;
  if listRestored then ret Next
  else console_warn ;;; ret Break.

(** The wait for the content of the file just clicked. *)
Definition poll_content (title : str) (remainingMs : Z) : M (option str) :=
  r <- waitFor is_content (getCanvasContent (Some title))
         (Z.min 8000 remainingMs) 200 ;;
  ret (match r with Some c => c | None => None end).

(** The selection of the code tab of the side panel, if there is one. *)
Definition selectCodeTab : M unit :=
  closeBtn <- call (document_querySelector closeBtnSel) ;;
  sidePanel <-
    match closeBtn with
    | Some btn => call (closestSidePanel btn)
    | None => ret None
    end ;;
  match sidePanel with
  | Some sp =>
      _ <- waitFor truthy_bool
             (call (ensureCodeTabSelected (Some sp)) ;;; ret true)
             1000 200 ;;
      ret tt
  | None => ret tt
  end.

(** One round of the loop over the titles: the body of the [for], with its
    [try] and [catch]. *)
Definition loop_body (root : node) (totalStart : Z) (title : str) : M ctl :=
  catch
    (listReady <- ensureFileListVisible root ;;
     if negb listReady then console_warn ;;; ret Break else
     v <- get_vars ;;
     if has_title title (processedTitles v) then ret Next else
     clicked <- call (openFileByTitle root title) ;;
     if negb clicked then console_warn ;;; ret Next else
     selectCodeTab ;;;
     now <- Date_now ;;
     let remainingMs := (MAX_TOTAL_MS - (now - totalStart))%Z in
     if (remainingMs <=? 0)%Z then ret Break else
     content <- poll_content title remainingMs ;;
     after_content root title content)
    (fun _ => console_warn ;;; ret Next).

Fixpoint for_titles (root : node) (totalStart : Z) (titles : list str)
  : M unit :=
  match titles with
  | [] => ret tt
  | title :: rest =>
      now <- Date_now ;;
      if (now - totalStart >? MAX_TOTAL_MS)%Z then ret tt else
      c <- loop_body root totalStart title ;;
      match c with
      | Next => for_titles root totalStart rest
      | Break => ret tt
      end
  end.

(** The body of the inner [try] of [extractAllCanvasContent]. *)
Definition extract_phase (root : node) (totalStart : Z) : M unit :=
  currentContent <- getCanvasContent None ;;
  match currentContent with
  | Some (c :: text) =>
      let title :=
        match canvas_title_match (c :: text) with
        | Some t => trim t
        | None => lit "Untitled"
        end in
      add_processed title ;;;
      push_result (c :: text)
  | _ => ret tt
  end ;;;
  ensureSidebarOpen root ;;;
  _ <- ensureFileListVisible root ;;
  titles <- call (listCreatedFileTitles root) ;;
  match titles with
  | _ :: _ => for_titles root totalStart titles
  | [] =>
      call (getCanvasSidebarItems root) ;;;
      v <- get_vars ;;
      match results v with
      | [] =>
          opened <- call (tryClickOpenButton root) ;;
          if opened then
            _ <- waitFor is_content (getCanvasContent None) 3000 100 ;;
            content <- getCanvasContent None ;;
            match content with
            | Some (c :: text) => push_result (c :: text)
            | _ => ret tt
            end
          else ret tt
      | _ :: _ => ret tt
      end
  end.

Definition extractAllCanvasContent (root : node) : M (list str) :=
  uiState <- call (captureUiState root) ;;
  set_vars {| results := []; processedTitles := [];
              everOpenedEditor := false |} ;;;
  totalStart <- Date_now ;;
  finally
    (catch (extract_phase root totalStart) (fun _ => console_warn) ;;;
     v <- get_vars ;;
     ret (results v))
    (restoreUiState root (Some uiState)).

(** *** The entry point *)

Inductive failure : Type :=
| NotGeminiPage        (* the page is not a Gemini page *)
| PageUnreadable       (* neither [main] nor [body] *)
| TurnsNotFound        (* no conversation element was found *)
| Uncaught (e : exn).  (* [e?.message ?? String(e)] *)

Inductive extraction : Type :=
| Markdown (text : str)
| Failed (error : failure).

(** [document.body] *)
Definition document_body (pg : page) : option node :=
  find (fun n => tag_is "body" n || tag_is "frameset" n)
    (childNodes (documentElement pg)).

(** [document.querySelector("main") || document.body] *)
Definition search_root (pg : page) : option node :=
  match filter (fun h => matches [[TagIs "main"]] (snd h))
          (walk [] (documentElement pg)) with
  | h :: _ => Some (snd h)
  | [] => document_body pg
  end.

Definition turn_lines (newURL : str -> completion str) (h : handle)
  : list str :=
  let speaker := getSpeaker (snd h) in
  let content := getBestContentNode (snd h) in
  match trim (htmlToMarkdown newURL (Some content)) with
  | [] => []
  | markdown => [lit "## " ++ speaker; markdown; []; lit "---"; []]
  end.

Definition warning_lines : list str :=
  [ []; lit "---"; []; lit "> [!WARNING]";
    lit "> **Canvas content not found.**";
    lit "> Auto-open failed. Please **OPEN the Side Panel MANUALLY** and select the **" ++ [34%N] ++ lit "Code" ++ [34%N; 32%N; 40%N; 12467%N; 12540%N; 12489%N; 41%N] ++ lit "** tab." ].

Definition extractMarkdownFromPage (includeCanvas : bool) : M extraction :=
  catch
    (fun s =>
       let pg := document (host s) in
       if negb (endsWith (hostname pg) (lit "gemini.google.com"))
       then ret (Failed NotGeminiPage) s else
       match search_root pg with
       | None => ret (Failed PageUnreadable) s
       | Some root =>
         match collectConversationNodes root with
         | [] => ret (Failed TurnsNotFound) s
         | nodes =>
           let title := getThreadTitle (documentTitle pg) in
           let output :=
             [lit "# " ++ title; []]
             ++ List.concat (List.map (turn_lines (newURL (host s))) nodes) in
           (output <-
              (if includeCanvas then
                 canvasSections <- extractAllCanvasContent root ;;
                 match canvasSections with
                 | _ :: _ =>
                     ret (output ++
                          List.concat
                            (List.map
                               (fun section => [[]; lit "---"; []; section])
                               canvasSections))
                 | [] =>
                     hasCanvasRef <- call (checkForCanvasReference root) ;;
                     if hasCanvasRef then ret (output ++ warning_lines)
                     else ret output
                 end
               else ret output) ;;
            ret (Markdown (cleanupMarkdown (join [LF] output)))) s
         end
       end)
    (fun e => ret (Failed (Uncaught e))).

End Extraction.

(** ** The models of the editor *)

Module Monaco.

(** A model of the editor as the script uses it.  Each method may be
    absent ([None]), and a call of a method may throw.
    [languageIdentifier] is [_languageIdentifier?.language]. *)
Record model : Type := {
  getLineCount : option (completion N);
  getValue : option (completion str);
  getLanguageId : option (completion str);
  languageIdentifier : option str
}.

(** [window.monaco?.editor?.getModels]: absent, or a call that returns an
    array ([None]: no array) or throws. *)
Definition api : Type := option (completion (option (list model))).

(** Sequencing of calls that may throw. *)
Definition andThen {A B} (c : completion A) (k : A -> completion B)
  : completion B :=
  match c with
  | Normal a => k a
  | Throw e => Throw e
  end.

(** The function given to [reduce]: [best] is [null] or [{ ref, count }]. *)
Definition longer (best : option (model * N)) (m : model)
  : completion (option (model * N)) :=
  andThen
    match getLineCount m with
    | Some call => call
    | None => Normal 0%N
    end
    (fun count =>
       match best with
       | None => Normal (Some (m, count))
       | Some (_, bestCount) =>
           if (bestCount <? count)%N then Normal (Some (m, count))
           else Normal best
       end).

(** [models.reduce(longer, best)] *)
Fixpoint reduce (models : list model) (best : option (model * N))
  : completion (option (model * N)) :=
  match models with
  | [] => Normal best
  | m :: rest => andThen (longer best m) (reduce rest)
  end.

(** [getMonacoModelContent()]: the code and the language of the model
    with the most lines, or [None] ([null]); an exception is caught. *)
Definition getMonacoModelContent (monaco : api) : option (str * str) :=
  match
    match monaco with
    | None => Normal None
    | Some getModels =>
        andThen getModels
          (fun models =>
             match models with
             | None => Normal None
             | Some [] => Normal None
             | Some models =>
                 andThen (reduce models None)
                   (fun best =>
                      match option_map fst best with
                      | None => Normal None
                      | Some model =>
                          match getValue model with
                          | None => Normal None
                          | Some call =>
                              andThen call
                                (fun code =>
                                   andThen
                                     match getLanguageId model with
                                     | Some id => id
                                     | None => Normal []
                                     end
                                     (fun id =>
                                        let langId :=
                                          first_nonempty id
                                            (or_empty
                                               (languageIdentifier model)) in
                                        Normal (Some (code, langId))))
                          end
                      end)
             end)
    end
  with
  | Normal content => content
  | Throw _ => None
  end.

End Monaco.

(** ** The lines of the editor *)

Module View.

(** The editor as [readMonacoDomText] reads it.  [viewLines] is the text
    of the [.view-line] elements in document order, [scrollable] tells
    whether the editor has a [.scrollable-element]; the other fields are
    the properties of that element.  The heights are integers; offsets
    are numbers, [of_Z] being the number of an integer.  Setting
    [scrollTop] changes the page. *)
Class Editor : Type := {
  E : Type;
  Offset : Type;
  of_Z : Z -> Offset;
  viewLines : E -> list str;
  scrollable : E -> bool;
  scrollTop : E -> Offset;
  scrollHeight : E -> Z;
  clientHeight : E -> Z;
  set_scrollTop : Offset -> E -> E
}.

Section Reader.

Context {Ed : Editor}.

(** [readLines()]: the lines on display, without the white space at
    their end. *)
Definition readLines (w : E) : list str := List.map trimEnd (viewLines w).

(** The loop that scrolls the editor down by [step] from [pos] while
    [pos <= max] and collects the lines on display after each move.  The
    loop makes at most [fuel] rounds. *)
Fixpoint scroll (fuel : nat) (pos max step : Z) (collected : list str) (w : E)
  : list str * E :=
  match fuel with
  | 0 => (collected, w)
  | S fuel' =>
      if (pos <=? max)%Z
      then
        let w' := set_scrollTop (of_Z pos) w in
        scroll fuel' (pos + step) max step (collected ++ readLines w') w'
      else (collected, w)
  end.

(** The lines without the repetitions of the line before. *)
Definition compress (collected : list str) : list str :=
  fold_left
    (fun compressed l =>
       match rev compressed with
       | [] => compressed ++ [l]
       | last :: _ => if Js.eqb last l then compressed else compressed ++ [l]
       end)
    collected [].

(** [Math.max(200, Math.floor(clientHeight * 0.8))]; the height is a
    non-negative integer, for which the floor of the product is the
    quotient of its quadruple by 5. *)
Definition step_of (w : E) : Z := Z.max 200 (4 * clientHeight w / 5).

(** [readMonacoDomText()]: the text, or [None] ([null]), and the page it
    leaves. *)
Definition readMonacoDomText (w : E) : option str * E :=
  let lines := readLines w in
  if (0 <? List.length lines) && negb (is_nil (trim (List.concat lines)))
     && (1 <? List.length lines)
  then (Some (join [LF] lines), w)
  else if negb (scrollable w) then (nonempty (Some (join [LF] lines)), w)
  else
    let originalTop := scrollTop w in
    let max := scrollHeight w in
    let step := step_of w in
    let collected := readLines w in
    let (collected, w1) :=
      scroll (Z.to_nat (max / step + 1)) 0 max step collected w in
    let w2 := set_scrollTop (of_Z max) w1 in
    let collected := collected ++ readLines w2 in
    let w3 := set_scrollTop originalTop w2 in
    let text := trim (join [LF] (compress collected)) in
    (nonempty (Some text), w3).

End Reader.

End View.

(** ** The list of the files in the side panel *)

Module Sidebar.

Section Files.

(** The root element of the document; the elements are found in it by
    their paths. *)
Variable doc : node.

(** [findCreatedSectionContainer(root).container] and the layout test
    [isElementVisible] are taken from the page. *)
Variable findCreatedSectionContainer : handle -> option handle.
Variable isElementVisible : handle -> bool.

(** The node at the end of a path. *)
Fixpoint node_at (n : node) (p : path) : option node :=
  match p with
  | [] => Some n
  | i :: p' =>
      match nth_error (childNodes n) i with
      | Some c => node_at c p'
      | None => None
      end
  end.

(** The nodes passed on the way from [n] along [p], the end apart. *)
Fixpoint ancestors_from (n : node) (p : path) : list node :=
  match p with
  | [] => []
  | i :: p' =>
      n :: match nth_error (childNodes n) i with
           | Some c => ancestors_from c p'
           | None => []
           end
  end.

(** [container.querySelectorAll("sidebar-immersive-chip .immersive-title")]:
    the elements of class [immersive-title] under the container that have
    a chip among their ancestors in the document. *)
Definition titleElements (container : handle) : list handle :=
  filter
    (fun h =>
       matches [[ClassIs "immersive-title"]] (snd h)
       && existsb (matches [[TagIs "sidebar-immersive-chip"]])
            (ancestors_from doc (fst h)))
    (descendants container).

(** [(el.textContent || "").trim()] *)
Definition title_of (el : handle) : str := trim (textContent (snd el)).

(** [Array.from(new Set(titles))]: the first occurrences, in order. *)
Fixpoint distinct (seen : list str) (titles : list str) : list str :=
  match titles with
  | [] => []
  | t :: rest =>
      if existsb (Js.eqb t) seen then distinct seen rest
      else t :: distinct (t :: seen) rest
  end.

Definition listCreatedFileTitles (root : handle) : list str :=
  match findCreatedSectionContainer root with
  | None => []
  | Some container =>
      if negb (isElementVisible container) then []
      else
        let titleEls := titleElements container in
        let titles :=
          filter (fun t => negb (is_nil t)) (List.map title_of titleEls) in
        distinct [] titles
  end.

(** [openFileByTitle(root, title)]: the element that receives the click,
    or [None] when the function returns [false]. *)
Definition openFileByTitle (root : handle) (title : str) : option handle :=
  match findCreatedSectionContainer root with
  | None => None
  | Some container =>
      if negb (isElementVisible container) then None
      else
        let chips :=
          querySelectorAll container [[TagIs "sidebar-immersive-chip"]] in
        let targetChip :=
          find
            (fun chip =>
               match querySelector chip [[ClassIs "immersive-title"]] with
               | Some titleEl => Js.eqb (title_of titleEl) title
               | None => false
               end)
            chips in
        match targetChip with
        | Some chip =>
            match querySelector chip
                    [[ClassIs "container"]; [ClassIs "clickable"]] with
            | Some clickable => Some clickable
            | None => Some chip
            end
        | None => None
        end
  end.

End Files.

End Sidebar.

(** ** The container of the files created

    [findCreatedSectionContainer] of the script.  An element is known by
    its path in the document; [tagName] of an element of the page is its
    tag in upper case. *)

Module Created.

(** A scope of the search: the document, or one of its elements. *)
Inductive scope : Type :=
| Document
| Element (h : handle).

(** [a === b] on scopes *)
Definition scope_eqb (a b : scope) : bool :=
  match a, b with
  | Document, Document => true
  | Element h, Element h' => same h h'
  | _, _ => false
  end.

Section Container.

(** The root element of the document. *)
Variable doc : node.

(** [String.prototype.toLowerCase] *)
Variable toLowerCase : str -> str.

(** [scope.querySelectorAll(selector)] *)
Definition elements (sc : scope) (sel : selector) : list handle :=
  match sc with
  | Document => filter (fun d => matches sel (snd d)) (walk [] doc)
  | Element h => querySelectorAll h sel
  end.

(** The headings of the section, in code units: the two Japanese words
    of the script, [created] and [files]. *)
Definition headings : list str :=
  [ [20316; 25104; 28168; 12415]%N;
    lit "created";
    lit "files";
    [12501; 12449; 12452; 12523]%N ].

(** The test of a header: its text, trimmed and in lower case, is one of
    the headings. *)
Definition is_target (el : handle) : bool :=
  let text := toLowerCase (trim (textContent (snd el))) in
  existsb (Js.eqb text) headings.

(** The elements among the nodes [cs], which are the children of the
    node at [parent] from the index [i] on. *)
Fixpoint elementsFrom (parent : path) (i : nat) (cs : list node)
  : list handle :=
  match cs with
  | [] => []
  | c :: rest =>
      (if isElement c then [(parent ++ [i], c)] else [])
        ++ elementsFrom parent (S i) rest
  end.

(** [el.nextElementSibling] and so on: the elements that follow [el]
    among the children of its parent. *)
Definition followingElements (el : handle) : list handle :=
  match rev (fst el) with
  | [] => []
  | i :: parent =>
      match Sidebar.node_at doc (rev parent) with
      | Some p =>
          elementsFrom (rev parent) (S i) (skipn (S i) (childNodes p))
      | None => []
      end
  end.

(** The [while] loop on the siblings that follow the header.  The
    sibling next to the header ([first]) is only tested for the class
    [source-container]; a later one ends the search when it is a
    [section] or a header of section. *)
Fixpoint seek (first : bool) (siblings : list handle) : option handle :=
  match siblings with
  | [] => None
  | c :: rest =>
      if negb first
         && (tag_is "section" (snd c)
             || classList_contains (snd c) "section-header")
      then None
      else if classList_contains (snd c) "source-container" then Some c
      else seek false rest
  end.

(** The body of the loop over the scopes. *)
Definition inScope (sc : scope) : option handle :=
  let containers := elements sc [[TagIs "div"; ClassIs "source-container"]] in
  let chipContainer :=
    find
      (fun c => is_some (querySelector c [[TagIs "sidebar-immersive-chip"]]))
      containers in
  match chipContainer with
  | Some c => Some c
  | None =>
      let headers :=
        elements sc [ [TagIs "div"; ClassIs "section-header"];
                      [TagIs "div"; ClassIs "gds-title-s"] ] in
      match find is_target headers with
      | Some targetHeader => seek true (followingElements targetHeader)
      | None => None
      end
  end.

(** [for (const scope of scopes)], with the set [seen]. *)
Fixpoint search (seen scopes : list scope) : option (handle * scope) :=
  match scopes with
  | [] => None
  | sc :: rest =>
      if existsb (scope_eqb sc) seen then search seen rest
      else
        match inScope sc with
        | Some container => Some (container, sc)
        | None => search (sc :: seen) rest
        end
  end.

(** [findCreatedSectionContainer(root)]: the container and its scope;
    [None] is [{ container: null, scope: null }].  The root is [null]
    ([None]), the document or an element. *)
Definition findCreatedSectionContainer (root : option scope)
  : option (handle * scope) :=
  let scopes :=
    match root with Some r => [r] | None => [] end
      ++ match root with Some Document => [] | _ => [Document] end in
  search [] scopes.

End Container.

End Created.

(** * Vocabulary of the properties *)

(** A text in which the pattern [m] matches nowhere. *)
Fixpoint unmatched (m : matcher) (s : str) : Prop :=
  match s with
  | [] => True
  | _ :: tl => m s = None /\ unmatched m tl
  end.

(** ** Normalised texts *)

Definition no_cr (s : str) : Prop := Forall (fun c => c <> CR) s.

Definition hd_is_lf (s : str) : bool :=
  match s with
  | c :: _ => is_lf c
  | [] => false
  end.

Fixpoint blank_lf_free (s : str) : Prop :=
  match s with
  | [] => True
  | c :: tl => (is_blank c && hd_is_lf tl = false) /\ blank_lf_free tl
  end.

Definition lfs (n : nat) : str := List.repeat LF n.

Fixpoint lf_runs_below (k : nat) (s : str) : Prop :=
  match s with
  | [] => True
  | _ :: tl => span_len is_lf s < k /\ lf_runs_below k tl
  end.

(** The replacement of runs of [j + 2] line feeds or more by [j + 1]. *)
Definition squeeze (j : nat) (s : str) : str :=
  replace_all (re_lf_min (S (S j))) (lfs (S j)) s.

(** ** Fences *)

(** The longest run of backticks of a text. *)
Fixpoint tick_run_max (s : str) : nat :=
  match s with
  | [] => 0
  | _ :: tl => Nat.max (span_len is_tick s) (tick_run_max tl)
  end.

(** [k] is the length of the longest run of backticks of [s]: a run of [k]
    occurs in [s] and a run of [k + 1] does not. *)
Definition longest_tick_run (s : str) (k : nat) : Prop :=
  includes s (ticks k) = true /\ includes s (ticks (S k)) = false.

(** The text of the code block that [convertNode] renders for a [pre]. *)
Definition pre_body (el : node) : str :=
  normalizeCode
    match option_map snd (querySelector ([], el) [[TagIs "code"]]) with
    | Some ce => textContent ce
    | None => textContent el
    end.

(** The text of the code span that [convertNode] renders for a [code]. *)
Definition code_text (el : node) : str :=
  trim (replace_all re_spaces [SP] (textContent el)).

(** ** Document order *)

(** Document order on paths: a node precedes its descendants, and the
    subtree of a child precedes the subtrees of the later children. *)
Fixpoint path_cmp (a b : path) : comparison :=
  match a, b with
  | [], [] => Eq
  | [], _ :: _ => Lt
  | _ :: _, [] => Gt
  | i :: a', j :: b' =>
      match Nat.compare i j with
      | Eq => path_cmp a' b'
      | c => c
      end
  end.

Definition precedes (x y : handle) : Prop := path_cmp (fst x) (fst y) = Lt.
Definition doc_le (x y : handle) : Prop := path_cmp (fst x) (fst y) <> Gt.

(** No element of the list contains another one. *)
Definition antichain (l : list handle) : Prop :=
  forall x y, In x l -> In y l -> contains x y = true -> fst x = fst y.

(** The candidates, deduplicated and put in document order. *)
Definition orderedCandidates (searchRoot : node) : list handle :=
  sort_by compareDomOrder (uniqueElements (turnCandidates searchRoot)).

(** ** Lists *)

(** The own text of a list item: what its children other than nested
    lists render to, normalised as [convertListItem] does. *)
Definition ownText (newURL : str -> completion str) (li : node) (c : ctx)
  : str :=
  itemText
    (List.concat
       (List.map (fun ch => if is_list ch then [] else [convertNode newURL ch c])
          (childNodes li))).

(** The nested lists of a list item, rendered in the context of the item
    and trimmed at the end; the empty ones are dropped. *)
Definition nestedLists (newURL : str -> completion str) (li : node) (c : ctx)
  : list str :=
  filter (fun s => negb (is_nil s))
    (List.map (fun nl => trimEnd (convertNode newURL nl c))
       (filter is_list (childNodes li))).

(** The context [convertList] gives to the item of index [index]. *)
Definition item_ctx (c : ctx) (ordered : bool) (index : nat) : ctx :=
  {| listDepth := listDepth c + 1; inBlockquote := inBlockquote c;
     listOrdered := ordered; listIndex := index |}.

(** The head line of a list item in context [c]: indentation, bullet and
    own text, without white space at the end. *)
Definition head_of (c : ctx) (text : str) : str :=
  List.repeat SP (2 * (listDepth c - 1))
  ++ match text with
     | [] => if listOrdered c then decimal (listIndex c) ++ lit "." else lit "-"
     | _ =>
         (if listOrdered c then decimal (listIndex c) ++ lit ". " else lit "- ")
         ++ text
     end.

(** ** The document of two turns *)

(** A text without line break. *)
Definition single_line (s : str) : Prop :=
  Forall (fun c => c <> LF /\ c <> CR) s.

(** The lines of the two turns, after the title line. *)
Definition two_turn_body : str :=
  [LF; LF] ++ lit "## User" ++ [LF] ++ lit "Hello" ++ [LF; LF] ++ lit "---"
    ++ [LF; LF] ++ lit "## Gemini" ++ [LF] ++ lit "Hi there" ++ [LF; LF]
    ++ lit "---".

Definition two_turn_document (title : str) : str :=
  lit "# " ++ title ++ two_turn_body.

(** ** The polling loop *)

Section PollingLoop.

Context {H : Host} {A : Type}.
Variable truthy : A -> bool.
Variable fn : M A.
Variable start timeout : Z.
Variable interval : positive.

(** The loop of [waitFor] as the script runs it, from a state to its
    result: the loop ends with [null] when the timeout has elapsed, with
    the value of the condition when that value is truthy; a falsy value
    or an exception of the condition leads to the timer and to the next
    round. *)
Inductive polls : St -> option A -> St -> Prop :=
| polls_timeout : forall s,
    (timeout <= clock s - start)%Z -> polls s None s
| polls_truthy : forall s v s1,
    (clock s - start < timeout)%Z ->
    fn s = (Normal v, s1) -> truthy v = true ->
    polls s (Some v) s1
| polls_falsy : forall s v s1 r s2,
    (clock s - start < timeout)%Z ->
    fn s = (Normal v, s1) -> truthy v = false ->
    polls (sleep interval s1) r s2 ->
    polls s r s2
| polls_thrown : forall s e s1 r s2,
    (clock s - start < timeout)%Z ->
    fn s = (Throw e, s1) ->
    polls (sleep interval s1) r s2 ->
    polls s r s2.

End PollingLoop.

(** ** Frames *)

(** [m] preserves the property [P] of the variables and of the trace. *)
Definition keeps {H : Host} (P : locals -> list event -> Prop) {A} (m : M A)
  : Prop :=
  forall s, P (vars s) (trace s) ->
            P (vars (snd (m s))) (trace (snd (m s))).

(** ** Traces *)

(** The trace records the pushes onto [results], latest first, on top of
    the trace [t0] the extraction started with. *)
Definition tracked (t0 : list event) (v : locals) (t : list event) : Prop :=
  t = List.map EvPush (rev (results v)) ++ t0.

(** Number of calls of [restoreUiState] in a trace. *)
Fixpoint restores (t : list event) : nat :=
  match t with
  | [] => 0
  | EvRestore :: t' => S (restores t')
  | EvPush _ :: t' => restores t'
  end.

(** ** Sample documents and pages *)

(** A user turn matched at three nested levels, then a model turn. *)
Definition nested_turns : node :=
  Elem (lit "main") [] []
    [ Elem (lit "user-query") [] []
        [ Elem (lit "div") [(lit "data-message-role", lit "user")] []
            [ Elem (lit "span") [(lit "data-message-author", lit "user")] []
                [ Text (lit "Hello") ] ] ];
      Elem (lit "model-response") [] [] [ Text (lit "Hi there") ] ].

(** Sample lists. *)
Definition keep_url : str -> completion str := fun href => Normal href.

Definition top_ctx : ctx :=
  {| listDepth := 0; inBlockquote := false; listOrdered := false;
     listIndex := 0 |}.

Definition li_of (children : list node) : node :=
  Elem (lit "li") [] [] children.

Definition two_level_list : node :=
  Elem (lit "ul") [] []
    [ li_of [ Text (lit "a");
              Elem (lit "ul") [] []
                [ li_of [Text (lit "b")]; li_of [Text (lit "c")] ] ];
      li_of [ Text (lit "d") ] ].

(** An item that holds a nested list and no text of its own. *)
Definition bare_item : node :=
  li_of [ Elem (lit "ul") [] [] [ li_of [Text (lit "x")] ] ].

Definition greeting_user : node :=
  Elem (lit "user-query") [] [] [ Text (lit "Hello") ].

Definition greeting_model : node :=
  Elem (lit "model-response") [] []
    [ Elem (lit "p") [] [] [ Text (lit "Hi there") ];
      Elem (lit "button") [] [] [ Text (lit "Copy") ] ].

Definition greeting_main : node :=
  Elem (lit "main") [] [] [ greeting_user; greeting_model ].

Definition greeting_page : page :=
  {| hostname := lit "gemini.google.com";
     documentTitle := lit "Gemini - Greeting";
     documentElement :=
       Elem (lit "html") [] []
         [ Elem (lit "head") [] [] [];
           Elem (lit "body") [] [] [ greeting_main ] ] |}.

(** A page that does not change: every query finds nothing. *)
Definition still_host (pg : page) : Host :=
  {| W := unit; Element := unit; Num := Z;
     elapsed := fun _ => 0%N; late := fun _ => 0%N;
     document := fun _ => pg;
     captureUiState := fun _ w =>
       (Normal {| sidebarWasOpen := false; activeSidebarTabLabel := None;
                  hadMonacoOpen := false; currentCanvasTitle := None;
                  windowScroll := Some (0%Z, 0%Z);
                  sidePanelScrollTop := None; fileListScrollTop := None;
                  monacoScroll := None; immersivePanelOpen := false |}, w);
     getMonacoModelContent := fun w => (Normal None, w);
     readMonacoDomText := fun w => (Normal None, w);
     canvasTitleText := fun w => (Normal None, w);
     listCreatedFileTitles := fun _ w => (Normal [], w);
     openFileByTitle := fun _ _ w => (Normal false, w);
     document_querySelector := fun _ w => (Normal None, w);
     closestSidePanel := fun _ w => (Normal None, w);
     ensureCodeTabSelected := fun _ w => (Normal tt, w);
     getCanvasSidebarItems := fun _ w => (Normal tt, w);
     tryClickOpenButton := fun _ w => (Normal false, w);
     checkForCanvasReference := fun _ w => (Normal false, w);
     click := fun _ w => (Normal tt, w);
     window_scrollTo := fun _ _ w => (Normal tt, w);
     findSidePanel := fun w => (Normal None, w);
     isElementVisible := fun _ w => (Normal false, w);
     findSidebarToggleButton := fun w => (Normal None, w);
     findImmersivePanel := fun w => (Normal None, w);
     findCloseButton := fun _ w => (Normal None, w);
     clickBackButton := fun _ w => (Normal false, w);
     clickFilesTab := fun _ w => (Normal false, w);
     findCreatedSectionContainer := fun _ w => (Normal None, w);
     findTabByLabel := fun _ _ w => (Normal None, w);
     set_scrollTop := fun _ _ w => (Normal tt, w);
     set_scrollLeft := fun _ _ w => (Normal tt, w);
     newURL := fun _ href => Normal href |}.

Definition start_state (H : Host) (w : @W H) : @St H :=
  {| host := w; clock := 0;
     vars := {| results := []; processedTitles := [];
                everOpenedEditor := false |};
     trace := [] |}.

(** The editor shows the file opened last; its model is readable from
    the third read after the opening (the first read throws, the second
    finds nothing).  Opening a file hides the list unless the page is
    [sticky].  Scrolling the window throws. *)
Record editor : Type := {
  opened : option str;
  list_shown : bool;
  reads : nat
}.

Definition closed_snapshot : UISnapshot Z :=
  {| sidebarWasOpen := false; activeSidebarTabLabel := None;
     hadMonacoOpen := false; currentCanvasTitle := None;
     windowScroll := Some (0%Z, 0%Z);
     sidePanelScrollTop := None; fileListScrollTop := None;
     monacoScroll := None; immersivePanelOpen := false |}.

Definition editor_host (titles : list str) (readable : str -> bool)
  (sticky : bool) : Host :=
  {| W := editor; Element := unit; Num := Z;
     elapsed := fun _ => 0%N; late := fun _ => 0%N;
     document := fun _ => greeting_page;
     captureUiState := fun _ w => (Normal closed_snapshot, w);
     getMonacoModelContent := fun w =>
       (match opened w with
        | Some t =>
            if readable t then
              match reads w with
              | 0 => Throw (Exn (lit "model is disposed"))
              | 1 => Normal None
              | _ => Normal (Some (lit "print(1)", []))
              end
            else Normal None
        | None => Normal None
        end,
        {| opened := opened w; list_shown := list_shown w;
           reads := S (reads w) |});
     readMonacoDomText := fun w => (Normal None, w);
     canvasTitleText := fun w => (Normal None, w);
     listCreatedFileTitles := fun _ w => (Normal titles, w);
     openFileByTitle := fun _ t w =>
       if has_title t titles
       then (Normal true,
             {| opened := Some t; list_shown := sticky; reads := 0 |})
       else (Normal false, w);
     document_querySelector := fun _ w => (Normal None, w);
     closestSidePanel := fun _ w => (Normal None, w);
     ensureCodeTabSelected := fun _ w => (Normal tt, w);
     getCanvasSidebarItems := fun _ w => (Normal tt, w);
     tryClickOpenButton := fun _ w => (Normal false, w);
     checkForCanvasReference := fun _ w => (Normal false, w);
     click := fun _ w => (Normal tt, w);
     window_scrollTo := fun _ _ w =>
       (Throw (Exn (lit "scrollTo is not a function")), w);
     findSidePanel := fun w => (Normal None, w);
     isElementVisible := fun _ w => (Normal true, w);
     findSidebarToggleButton := fun w => (Normal None, w);
     findImmersivePanel := fun w => (Normal None, w);
     findCloseButton := fun _ w => (Normal None, w);
     clickBackButton := fun _ w => (Normal false, w);
     clickFilesTab := fun _ w => (Normal false, w);
     findCreatedSectionContainer := fun _ w =>
       (Normal (if list_shown w then Some tt else None), w);
     findTabByLabel := fun _ _ w => (Normal None, w);
     set_scrollTop := fun _ _ w => (Normal tt, w);
     set_scrollLeft := fun _ _ w => (Normal tt, w);
     newURL := fun _ href => Normal href |}.

Definition list_page : editor :=
  {| opened := None; list_shown := true; reads := 0 |}.

(** Two readable files; the list disappears once a file is open. *)
Definition vanishing_host : Host :=
  editor_host [lit "a.py"; lit "b.js"] (fun _ => true) false.

(** A file that never shows its content, then a readable one. *)
Definition flaky_host : Host :=
  editor_host [lit "bad"; lit "a.py"]
    (fun t => negb (Js.eqb t (lit "bad"))) true.

Definition canvas_of_a : str :=
  lit "## Canvas: a.py" ++ [LF; LF] ++ lit "```python" ++ [LF]
    ++ lit "print(1)" ++ [LF] ++ lit "```".

(** ** The pre-pass *)

(** The elements that [cleanup] detaches: those that one of its selectors
    matches, the math scripts among them apart, and the scripts that are
    not math scripts. *)
Definition removed (el : node) : bool :=
  matches removeSelectors el && negb (tag_is "script" el && math_type el)
  || matches [[TagIs "script"]] el && negb (math_type el).

(** A test that reads the tag and the attributes of an element only. *)
Definition shallow (d : node -> bool) : Prop :=
  forall t a disp ch ch', d (Elem t a disp ch) = d (Elem t a disp ch').

(** The nodes under the children [cs] of the node at [p], the first of
    them being the child of index [i]. *)
Fixpoint walk_children (p : path) (i : nat) (cs : list node) : list handle :=
  match cs with
  | [] => []
  | c :: cs' => walk (p ++ [i]) c ++ walk_children p (S i) cs'
  end.

(** ** Canvas sections *)

(** The section that [getCanvasContent] makes of a file: its title, then
    its code between fences of three backticks. *)
Definition canvas_section (title lang code : str) : str :=
  lit "## Canvas: " ++ title ++ [LF; LF] ++ ticks 3 ++ lang ++ [LF] ++ code
    ++ [LF] ++ ticks 3.

(** ** Results *)

(** From a state that satisfies [P], every value that [m] returns
    satisfies [Q] with the state [m] ends in. *)
Definition triple {H : Host} {A} (P : St -> Prop) (m : M A)
  (Q : A -> St -> Prop) : Prop :=
  forall s a s', P s -> m s = (Normal a, s') -> Q a s'.

(** What [getCanvasContent] returns: [null], or the section of a code
    that is not empty, under the fallback title when there is one. *)
Definition section_or_null (titleFallback : option str) (o : option str)
  : Prop :=
  is_content o = is_some o
  /\ match o with
     | None => True
     | Some content =>
         exists title lang code,
           content = canvas_section title lang code
           /\ code <> []
           /\ (forall t, nonempty titleFallback = Some t -> title = t)
     end.

(** ** Growth of the results *)

(** [m] only appends to [results], and at most [n] sections. *)
Definition grows {H : Host} (n : nat) {A} (m : M A) : Prop :=
  forall s, exists extra,
    results (vars (snd (m s))) = results (vars s) ++ extra
    /\ List.length extra <= n.

(** A page on which the snapshot cannot be taken. *)
Definition unreadable_host (pg : page) : Host :=
  {| W := unit; Element := unit; Num := Z;
     elapsed := fun _ => 0%N; late := fun _ => 0%N;
     document := fun _ => pg;
     captureUiState := fun _ w =>
       (Throw (Exn (lit "getComputedStyle is not a function")), w);
     getMonacoModelContent := fun w => (Normal None, w);
     readMonacoDomText := fun w => (Normal None, w);
     canvasTitleText := fun w => (Normal None, w);
     listCreatedFileTitles := fun _ w => (Normal [], w);
     openFileByTitle := fun _ _ w => (Normal false, w);
     document_querySelector := fun _ w => (Normal None, w);
     closestSidePanel := fun _ w => (Normal None, w);
     ensureCodeTabSelected := fun _ w => (Normal tt, w);
     getCanvasSidebarItems := fun _ w => (Normal tt, w);
     tryClickOpenButton := fun _ w => (Normal false, w);
     checkForCanvasReference := fun _ w => (Normal false, w);
     click := fun _ w => (Normal tt, w);
     window_scrollTo := fun _ _ w => (Normal tt, w);
     findSidePanel := fun w => (Normal None, w);
     isElementVisible := fun _ w => (Normal false, w);
     findSidebarToggleButton := fun w => (Normal None, w);
     findImmersivePanel := fun w => (Normal None, w);
     findCloseButton := fun _ w => (Normal None, w);
     clickBackButton := fun _ w => (Normal false, w);
     clickFilesTab := fun _ w => (Normal false, w);
     findCreatedSectionContainer := fun _ w => (Normal None, w);
     findTabByLabel := fun _ _ w => (Normal None, w);
     set_scrollTop := fun _ _ w => (Normal tt, w);
     set_scrollLeft := fun _ _ w => (Normal tt, w);
     newURL := fun _ href => Normal href |}.

(** ** Running text *)

(** The text of a paragraph, of a heading or of an emphasis: what the
    children render to, cleaned as a line and trimmed. *)
Definition inline_text (newURL : str -> completion str) (el : node) (c : ctx)
  : str :=
  trim (cleanupMarkdownInline (convertChildren newURL el c)).

(** Two contexts that [convertNode] does not tell apart, and two that
    [convertListItem] does not tell apart. *)
Definition same_depth (c c' : ctx) : Prop := listDepth c = listDepth c'.

Definition same_item (c c' : ctx) : Prop :=
  listDepth c = listDepth c' /\ listOrdered c = listOrdered c'
  /\ listIndex c = listIndex c'.

(** ** The longest model *)

(** The number of lines that [getMonacoModelContent] counts for a model
    whose [getLineCount] does not throw. *)
Definition lineCount (m : Monaco.model) : N :=
  match Monaco.getLineCount m with
  | Some (Normal n) => n
  | _ => 0%N
  end.

Definition counts (m : Monaco.model) : Prop :=
  forall e, Monaco.getLineCount m <> Some (Throw e).

(** [m], at index [i], is the first of the models of [l] that has the
    greatest number of lines. *)
Definition first_longest (l : list Monaco.model) (i : nat) (m : Monaco.model)
  : Prop :=
  nth_error l i = Some m
  /\ (forall j m', nth_error l j = Some m' -> (lineCount m' <= lineCount m)%N)
  /\ (forall j m', j < i -> nth_error l j = Some m' ->
                   (lineCount m' < lineCount m)%N).

(** What the script returns for the model it has chosen. *)
Definition content_of (m : Monaco.model) : option (str * str) :=
  match Monaco.getValue m with
  | Some (Normal code) =>
      match Monaco.getLanguageId m with
      | Some (Normal id) =>
          Some (code, first_nonempty id (or_empty (Monaco.languageIdentifier m)))
      | Some (Throw _) => None
      | None => Some (code, or_empty (Monaco.languageIdentifier m))
      end
  | _ => None
  end.

(** ** Lines without repetition *)

(** No line is followed by an equal line. *)
Fixpoint no_repeat (l : list str) : Prop :=
  match l with
  | a :: tl => match tl with
               | b :: _ => a <> b
               | [] => True
               end /\ no_repeat tl
  | [] => True
  end.

(** An editor that displays [visible] lines of a file of three lines,
    from the line at a three-hundredth of the scroll offset; the offset
    cannot exceed 600. *)
Definition sample_editor (visible : nat) : View.Editor :=
  {| View.E := Z; View.Offset := Z; View.of_Z := fun z => z;
     View.viewLines := fun w =>
       firstn visible
         (skipn (Z.to_nat (w / 300)) [lit "a  "; lit "b"; lit "c"]);
     View.scrollable := fun _ => true;
     View.scrollTop := fun w => w;
     View.scrollHeight := fun _ => 900%Z;
     View.clientHeight := fun _ => 300%Z;
     View.set_scrollTop := fun v _ => Z.max 0 (Z.min v 600) |}.

(** A side panel that lists three chips: the second one carries two
    titles, the third one repeats the title of the first. *)
Definition chip_of (titles : list str) : node :=
  Elem (lit "sidebar-immersive-chip") [] []
    [ Elem (lit "div") [(lit "class", lit "container")] []
        (List.map
           (fun t => Elem (lit "span") [(lit "class", lit "immersive-title")]
                       [] [Text t])
           titles) ].

Definition files_container : node :=
  Elem (lit "div") [(lit "class", lit "source-container")] []
    [ chip_of [lit " a.py "]; chip_of [lit "b.js"; lit "old.js"];
      chip_of [lit "a.py"]; chip_of [[SP]] ].

Definition sidebar_document : node :=
  Elem (lit "html") [] [] [ Elem (lit "body") [] [] [ files_container ] ].

Definition sidebar_container (root : handle) : option handle :=
  Some ([0; 0], files_container).

(** ** Records of the extraction *)

(** A property of the variables that the pushes onto [results], the
    additions to [processedTitles] and the changes of [everOpenedEditor]
    preserve. *)
Definition stable (P : locals -> list event -> Prop) : Prop :=
  (forall v t content,
     P v t ->
     P {| results := results v ++ [content];
          processedTitles := processedTitles v;
          everOpenedEditor := everOpenedEditor v |} (EvPush content :: t))
  /\ (forall v t title,
        P v t ->
        P {| results := results v;
             processedTitles :=
               if has_title title (processedTitles v) then processedTitles v
               else processedTitles v ++ [title];
             everOpenedEditor := everOpenedEditor v |} t)
  /\ (forall v t b,
        P v t ->
        P {| results := results v; processedTitles := processedTitles v;
             everOpenedEditor := b |} t).

(** [content] was pushed onto [results] after the sections of [before],
    and [title] is processed. *)
Definition recorded (before : list str) (content title : str) (v : locals)
  (t : list event) : Prop :=
  (exists rest, results v = before ++ content :: rest)
  /\ has_title title (processedTitles v) = true.


(** The editor shows [a.py], readable at once, beside the list of files. *)
Definition showing_a : @St vanishing_host :=
  @Build_St vanishing_host
    {| opened := Some (lit "a.py"); list_shown := true; reads := 2 |}
    0
    {| results := []; processedTitles := []; everOpenedEditor := false |}
    [].


(** ** The container of the files *)

(** The handle names an element of the document. *)
Definition valid (doc : node) (h : handle) : Prop :=
  Sidebar.node_at doc (fst h) = Some (snd h).

(** The scope is the document or an element of it. *)
Definition valid_scope (doc : node) (sc : Created.scope) : Prop :=
  match sc with
  | Created.Document => True
  | Created.Element h => valid doc h
  end.

(** A header, a paragraph and the container of a file, then a second
    container after a section. *)
Definition headed_body : node :=
  Elem (lit "body") [] [] [
    Elem (lit "div") [(lit "class", lit "gds-title-s")] []
      [Text (lit " Files ")];
    Text (lit "x");
    Elem (lit "p") [] [] [];
    Elem (lit "ul") [(lit "class", lit "source-container")] []
      [Text (lit "a.py")];
    Elem (lit "section") [] [] [];
    Elem (lit "div") [(lit "class", lit "source-container")] [] [] ].

Definition headed_document : node :=
  Elem (lit "html") [] [] [ headed_body ].

(** * Properties *)

Unset Implicit Arguments.

(** ** Replacement and trimming *)

Section ReplaceFacts.

Variable m : matcher.
Variable rep : str.

Lemma replace_go_skipn : forall s n,
  replace_go m rep n s = replace_all m rep (skipn n s).
Proof.
  induction s as [|c tl IH]; intros [|n]; simpl; auto.
Qed.

Lemma replace_all_nil : replace_all m rep [] = [].
Proof. reflexivity. Qed.

Lemma replace_all_hit : forall c tl n,
  m (c :: tl) = Some (S n) ->
  replace_all m rep (c :: tl) = rep ++ replace_all m rep (skipn n tl).
Proof.
  intros c tl n Hm. unfold replace_all at 1. simpl. rewrite Hm.
  now rewrite replace_go_skipn.
Qed.

Lemma replace_all_miss : forall c tl,
  m (c :: tl) = None ->
  replace_all m rep (c :: tl) = c :: replace_all m rep tl.
Proof.
  intros c tl Hm. unfold replace_all. simpl. now rewrite Hm.
Qed.

(** Characters of the result come from the text or from the
    replacement. *)
Lemma replace_go_Forall : forall (P : char -> Prop) s n,
  Forall P rep -> Forall P s -> Forall P (replace_go m rep n s).
Proof.
  intros P s. induction s as [|c tl IH]; intros n Hrep Hs; simpl; auto.
  inversion Hs; subst.
  destruct n as [|n]; auto.
  destruct (m (c :: tl)) as [[|k]|]; auto.
  apply Forall_app; auto.
Qed.

(** A text in which the pattern matches nowhere is left as it is. *)
Lemma replace_all_unmatched : forall s,
  unmatched m s -> replace_all m rep s = s.
Proof.
  induction s as [|c tl IH]; intros Hs; auto.
  destruct Hs as [Hm Htl].
  rewrite replace_all_miss by assumption. now rewrite IH.
Qed.

End ReplaceFacts.

Lemma skipn_length_le {A} : forall n (l : list A),
  List.length (skipn n l) <= List.length l.
Proof. intros. rewrite length_skipn. lia. Qed.

(** Induction on texts along their suffixes. *)
Lemma suffix_induction (P : str -> Prop) :
  P [] ->
  (forall c tl, (forall n, P (skipn n tl)) -> P (c :: tl)) ->
  forall s, P s.
Proof.
  intros Hnil Hcons s.
  assert (H : forall k s, List.length s <= k -> P s).
  { induction k as [|k IH]; intros [|c tl] Hlen; simpl in Hlen; auto; try lia.
    apply Hcons. intros n. apply IH.
    pose proof (skipn_length_le n tl). lia. }
  apply (H (List.length s)). lia.
Qed.

(** *** Texts without carriage return *)

Lemma replace_cr_no_cr : forall s, no_cr (replace_all re_cr [LF] s).
Proof.
  induction s as [|c tl IH]; [constructor|].
  destruct (N.eqb_spec c CR) as [E|E].
  - rewrite (@replace_all_hit re_cr [LF] c tl 0).
    + simpl. constructor; [discriminate | exact IH].
    + simpl. subst c. reflexivity.
  - rewrite replace_all_miss.
    + constructor; assumption.
    + simpl. apply N.eqb_neq in E. now rewrite E.
Qed.

Lemma no_cr_replace : forall m rep s,
  no_cr rep -> no_cr s -> no_cr (replace_all m rep s).
Proof. intros. now apply replace_go_Forall. Qed.

Lemma no_cr_unmatched_crlf : forall s, no_cr s -> unmatched re_crlf s.
Proof.
  induction 1 as [|c tl Hc Htl IH]; simpl; auto.
  split; auto.
  destruct tl as [|d tl']; auto.
  apply N.eqb_neq in Hc. now rewrite Hc.
Qed.

Lemma no_cr_unmatched_cr : forall s, no_cr s -> unmatched re_cr s.
Proof.
  induction 1 as [|c tl Hc Htl IH]; simpl; auto.
  split; auto.
  apply N.eqb_neq in Hc. now rewrite Hc.
Qed.

(** *** Texts without a blank before a line feed *)

Lemma is_blank_not_lf : forall c, is_blank c = true -> is_lf c = false.
Proof.
  intros c. unfold is_blank, is_lf, SP, TAB, LF.
  destruct (N.eqb_spec c 32), (N.eqb_spec c 9); subst; simpl; try discriminate;
    reflexivity.
Qed.

Lemma re_blanks_lf_cons : forall c tl,
  is_blank c = true ->
  re_blanks_lf (c :: tl) =
  match re_blanks_lf tl with
  | Some n => Some (S n)
  | None => if hd_is_lf tl then Some 2 else None
  end.
Proof.
  intros c tl Hc. unfold re_blanks_lf. cbn [span_len]. rewrite Hc.
  cbn [nth_error].
  destruct tl as [|d tl']; [reflexivity|].
  cbn [span_len hd_is_lf]. destruct (is_blank d) eqn:Hd.
  - rewrite (is_blank_not_lf _ Hd). cbn [nth_error].
    destruct (nth_error tl' (span_len is_blank tl')) as [x|]; auto.
    destruct (is_lf x); auto.
  - cbn [nth_error]. destruct (is_lf d); auto.
Qed.

Lemma re_blanks_lf_not_blank : forall c tl,
  is_blank c = false -> re_blanks_lf (c :: tl) = None.
Proof. intros c tl Hc. unfold re_blanks_lf. simpl. now rewrite Hc. Qed.

Lemma blank_lf_free_unmatched : forall s,
  blank_lf_free s -> unmatched re_blanks_lf s.
Proof.
  induction s as [|c tl IH]; simpl; auto.
  intros [Hc Htl]. specialize (IH Htl). split; auto.
  destruct (is_blank c) eqn:Eb.
  - rewrite re_blanks_lf_cons by assumption.
    simpl in Hc. rewrite Hc.
    destruct tl as [|d tl']; auto.
    destruct IH as [Hm _]. now rewrite Hm.
  - now apply re_blanks_lf_not_blank.
Qed.

Lemma blank_lf_free_skipn : forall n s,
  blank_lf_free s -> blank_lf_free (skipn n s).
Proof.
  induction n as [|n IH]; intros [|c tl]; simpl; auto.
  intros [_ H]. now apply IH.
Qed.

Lemma blank_lf_free_app_l : forall a b,
  blank_lf_free (a ++ b) -> blank_lf_free a.
Proof.
  induction a as [|c a IH]; simpl; auto.
  intros b [Hc Hab]. split; [|now apply IH with b].
  destruct a; simpl in *; auto.
  now rewrite andb_false_r.
Qed.

Lemma hd_replace_blanks : forall c tl,
  is_blank c = true ->
  re_blanks_lf (c :: tl) = None ->
  hd_is_lf (replace_all re_blanks_lf [LF] tl) = false.
Proof.
  intros c tl Hc Hm. rewrite re_blanks_lf_cons in Hm by assumption.
  destruct (re_blanks_lf tl) eqn:Et; [discriminate|].
  destruct (hd_is_lf tl) eqn:Eh; [discriminate|].
  destruct tl as [|d tl']; auto.
  rewrite replace_all_miss by assumption. exact Eh.
Qed.

Lemma replace_blanks_free : forall s,
  blank_lf_free (replace_all re_blanks_lf [LF] s).
Proof.
  apply suffix_induction; [exact I|].
  intros c tl IH.
  destruct (re_blanks_lf (c :: tl)) as [[|n]|] eqn:Em.
  - exfalso. unfold re_blanks_lf in Em.
    destruct (span_len is_blank (c :: tl)); [discriminate|].
    destruct (nth_error _ _) as [x|]; [|discriminate].
    destruct (is_lf x); discriminate.
  - rewrite (replace_all_hit _ _ _ _ _ Em). simpl. split; auto.
  - rewrite replace_all_miss by assumption. simpl. split.
    + destruct (is_blank c) eqn:Eb; auto.
      simpl. now apply hd_replace_blanks with c.
    + apply (IH 0).
Qed.

(** *** Texts without a long run of line feeds *)

Lemma re_lf_min_short : forall k s,
  span_len is_lf s < k -> re_lf_min k s = None.
Proof.
  intros k s Hlt. unfold re_lf_min.
  destruct (Nat.leb_spec k (span_len is_lf s)); [lia | reflexivity].
Qed.

Lemma re_lf_min_hit : forall k s n,
  re_lf_min k s = Some n -> n = span_len is_lf s /\ k <= n /\ 1 <= n.
Proof.
  intros k s n. unfold re_lf_min.
  destruct (Nat.leb_spec k (span_len is_lf s));
    destruct (Nat.leb_spec 1 (span_len is_lf s)); simpl; try discriminate.
  intros E. injection E as <-. auto.
Qed.

Lemma lf_runs_below_unmatched : forall k s,
  lf_runs_below k s -> unmatched (re_lf_min k) s.
Proof.
  induction s as [|c tl IH]; simpl; auto.
  intros [Hlt Htl]. split; auto. now apply re_lf_min_short.
Qed.

Lemma span_len_skipn : forall p s,
  span_len p (skipn (span_len p s) s) = 0.
Proof.
  induction s as [|c tl IH]; simpl; auto.
  destruct (p c) eqn:E; simpl; auto. now rewrite E.
Qed.

Lemma span_len_lfs_app : forall i s,
  span_len is_lf (lfs i ++ s) = i + span_len is_lf s.
Proof. induction i as [|i IH]; intros s; simpl; auto. Qed.

Lemma hd_is_lf_span : forall s, hd_is_lf s = false <-> span_len is_lf s = 0.
Proof.
  intros [|c tl]; simpl; [tauto|].
  destruct (is_lf c); split; intros; auto; discriminate.
Qed.

Section LineFeedRuns.

Variable j : nat.

Lemma squeeze_span : forall s,
  span_len is_lf s < (S (S j)) -> span_len is_lf (squeeze j s) = span_len is_lf s.
Proof.
  induction s as [|c tl IH]; intros Hlt; auto.
  unfold squeeze. rewrite replace_all_miss by now apply re_lf_min_short.
  simpl in *. destruct (is_lf c); auto.
  f_equal. apply IH. lia.
Qed.

Lemma squeeze_hd : forall s, hd_is_lf (squeeze j s) = hd_is_lf s.
Proof.
  intros [|c tl]; auto.
  unfold squeeze.
  destruct (re_lf_min (S (S j)) (c :: tl)) as [[|n]|] eqn:Em.
  - apply re_lf_min_hit in Em. lia.
  - rewrite (replace_all_hit _ _ _ _ _ Em).
    apply re_lf_min_hit in Em. destruct Em as [Hn _].
    simpl in Hn. simpl. destruct (is_lf c); [reflexivity | discriminate].
  - now rewrite replace_all_miss.
Qed.

Lemma lfs_app_below : forall i s,
  i < (S (S j)) -> span_len is_lf s = 0 -> lf_runs_below (S (S j)) s ->
  lf_runs_below (S (S j)) (lfs i ++ s).
Proof.
  induction i as [|i IH]; intros s Hi Hs Hbelow; simpl; auto.
  split; [|apply IH; auto; lia].
  change (LF :: List.repeat LF i ++ s) with (lfs (S i) ++ s).
  rewrite span_len_lfs_app. lia.
Qed.

Lemma squeeze_below : forall s, lf_runs_below (S (S j)) (squeeze j s).
Proof.
  apply suffix_induction; [exact I|].
  intros c tl IH. unfold squeeze.
  destruct (re_lf_min (S (S j)) (c :: tl)) as [[|n]|] eqn:Em.
  - apply re_lf_min_hit in Em. lia.
  - rewrite (replace_all_hit _ _ _ _ _ Em).
    apply re_lf_min_hit in Em. destruct Em as [Hn _].
    apply lfs_app_below; [lia | | apply IH].
    fold (squeeze j (skipn n tl)). rewrite squeeze_span.
    + change (skipn n tl) with (skipn (S n) (c :: tl)).
      rewrite Hn. apply span_len_skipn.
    + change (skipn n tl) with (skipn (S n) (c :: tl)).
      rewrite Hn, span_len_skipn. lia.
  - rewrite replace_all_miss by assumption. fold (squeeze j tl).
    assert (Hlt : span_len is_lf (c :: tl) < (S (S j))).
    { unfold re_lf_min in Em.
      destruct (Nat.leb_spec (S (S j)) (span_len is_lf (c :: tl))); auto.
      destruct (Nat.leb_spec 1 (span_len is_lf (c :: tl))); [discriminate|].
      lia. }
    split; [|apply (IH 0)].
    simpl in *. destruct (is_lf c); [|lia].
    rewrite squeeze_span; lia.
Qed.

Lemma blank_lf_free_lfs_app : forall i s,
  blank_lf_free s -> blank_lf_free (lfs i ++ s).
Proof. induction i as [|i IH]; intros s Hs; simpl; auto. Qed.

Lemma squeeze_blank_lf_free : forall s,
  blank_lf_free s -> blank_lf_free (squeeze j s).
Proof.
  apply (suffix_induction
           (fun s => blank_lf_free s -> blank_lf_free (squeeze j s)));
    [auto|].
  intros c tl IH Hfree. unfold squeeze.
  destruct (re_lf_min (S (S j)) (c :: tl)) as [[|n]|] eqn:Em.
  - apply re_lf_min_hit in Em. lia.
  - rewrite (replace_all_hit _ _ _ _ _ Em).
    apply blank_lf_free_lfs_app. apply (IH n).
    destruct Hfree as [_ Htl]. now apply blank_lf_free_skipn.
  - rewrite replace_all_miss by assumption. fold (squeeze j tl).
    destruct Hfree as [Hc Htl]. split; [|apply (IH 0 Htl)].
    now rewrite squeeze_hd.
Qed.

End LineFeedRuns.

Lemma lf_runs_below_app_l : forall k a b,
  lf_runs_below k (a ++ b) -> lf_runs_below k a.
Proof.
  induction a as [|c a IH]; simpl; auto.
  intros b [Hlt Hab]. split; [|now apply IH with b].
  assert (Hle : forall x y, span_len is_lf x <= span_len is_lf (x ++ y)).
  { induction x as [|d x IHx]; intros y; simpl; [lia|].
    destruct (is_lf d); [specialize (IHx y); lia | lia]. }
  specialize (Hle (c :: a) b). simpl in Hle, Hlt |- *. lia.
Qed.

Lemma lf_runs_below_app_r : forall k a b,
  lf_runs_below k (a ++ b) -> lf_runs_below k b.
Proof.
  induction a as [|c a IH]; simpl; auto.
  intros b [_ Hab]. now apply IH.
Qed.

Lemma blank_lf_free_app_r : forall a b,
  blank_lf_free (a ++ b) -> blank_lf_free b.
Proof.
  induction a as [|c a IH]; simpl; auto.
  intros b [_ Hab]. now apply IH.
Qed.

(** *** Trimming *)

Lemma dropWhile_suffix : forall p s, exists a, s = a ++ dropWhile p s.
Proof.
  induction s as [|c tl [a Ha]]; simpl.
  - now exists [].
  - destruct (p c).
    + exists (c :: a). simpl. now f_equal.
    + now exists [].
Qed.

Lemma trimEnd_prefix : forall s, exists b, s = trimEnd s ++ b.
Proof.
  intros s. unfold trimEnd.
  destruct (dropWhile_suffix is_space (rev s)) as [a Ha].
  exists (rev a).
  rewrite <- rev_app_distr, <- Ha. now rewrite rev_involutive.
Qed.

Lemma trim_infix : forall s, exists a b, s = a ++ trim s ++ b.
Proof.
  intros s. unfold trim, trimStart.
  destruct (dropWhile_suffix is_space s) as [a Ha].
  destruct (trimEnd_prefix (dropWhile is_space s)) as [b Hb].
  exists a, b. now rewrite <- Hb.
Qed.

Lemma dropWhile_idem : forall p s,
  dropWhile p (dropWhile p s) = dropWhile p s.
Proof.
  induction s as [|c tl IH]; simpl; auto.
  destruct (p c) eqn:E; auto. simpl. now rewrite E.
Qed.

Lemma dropWhile_snoc : forall p l c,
  p c = false -> dropWhile p (l ++ [c]) = dropWhile p l ++ [c].
Proof.
  induction l as [|d l IH]; intros c Hc; simpl.
  - now rewrite Hc.
  - destruct (p d); auto.
Qed.

Lemma trimEnd_cons : forall c tl,
  is_space c = false -> trimEnd (c :: tl) = c :: trimEnd tl.
Proof.
  intros c tl Hc. unfold trimEnd. simpl.
  rewrite dropWhile_snoc by assumption.
  now rewrite rev_app_distr.
Qed.

Lemma trimEnd_idem : forall s, trimEnd (trimEnd s) = trimEnd s.
Proof.
  intros s. unfold trimEnd. now rewrite rev_involutive, dropWhile_idem.
Qed.

Lemma dropWhile_length : forall p s,
  List.length (dropWhile p s) <= List.length s.
Proof.
  induction s as [|c tl IH]; simpl; auto.
  destruct (p c); simpl; lia.
Qed.

Lemma trimStart_fixed_hd : forall s,
  trimStart s = s -> s = [] \/ exists c tl, s = c :: tl /\ is_space c = false.
Proof.
  intros [|c tl] Hs; auto. right. exists c, tl. split; auto.
  unfold trimStart in Hs. simpl in Hs.
  destruct (is_space c); auto.
  pose proof (dropWhile_length is_space tl) as Hlen.
  rewrite Hs in Hlen. simpl in Hlen. lia.
Qed.

Lemma trimStart_trimEnd : forall s,
  trimStart s = s -> trimStart (trimEnd s) = trimEnd s.
Proof.
  intros s Hs. destruct (trimStart_fixed_hd s Hs) as [->|(c & tl & -> & Hc)].
  - reflexivity.
  - rewrite trimEnd_cons by assumption.
    unfold trimStart. simpl. now rewrite Hc.
Qed.

Lemma trimStart_trim : forall s, trimStart (trim s) = trim s.
Proof.
  intros s. unfold trim. apply trimStart_trimEnd.
  unfold trimStart. apply dropWhile_idem.
Qed.

Lemma trim_idem : forall s, trim (trim s) = trim s.
Proof.
  intros s. unfold trim at 1. rewrite trimStart_trim.
  unfold trim. apply trimEnd_idem.
Qed.

(** *** Texts that the normalisation leaves alone *)

Lemma no_cr_trim : forall s, no_cr s -> no_cr (trim s).
Proof.
  intros s Hs. destruct (trim_infix s) as (a & b & E).
  unfold no_cr in *. rewrite E in Hs.
  apply Forall_app in Hs. destruct Hs as [_ Hs].
  now apply Forall_app in Hs.
Qed.

Lemma blank_lf_free_trim : forall s, blank_lf_free s -> blank_lf_free (trim s).
Proof.
  intros s Hs. destruct (trim_infix s) as (a & b & E).
  rewrite E in Hs. apply blank_lf_free_app_r in Hs.
  now apply blank_lf_free_app_l in Hs.
Qed.

Lemma lf_runs_below_trim : forall k s,
  lf_runs_below k s -> lf_runs_below k (trim s).
Proof.
  intros k s Hs. destruct (trim_infix s) as (a & b & E).
  rewrite E in Hs. apply lf_runs_below_app_r in Hs.
  now apply lf_runs_below_app_l in Hs.
Qed.

(** A text without carriage return, without blank before a line feed and
    without three line feeds in a row is only trimmed. *)
Lemma cleanupMarkdown_clean : forall s,
  no_cr s -> blank_lf_free s -> lf_runs_below 3 s ->
  cleanupMarkdown s = trim s.
Proof.
  intros s Hcr Hblank Hruns. unfold cleanupMarkdown.
  rewrite (replace_all_unmatched re_crlf) by now apply no_cr_unmatched_crlf.
  rewrite (replace_all_unmatched re_cr) by now apply no_cr_unmatched_cr.
  rewrite (replace_all_unmatched re_blanks_lf)
    by now apply blank_lf_free_unmatched.
  rewrite (replace_all_unmatched (re_lf_min 3))
    by now apply lf_runs_below_unmatched.
  reflexivity.
Qed.

Lemma cleanupMarkdown_is_clean : forall s,
  no_cr (cleanupMarkdown s) /\ blank_lf_free (cleanupMarkdown s)
  /\ lf_runs_below 3 (cleanupMarkdown s).
Proof.
  intros s. unfold cleanupMarkdown.
  set (t := replace_all re_cr [LF] (replace_all re_crlf [LF] s)).
  assert (Ht : no_cr t) by apply replace_cr_no_cr.
  split; [|split].
  - apply no_cr_trim. apply no_cr_replace.
    + repeat constructor; discriminate.
    + apply no_cr_replace; auto. repeat constructor; discriminate.
  - apply blank_lf_free_trim. apply (squeeze_blank_lf_free 1).
    apply replace_blanks_free.
  - apply lf_runs_below_trim. apply (squeeze_below 1).
Qed.

Lemma cleanupMarkdownInline_clean : forall s,
  blank_lf_free s -> lf_runs_below 2 s -> cleanupMarkdownInline s = s.
Proof.
  intros s Hblank Hruns. unfold cleanupMarkdownInline.
  rewrite (replace_all_unmatched re_blanks_lf)
    by now apply blank_lf_free_unmatched.
  now apply replace_all_unmatched, lf_runs_below_unmatched.
Qed.

(** C2.  The whitespace normalisation is idempotent: [cleanupMarkdown] and
    the inline pass [cleanupMarkdownInline] give, applied twice to any
    text, what they give applied once. *)
Theorem cleanup_idempotent : forall s,
  cleanupMarkdown (cleanupMarkdown s) = cleanupMarkdown s
  /\ cleanupMarkdownInline (cleanupMarkdownInline s) = cleanupMarkdownInline s.
Proof.
  intros s. split.
  - destruct (cleanupMarkdown_is_clean s) as (Hcr & Hblank & Hruns).
    rewrite cleanupMarkdown_clean by assumption.
    unfold cleanupMarkdown. apply trim_idem.
  - apply cleanupMarkdownInline_clean.
    + apply (squeeze_blank_lf_free 0), replace_blanks_free.
    + apply (squeeze_below 0).
Qed.

(** ** Fences *)

Lemma match_go_skipn : forall m s n,
  match_go m n s = match_all m (skipn n s).
Proof.
  induction s as [|c tl IH]; intros [|n]; simpl; auto.
Qed.

Lemma tick_run_max_span : forall s,
  tick_run_max s =
  Nat.max (span_len is_tick s) (tick_run_max (skipn (span_len is_tick s) s)).
Proof.
  induction s as [|c tl IH]; auto.
  cbn [tick_run_max span_len]. destruct (is_tick c) eqn:E.
  - cbn [skipn]. rewrite IH at 1. lia.
  - cbn [skipn tick_run_max span_len]. rewrite E. lia.
Qed.

Lemma span_len_le_length : forall p s, span_len p s <= List.length s.
Proof.
  induction s as [|c tl IH]; simpl; auto. destruct (p c); simpl; lia.
Qed.

Lemma match_all_hit : forall m c tl n,
  m (c :: tl) = Some (S n) ->
  match_all m (c :: tl) = firstn (S n) (c :: tl) :: match_all m (skipn n tl).
Proof.
  intros m c tl n Hm. unfold match_all at 1. cbn [match_go]. rewrite Hm.
  now rewrite match_go_skipn.
Qed.

Lemma match_all_miss : forall m c tl,
  m (c :: tl) = None -> match_all m (c :: tl) = match_all m tl.
Proof.
  intros m c tl Hm. unfold match_all. cbn [match_go]. now rewrite Hm.
Qed.

Lemma re_ticks_span : forall s,
  re_ticks s = match span_len is_tick s with 0 => None | S n => Some (S n) end.
Proof. reflexivity. Qed.

Lemma fold_ticks : forall s a,
  fold_left (fun m x => Nat.max m (List.length x)) (match_all re_ticks s) a
  = Nat.max a (tick_run_max s).
Proof.
  apply (suffix_induction
    (fun s => forall a,
       fold_left (fun m x => Nat.max m (List.length x))
         (match_all re_ticks s) a = Nat.max a (tick_run_max s))).
  - intros a. simpl. lia.
  - intros c tl IH a.
    pose proof (re_ticks_span (c :: tl)) as Hre.
    destruct (span_len is_tick (c :: tl)) as [|n] eqn:En.
    + rewrite match_all_miss by assumption.
      pose proof (IH 0) as IH0. cbn [skipn] in IH0. rewrite IH0.
      cbn [tick_run_max]. rewrite En. reflexivity.
    + rewrite (match_all_hit _ _ _ _ Hre). cbn [fold_left]. rewrite (IH n).
      rewrite (tick_run_max_span (c :: tl)), En.
      rewrite length_firstn.
      pose proof (span_len_le_length is_tick (c :: tl)) as Hle.
      rewrite En in Hle. cbn [skipn]. lia.
Qed.

Lemma startsWith_ticks : forall n s,
  startsWith s (ticks n) = true <-> n <= span_len is_tick s.
Proof.
  induction n as [|n IH]; intros s.
  - split; [lia | intros _; destruct s; reflexivity].
  - destruct s as [|c tl].
    + split; [discriminate | simpl; lia].
    + change (ticks (S n)) with (BACKTICK :: ticks n).
      cbn [startsWith span_len].
      replace (BACKTICK =? c)%N with (is_tick c) by apply N.eqb_sym.
      destruct (is_tick c); cbn [andb].
      * rewrite IH. lia.
      * split; [discriminate | lia].
Qed.

Lemma includes_ticks : forall n s,
  includes s (ticks n) = true <-> n <= tick_run_max s.
Proof.
  intros n s. induction s as [|c tl IH].
  - cbn [includes tick_run_max]. rewrite orb_false_r, startsWith_ticks.
    reflexivity.
  - cbn [includes tick_run_max]. rewrite orb_true_iff, startsWith_ticks, IH.
    lia.
Qed.

Lemma longest_tick_run_max : forall s k,
  longest_tick_run s k <-> k = tick_run_max s.
Proof.
  intros s k. unfold longest_tick_run.
  rewrite includes_ticks, <- not_true_iff_false, includes_ticks. lia.
Qed.

Lemma makeFence_ticks : forall code,
  makeFence code = ticks (Nat.max 3 (tick_run_max code + 1)).
Proof. intros code. unfold makeFence. now rewrite fold_ticks. Qed.

Lemma makeInlineFence_ticks : forall text,
  makeInlineFence text = ticks (tick_run_max text + 1).
Proof. intros text. unfold makeInlineFence. now rewrite fold_ticks. Qed.

Lemma ticks_absent : forall s n,
  tick_run_max s < n -> includes s (ticks n) = false.
Proof.
  intros s n Hlt. apply not_true_iff_false. rewrite includes_ticks. lia.
Qed.

Lemma ticks_length : forall n, List.length (ticks n) = n.
Proof. induction n as [|n IH]; simpl; auto. Qed.

Lemma convertNode_pre : forall newURL attrs disp children c,
  let el := Elem (lit "pre") attrs disp children in
  convertNode newURL el c =
  match trim (pre_body el) with
  | [] => []
  | _ =>
      [LF] ++ makeFence (pre_body el)
        ++ detectLanguage el
             (option_map snd (querySelector ([], el) [[TagIs "code"]]))
        ++ [LF] ++ pre_body el ++ [LF] ++ makeFence (pre_body el) ++ [LF; LF]
  end.
Proof. reflexivity. Qed.

Lemma convertNode_code : forall newURL attrs disp children c,
  let el := Elem (lit "code") attrs disp children in
  convertNode newURL el c =
  match code_text el with
  | [] => []
  | text => makeInlineFence text ++ text ++ makeInlineFence text
  end.
Proof. reflexivity. Qed.

(** C1.  When the longest run of backticks of a code text has length [k],
    the fence of a code block has length [k + 1] raised to the minimum of
    3, the fence of inline code has length [k + 1] (at least 1), and
    neither fence occurs in the text; a [pre] and a [code] element are
    rendered with these fences around their text. *)
Theorem fence_safety : forall code k,
  longest_tick_run code k ->
  (makeFence code = ticks (Nat.max 3 (k + 1))
   /\ List.length (makeFence code) = Nat.max 3 (k + 1)
   /\ includes code (makeFence code) = false)
  /\ (makeInlineFence code = ticks (k + 1)
      /\ List.length (makeInlineFence code) = k + 1
      /\ includes code (makeInlineFence code) = false)
  /\ (forall newURL attrs disp children c,
        let el := Elem (lit "pre") attrs disp children in
        pre_body el = code -> trim code <> [] ->
        convertNode newURL el c =
        [LF] ++ makeFence code
          ++ detectLanguage el
               (option_map snd (querySelector ([], el) [[TagIs "code"]]))
          ++ [LF] ++ code ++ [LF] ++ makeFence code ++ [LF; LF])
  /\ (forall newURL attrs disp children c,
        let el := Elem (lit "code") attrs disp children in
        code_text el = code -> code <> [] ->
        convertNode newURL el c =
        makeInlineFence code ++ code ++ makeInlineFence code).
Proof.
  intros code k Hk. apply longest_tick_run_max in Hk. subst k.
  repeat split.
  - apply makeFence_ticks.
  - rewrite makeFence_ticks. apply ticks_length.
  - rewrite makeFence_ticks. apply ticks_absent. lia.
  - apply makeInlineFence_ticks.
  - rewrite makeInlineFence_ticks. apply ticks_length.
  - rewrite makeInlineFence_ticks. apply ticks_absent. lia.
  - intros newURL attrs disp children c el Hbody Hne.
    unfold el in *. rewrite convertNode_pre, Hbody.
    destruct (trim code); [contradiction | reflexivity].
  - intros newURL attrs disp children c el Htext Hne.
    unfold el in *. rewrite convertNode_code, Htext.
    destruct code; [contradiction | reflexivity].
Qed.

Lemma fence_safety_witness :
  longest_tick_run (lit "a ``b`` c") 2
  /\ makeFence (lit "a ``b`` c") = lit "```"
  /\ makeInlineFence (lit "a ``b`` c") = lit "```"
  /\ includes (lit "a ``b`` c") (lit "```") = false.
Proof.
  assert (Hk : longest_tick_run (lit "a ``b`` c") 2)
    by (split; vm_compute; reflexivity).
  destruct (fence_safety (lit "a ``b`` c") 2 Hk)
    as ((Hf & _ & Hnot) & (Hi & _ & _) & _).
  split; [exact Hk|]. split; [exact Hf|]. split; [exact Hi|].
  rewrite Hf in Hnot. exact Hnot.
Defined.

(** ** Absolute URLs *)

Lemma convertNode_a : forall newURL attrs disp children c,
  let el := Elem (lit "a") attrs disp children in
  let href := or_empty (getAttribute el "href") in
  let text :=
    first_nonempty (trim (cleanupMarkdownInline (convertChildren newURL el c)))
      href in
  convertNode newURL el c =
  if is_nil href then text
  else if startsWith href (lit "javascript:") then text
  else lit "[" ++ text ++ lit "](" ++ value (toAbsoluteUrl newURL href)
         ++ lit ")".
Proof. reflexivity. Qed.

Lemma convertNode_img : forall newURL attrs disp children c,
  let el := Elem (lit "img") attrs disp children in
  let src := or_empty (getAttribute el "src") in
  let alt :=
    trim (or_empty (or_else (getAttribute el "alt") (Some (lit "image")))) in
  convertNode newURL el c =
  if is_nil src || startsWith src (lit "data:") then []
  else lit "![" ++ alt ++ lit "](" ++ value (toAbsoluteUrl newURL src)
         ++ lit ")".
Proof. reflexivity. Qed.

Lemma toAbsoluteUrl_normal : forall newURL href,
  exists url,
    toAbsoluteUrl newURL href = Normal url
    /\ (forall e, newURL href = Throw e -> url = href)
    /\ (forall u, newURL href = Normal u -> url = u).
Proof.
  intros newURL href. unfold toAbsoluteUrl, try_catch.
  destruct (newURL href) as [u|e].
  - exists u. repeat split; congruence.
  - exists href. repeat split; congruence.
Qed.

(** C10.  [toAbsoluteUrl] completes normally on every [href]: with the
    absolute URL when the constructor accepts [href], with [href] itself
    when the constructor throws; a link or an image with such an address
    is rendered with the address as it is. *)
Theorem toAbsoluteUrl_total : forall newURL href,
  (exists url,
     toAbsoluteUrl newURL href = Normal url
     /\ (forall e, newURL href = Throw e -> url = href)
     /\ (forall u, newURL href = Normal u -> url = u))
  /\ (forall attrs disp children c e,
        let el := Elem (lit "a") attrs disp children in
        getAttribute el "href" = Some href -> href <> [] ->
        startsWith href (lit "javascript:") = false ->
        newURL href = Throw e ->
        convertNode newURL el c =
        lit "["
          ++ first_nonempty
               (trim (cleanupMarkdownInline (convertChildren newURL el c)))
               href
          ++ lit "](" ++ href ++ lit ")")
  /\ (forall attrs disp children c e,
        let el := Elem (lit "img") attrs disp children in
        getAttribute el "src" = Some href -> href <> [] ->
        startsWith href (lit "data:") = false ->
        newURL href = Throw e ->
        convertNode newURL el c =
        lit "!["
          ++ trim (or_empty (or_else (getAttribute el "alt")
                               (Some (lit "image"))))
          ++ lit "](" ++ href ++ lit ")").
Proof.
  intros newURL href. split; [apply toAbsoluteUrl_normal|].
  assert (Hv : forall e, newURL href = Throw e ->
                         value (toAbsoluteUrl newURL href) = href).
  { intros e He. unfold toAbsoluteUrl, try_catch. now rewrite He. }
  split.
  - intros attrs disp children c e el Hhref Hne Hjs He.
    unfold el in *. rewrite convertNode_a. cbv zeta.
    rewrite Hhref. cbn [or_empty]. rewrite Hjs, (Hv e He).
    destruct href; [contradiction | reflexivity].
  - intros attrs disp children c e el Hsrc Hne Hdata He.
    unfold el in *. rewrite convertNode_img. cbv zeta.
    rewrite Hsrc. cbn [or_empty]. rewrite Hdata, (Hv e He).
    destruct href; [contradiction | reflexivity].
Qed.

Lemma toAbsoluteUrl_total_witness :
  let newURL := fun _ : str => Throw (A := str) (Exn (lit "Invalid URL")) in
  let el := Elem (lit "a") [(lit "href", lit "http://[")] [] [Text (lit "x")] in
  getAttribute el "href" = Some (lit "http://[")
  /\ startsWith (lit "http://[") (lit "javascript:") = false
  /\ newURL (lit "http://[") = Throw (Exn (lit "Invalid URL"))
  /\ toAbsoluteUrl newURL (lit "http://[") = Normal (lit "http://[")
  /\ convertNode newURL el
       {| listDepth := 0; inBlockquote := false; listOrdered := false;
          listIndex := 0 |}
     = lit "[x](http://[)".
Proof.
  intros newURL el.
  destruct (toAbsoluteUrl_total newURL (lit "http://["))
    as ((url & Hurl & Hthrown & _) & Ha & _).
  split; [reflexivity|]. split; [reflexivity|]. split; [reflexivity|].
  split.
  - rewrite Hurl. f_equal. now apply (Hthrown (Exn (lit "Invalid URL"))).
  - rewrite (Ha [(lit "href", lit "http://[")] [] [Text (lit "x")] _
                (Exn (lit "Invalid URL"))).
    + reflexivity.
    + reflexivity.
    + discriminate.
    + reflexivity.
    + reflexivity.
Defined.

(** ** Document order and containment *)

Lemma path_eqb_eq : forall a b, path_eqb a b = true <-> a = b.
Proof.
  induction a as [|i a IH]; intros [|j b]; simpl; split; try congruence; auto.
  - rewrite andb_true_iff, Nat.eqb_eq, IH. intros [-> ->]. reflexivity.
  - intros E. injection E as -> ->. rewrite Nat.eqb_refl. simpl. now apply IH.
Qed.

Lemma path_cmp_eq : forall a b, path_cmp a b = Eq <-> a = b.
Proof.
  induction a as [|i a IH]; intros [|j b]; simpl; split; try congruence; auto.
  - destruct (Nat.compare_spec i j); try discriminate.
    rewrite IH. intros ->. now subst.
  - intros E. injection E as -> ->. rewrite Nat.compare_refl. now apply IH.
Qed.

Lemma path_cmp_opp : forall a b, path_cmp b a = CompOpp (path_cmp a b).
Proof.
  induction a as [|i a IH]; intros [|j b]; simpl; auto.
  rewrite (Nat.compare_antisym i j).
  destruct (Nat.compare i j); simpl; auto.
Qed.

Lemma path_cmp_trans : forall a b c,
  path_cmp a b = Lt -> path_cmp b c = Lt -> path_cmp a c = Lt.
Proof.
  induction a as [|i a IH]; intros [|j b] [|k c]; simpl; try congruence.
  destruct (Nat.compare_spec i j), (Nat.compare_spec j k); try discriminate;
    subst; intros H1 H2.
  - rewrite Nat.compare_refl. eauto.
  - now apply Nat.compare_lt_iff in H0 as ->.
  - now apply Nat.compare_lt_iff in H as ->.
  - assert (Hik : i < k) by lia. now apply Nat.compare_lt_iff in Hik as ->.
Qed.

Lemma is_prefix_refl : forall a, is_prefix a a = true.
Proof. induction a; simpl; auto. now rewrite Nat.eqb_refl. Qed.

Lemma is_prefix_trans : forall a b c,
  is_prefix a b = true -> is_prefix b c = true -> is_prefix a c = true.
Proof.
  induction a as [|i a IH]; intros [|j b] [|k c]; simpl; try congruence.
  rewrite !andb_true_iff, !Nat.eqb_eq. intros [-> H1] [-> H2]. eauto.
Qed.

Lemma is_prefix_cmp : forall a b,
  is_prefix a b = true -> a = b \/ path_cmp a b = Lt.
Proof.
  induction a as [|i a IH]; intros [|j b]; simpl; auto; try discriminate.
  rewrite andb_true_iff, Nat.eqb_eq. intros [-> H].
  rewrite Nat.compare_refl. destruct (IH b H) as [->|Hlt]; auto.
Qed.

Lemma comparePaths_cases : forall a b,
  match path_cmp a b with
  | Eq => comparePaths a b = 0%Z
  | Lt => comparePaths a b = 4%Z \/ comparePaths a b = 20%Z
  | Gt => comparePaths a b = 2%Z \/ comparePaths a b = 10%Z
  end.
Proof.
  induction a as [|i a IH]; intros [|j b]; simpl; auto.
  destruct (Nat.compare_spec i j).
  - subst. rewrite Nat.eqb_refl. apply IH.
  - destruct (Nat.eqb_spec i j); [lia|].
    destruct (Nat.ltb_spec i j); [auto | lia].
  - destruct (Nat.eqb_spec i j); [lia|].
    destruct (Nat.ltb_spec i j); [lia | auto].
Qed.

Lemma compareDomOrder_cmp : forall x y,
  compareDomOrder x y =
  match path_cmp (fst x) (fst y) with
  | Eq => 0%Z
  | Lt => (-1)%Z
  | Gt => 1%Z
  end.
Proof.
  intros x y. unfold compareDomOrder, same, compareDocumentPosition.
  destruct (path_eqb (fst x) (fst y)) eqn:E.
  - apply path_eqb_eq in E. apply path_cmp_eq in E. now rewrite E.
  - pose proof (comparePaths_cases (fst x) (fst y)) as H.
    destruct (path_cmp (fst x) (fst y)) eqn:C.
    + apply path_cmp_eq in C. apply path_eqb_eq in C. congruence.
    + destruct H as [-> | ->]; reflexivity.
    + destruct H as [-> | ->]; reflexivity.
Qed.

(** *** Sorting *)

Lemma insert_by_perm : forall cmp x l, Permutation (insert_by cmp x l) (x :: l).
Proof.
  induction l as [|y tl IH]; simpl; auto.
  destruct (cmp x y <=? 0)%Z; auto.
  rewrite IH. apply perm_swap.
Qed.

Lemma sort_by_perm : forall cmp l, Permutation (sort_by cmp l) l.
Proof.
  induction l as [|x tl IH]; simpl; auto.
  rewrite insert_by_perm. now constructor.
Qed.

Lemma doc_le_trans : forall x y z, doc_le x y -> doc_le y z -> doc_le x z.
Proof.
  unfold doc_le. intros x y z Hxy Hyz Hgt.
  destruct (path_cmp (fst x) (fst y)) eqn:E1; [| |congruence].
  - apply path_cmp_eq in E1. congruence.
  - destruct (path_cmp (fst y) (fst z)) eqn:E2; [| |congruence].
    + apply path_cmp_eq in E2. congruence.
    + rewrite (path_cmp_trans _ _ _ E1 E2) in Hgt. discriminate.
Qed.

Lemma insert_by_sorted : forall x l,
  StronglySorted doc_le l ->
  StronglySorted doc_le (insert_by compareDomOrder x l).
Proof.
  induction l as [|y tl IH]; intros Hs; simpl.
  - repeat constructor.
  - inversion Hs as [|? ? Htl Hall]; subst.
    rewrite compareDomOrder_cmp.
    destruct (path_cmp (fst x) (fst y)) eqn:C; simpl.
    + constructor; auto. constructor.
      * unfold doc_le. congruence.
      * eapply Forall_impl; [|exact Hall].
        intros z Hz. apply doc_le_trans with y; auto.
        unfold doc_le. congruence.
    + constructor; auto. constructor.
      * unfold doc_le. congruence.
      * eapply Forall_impl; [|exact Hall].
        intros z Hz. apply doc_le_trans with y; auto.
        unfold doc_le. congruence.
    + constructor; auto.
      apply Forall_forall. intros z Hz.
      apply (Permutation_in _ (insert_by_perm compareDomOrder x tl)) in Hz.
      destruct Hz as [<-|Hz].
      * unfold doc_le. rewrite path_cmp_opp, C. discriminate.
      * rewrite Forall_forall in Hall. auto.
Qed.

Lemma sort_by_sorted : forall l,
  StronglySorted doc_le (sort_by compareDomOrder l).
Proof.
  induction l as [|x tl IH]; simpl; [constructor|].
  now apply insert_by_sorted.
Qed.

Lemma sorted_strict : forall l,
  StronglySorted doc_le l -> NoDup (List.map fst l) ->
  StronglySorted precedes l.
Proof.
  induction 1 as [|x tl Htl IH Hall]; intros Hnd; [constructor|].
  simpl in Hnd. inversion Hnd as [|? ? Hx Hnd']; subst.
  constructor; auto.
  apply Forall_forall. intros y Hy.
  rewrite Forall_forall in Hall. specialize (Hall y Hy).
  unfold precedes, doc_le in *.
  destruct (path_cmp (fst x) (fst y)) eqn:C; auto; [|congruence].
  apply path_cmp_eq in C. exfalso. apply Hx. rewrite C.
  now apply in_map.
Qed.

(** *** Deduplication *)

Lemma existsb_same : forall el seen,
  existsb (same el) seen = true <-> In (fst el) (List.map fst seen).
Proof.
  intros el seen. rewrite existsb_exists, in_map_iff. unfold same.
  split.
  - intros (x & Hx & E). apply path_eqb_eq in E. eauto.
  - intros (x & E & Hx). exists x. split; auto. now apply path_eqb_eq.
Qed.

Lemma uniqueElements_go_incl : forall els seen,
  incl (uniqueElements_go seen els) els.
Proof.
  induction els as [|el rest IH]; intros seen; simpl.
  - apply incl_refl.
  - destruct (existsb (same el) seen).
    + apply incl_tl, IH.
    + apply incl_cons; [now left | apply incl_tl, IH].
Qed.

Lemma uniqueElements_go_fresh : forall els seen x,
  In x (uniqueElements_go seen els) -> ~ In (fst x) (List.map fst seen).
Proof.
  induction els as [|el rest IH]; intros seen x; simpl; [tauto|].
  destruct (existsb (same el) seen) eqn:E.
  - apply IH.
  - intros [<-|Hx].
    + rewrite <- existsb_same. congruence.
    + intros Hin. apply (IH _ _ Hx). simpl. auto.
Qed.

Lemma uniqueElements_go_nodup : forall els seen,
  NoDup (List.map fst (uniqueElements_go seen els)).
Proof.
  induction els as [|el rest IH]; intros seen; simpl; [constructor|].
  destruct (existsb (same el) seen); auto.
  simpl. constructor; auto.
  intros Hin. apply in_map_iff in Hin. destruct Hin as (x & E & Hx).
  apply uniqueElements_go_fresh in Hx. apply Hx. simpl. auto.
Qed.

Lemma uniqueElements_go_keeps : forall els seen x,
  In x els ->
  In (fst x) (List.map fst seen)
  \/ In (fst x) (List.map fst (uniqueElements_go seen els)).
Proof.
  induction els as [|el rest IH]; intros seen x; simpl; [tauto|].
  intros [<-|Hx].
  - destruct (existsb (same el) seen) eqn:E.
    + left. now apply existsb_same.
    + right. simpl. auto.
  - destruct (existsb (same el) seen) eqn:E.
    + apply IH, Hx.
    + destruct (IH (el :: seen) x Hx) as [[E'|Hs]|Hr]; simpl; auto.
Qed.

(** *** Removal of contained elements *)

Lemma removeContained_go_out : forall els out,
  incl out (removeContained_go out els).
Proof.
  induction els as [|el rest IH]; intros out; simpl.
  - apply incl_refl.
  - destruct (existsb (fun prev => contains prev el) out); auto.
    intros x Hx. apply IH. apply in_or_app. auto.
Qed.

Lemma removeContained_go_incl : forall els out,
  incl (removeContained_go out els) (out ++ els).
Proof.
  induction els as [|el rest IH]; intros out; simpl.
  - rewrite app_nil_r. apply incl_refl.
  - destruct (existsb (fun prev => contains prev el) out).
    + intros x Hx. apply IH in Hx. apply in_app_or in Hx.
      apply in_or_app. simpl. tauto.
    + intros x Hx. apply IH in Hx. rewrite <- app_assoc in Hx. exact Hx.
Qed.

Lemma StronglySorted_remove {A} (R : A -> A -> Prop) : forall l1 x l2,
  StronglySorted R (l1 ++ x :: l2) -> StronglySorted R (l1 ++ l2).
Proof.
  induction l1 as [|y l1 IH]; intros x l2 Hs; simpl in *.
  - now inversion Hs.
  - inversion Hs as [|? ? Htl Hall]; subst. constructor; eauto.
    rewrite Forall_app in *. destruct Hall as [H1 H2].
    inversion H2; subst. auto.
Qed.

Lemma removeContained_go_sorted (R : handle -> handle -> Prop) :
  forall els out,
  StronglySorted R (out ++ els) ->
  StronglySorted R (removeContained_go out els).
Proof.
  induction els as [|el rest IH]; intros out Hs; simpl.
  - now rewrite app_nil_r in Hs.
  - destruct (existsb (fun prev => contains prev el) out).
    + apply IH. now apply StronglySorted_remove with el.
    + apply IH. now rewrite <- app_assoc.
Qed.

Lemma StronglySorted_app_inv {A} (R : A -> A -> Prop) : forall l1 l2 x y,
  StronglySorted R (l1 ++ l2) -> In x l1 -> In y l2 -> R x y.
Proof.
  induction l1 as [|z l1 IH]; intros l2 x y Hs Hx Hy; [contradiction|].
  simpl in Hs. inversion Hs as [|? ? Htl Hall]; subst.
  destruct Hx as [->|Hx]; eauto.
  rewrite Forall_forall in Hall. apply Hall. apply in_or_app. auto.
Qed.

Lemma removeContained_go_antichain : forall els out,
  StronglySorted precedes (out ++ els) ->
  antichain out ->
  antichain (removeContained_go out els).
Proof.
  induction els as [|el rest IH]; intros out Hs Hanti; simpl; auto.
  destruct (existsb (fun prev => contains prev el) out) eqn:E.
  - apply IH; auto. now apply StronglySorted_remove with el.
  - apply IH; [now rewrite <- app_assoc|].
    intros x y Hx Hy Hc.
    apply in_app_or in Hx. apply in_app_or in Hy.
    destruct Hx as [Hx|[<-|[]]], Hy as [Hy|[<-|[]]]; auto.
    + exfalso. assert (Hex : existsb (fun prev => contains prev el) out = true).
      { apply existsb_exists. eauto. }
      congruence.
    + apply is_prefix_cmp in Hc. destruct Hc as [Hc|Hc]; auto.
      assert (Hyx : precedes y el).
      { apply (StronglySorted_app_inv _ out (el :: rest)); simpl; auto. }
      unfold precedes in Hyx. rewrite path_cmp_opp, Hc in Hyx. discriminate.
Qed.

Lemma removeContained_go_cover : forall els out x,
  In x (out ++ els) ->
  exists o, In o (removeContained_go out els) /\ contains o x = true.
Proof.
  induction els as [|el rest IH]; intros out x Hx; simpl.
  - rewrite app_nil_r in Hx. exists x. split; auto. apply is_prefix_refl.
  - apply in_app_or in Hx.
    destruct (existsb (fun prev => contains prev el) out) eqn:E.
    + destruct Hx as [Hx|[<-|Hx]].
      * apply IH. apply in_or_app. auto.
      * apply existsb_exists in E. destruct E as (o & Ho & Hc).
        exists o. split; auto. now apply removeContained_go_out.
      * apply IH. apply in_or_app. auto.
    + apply IH. rewrite <- app_assoc. apply in_or_app. simpl.
      destruct Hx as [Hx|[<-|Hx]]; auto.
Qed.

(** *** The collected turns *)

Lemma is_prefix_antisym : forall a b,
  is_prefix a b = true -> is_prefix b a = true -> a = b.
Proof.
  intros a b Hab Hba.
  destruct (is_prefix_cmp _ _ Hab) as [|H1]; auto.
  destruct (is_prefix_cmp _ _ Hba) as [|H2]; auto.
  rewrite path_cmp_opp, H1 in H2. discriminate.
Qed.

Section Collected.

Variable searchRoot : node.

Lemma sorted_incl : incl (orderedCandidates searchRoot) (turnCandidates searchRoot).
Proof.
  intros x Hx. unfold orderedCandidates in Hx.
  apply (Permutation_in _ (sort_by_perm _ _)) in Hx.
  now apply uniqueElements_go_incl in Hx.
Qed.

Lemma sorted_strictly : StronglySorted precedes (orderedCandidates searchRoot).
Proof.
  apply sorted_strict; [apply sort_by_sorted|].
  apply (Permutation_NoDup
           (l := List.map fst (uniqueElements (turnCandidates searchRoot)))).
  - apply Permutation_map, Permutation_sym, sort_by_perm.
  - apply uniqueElements_go_nodup.
Qed.

Lemma sorted_keeps : forall x,
  In x (turnCandidates searchRoot) -> In (fst x) (List.map fst (orderedCandidates searchRoot)).
Proof.
  intros x Hx.
  destruct (uniqueElements_go_keeps (turnCandidates searchRoot) [] x Hx) as [[]|H].
  apply (Permutation_in
           (l := List.map fst (uniqueElements (turnCandidates searchRoot)))); auto.
  apply Permutation_map, Permutation_sym, sort_by_perm.
Qed.

Lemma turns_incl : incl (collectConversationNodes searchRoot) (turnCandidates searchRoot).
Proof.
  intros x Hx. apply sorted_incl.
  apply (removeContained_go_incl (orderedCandidates searchRoot) []) in Hx. exact Hx.
Qed.

Lemma turns_sorted : StronglySorted precedes (collectConversationNodes searchRoot).
Proof. apply removeContained_go_sorted. apply sorted_strictly. Qed.

Lemma turns_antichain : antichain (collectConversationNodes searchRoot).
Proof.
  apply removeContained_go_antichain; [apply sorted_strictly|].
  intros x y [].
Qed.

Lemma turns_cover : forall x,
  In x (turnCandidates searchRoot) -> exists o, In o (collectConversationNodes searchRoot) /\ contains o x = true.
Proof.
  intros x Hx. apply sorted_keeps in Hx.
  apply in_map_iff in Hx. destruct Hx as (x' & E & Hx').
  destruct (removeContained_go_cover (orderedCandidates searchRoot) [] x' Hx') as (o & Ho & Hc).
  exists o. split; auto. unfold contains in *. now rewrite <- E.
Qed.

Lemma StronglySorted_precedes_NoDup : forall l,
  StronglySorted precedes l -> NoDup (List.map fst l).
Proof.
  induction 1 as [|x tl Htl IH Hall]; simpl; constructor; auto.
  intros Hin. apply in_map_iff in Hin. destruct Hin as (y & E & Hy).
  rewrite Forall_forall in Hall. specialize (Hall y Hy).
  unfold precedes in Hall. rewrite E in Hall.
  assert (Heq : path_cmp (fst x) (fst x) = Eq) by now apply path_cmp_eq.
  congruence.
Qed.

End Collected.

(** C5.  The turns that [collectConversationNodes] returns are candidates,
    pairwise distinct and in document order, and none contains another.
    When a candidate [A] contains another candidate [B], [B] is not
    returned; [A] is returned when no other candidate contains it (else
    the outermost candidate around it is). *)
Theorem collected_turns : forall searchRoot,
  let candidates := turnCandidates searchRoot in
  let turns := collectConversationNodes searchRoot in
  incl turns candidates
  /\ NoDup (List.map fst turns)
  /\ StronglySorted (fun x y => compareDomOrder x y = (-1)%Z) turns
  /\ (forall x y, In x turns -> In y turns -> contains x y = true ->
                  same x y = true)
  /\ (forall A B, In A candidates -> In B candidates ->
                  contains A B = true -> same A B = false ->
                  ~ In (fst B) (List.map fst turns))
  /\ (forall A, In A candidates ->
                (forall C, In C candidates -> contains C A = true ->
                           same C A = true) ->
                In (fst A) (List.map fst turns)).
Proof.
  intros searchRoot candidates turns.
  pose proof (turns_incl searchRoot) as Hincl.
  pose proof (turns_sorted searchRoot) as Hsorted.
  pose proof (turns_antichain searchRoot) as Hanti.
  pose proof (turns_cover searchRoot) as Hcover.
  fold candidates turns in Hincl, Hsorted, Hanti, Hcover.
  split; [exact Hincl|].
  split; [now apply StronglySorted_precedes_NoDup|].
  split.
  { eapply StronglySorted_ind with (P := fun l => StronglySorted _ l);
      [ constructor | | exact Hsorted ].
    intros a l _ IH Hall. constructor; auto.
    eapply Forall_impl; [|exact Hall].
    intros b Hb. rewrite compareDomOrder_cmp. unfold precedes in Hb.
    now rewrite Hb. }
  split.
  { intros x y Hx Hy Hc. unfold same. apply path_eqb_eq. now apply Hanti. }
  split.
  - intros A B HA HB Hc Hneq Hin.
    apply in_map_iff in Hin. destruct Hin as (B' & E & HB').
    destruct (Hcover A HA) as (o & Ho & Hco).
    assert (HoB : contains o B' = true).
    { unfold contains in *. rewrite E. now apply is_prefix_trans with (fst A). }
    pose proof (Hanti o B' Ho HB' HoB) as Heq.
    assert (fst A = fst B).
    { apply is_prefix_antisym; auto.
      unfold contains in Hco. rewrite Heq, E in Hco. exact Hco. }
    unfold same in Hneq. apply not_true_iff_false in Hneq. apply Hneq.
    now apply path_eqb_eq.
  - intros A HA Houter.
    destruct (Hcover A HA) as (o & Ho & Hco).
    specialize (Houter o (Hincl o Ho) Hco).
    unfold same in Houter. apply path_eqb_eq in Houter.
    rewrite <- Houter. now apply in_map.
Qed.

Lemma nested_turns_candidates :
  List.map fst (turnCandidates nested_turns) = [[0]; [0; 0]; [0; 0; 0]; [1]].
Proof. vm_compute. reflexivity. Qed.

Lemma nested_turns_collected :
  List.map fst (collectConversationNodes nested_turns) = [[0]; [1]].
Proof. vm_compute. reflexivity. Qed.

Lemma In_candidate : forall searchRoot p,
  In p (List.map fst (turnCandidates searchRoot)) ->
  exists x, In x (turnCandidates searchRoot) /\ fst x = p.
Proof.
  intros searchRoot p Hin. apply in_map_iff in Hin.
  destruct Hin as (x & E & Hx). eauto.
Qed.

(** The claim as the specification words it fails where a candidate that
    contains another is itself contained in a third: the middle one is not
    returned. *)
Lemma collected_turns_counterexample :
  exists A B,
    In A (turnCandidates nested_turns)
    /\ In B (turnCandidates nested_turns)
    /\ contains A B = true /\ same A B = false
    /\ ~ In (fst A) (List.map fst (collectConversationNodes nested_turns)).
Proof.
  destruct (In_candidate nested_turns [0; 0]) as (A & HA & EA).
  { rewrite nested_turns_candidates. simpl. auto. }
  destruct (In_candidate nested_turns [0; 0; 0]) as (B & HB & EB).
  { rewrite nested_turns_candidates. simpl. auto. }
  exists A, B. repeat split; auto.
  - unfold contains. rewrite EA, EB. reflexivity.
  - unfold same. rewrite EA, EB. reflexivity.
  - rewrite nested_turns_collected, EA. simpl.
    intros [E|[E|[]]]; discriminate.
Qed.

Lemma collected_turns_witness :
  In [0] (List.map fst (collectConversationNodes nested_turns))
  /\ ~ In [0; 0] (List.map fst (collectConversationNodes nested_turns)).
Proof.
  destruct (collected_turns nested_turns) as (_ & _ & _ & _ & Hinner & Houter).
  destruct (In_candidate nested_turns [0]) as (A & HA & EA).
  { rewrite nested_turns_candidates. simpl. auto. }
  destruct (In_candidate nested_turns [0; 0]) as (B & HB & EB).
  { rewrite nested_turns_candidates. simpl. auto. }
  split.
  - rewrite <- EA. apply Houter; auto.
    intros C HC Hc.
    assert (HCp : In (fst C) (List.map fst (turnCandidates nested_turns)))
      by now apply in_map.
    rewrite nested_turns_candidates in HCp.
    unfold contains in Hc. unfold same. rewrite EA in *. simpl in HCp.
    destruct HCp as [E|[E|[E|[E|[]]]]]; rewrite <- E in *;
      try reflexivity; discriminate.
  - rewrite <- EB. apply (Hinner A B HA HB).
    + unfold contains. rewrite EA, EB. reflexivity.
    + unfold same. rewrite EA, EB. reflexivity.
Defined.

(** ** Lists *)

Lemma Js_eqb_eq : forall a b, Js.eqb a b = true <-> a = b.
Proof.
  induction a as [|x a IH]; intros [|y b]; simpl; split; try congruence; auto.
  - rewrite andb_true_iff, N.eqb_eq, IH. intros [-> ->]. reflexivity.
  - intros E. injection E as -> ->. rewrite N.eqb_refl. now apply IH.
Qed.

Lemma repeat_two_spaces : forall n,
  Js.repeat (lit "  ") n = List.repeat SP (2 * n).
Proof.
  induction n as [|n IH]; auto.
  replace (2 * S n) with (S (S (2 * n))) by lia.
  simpl. now rewrite IH.
Qed.

Lemma trimEnd_fixed_last : forall t,
  trimEnd t = t -> t <> [] ->
  exists c r, rev t = c :: r /\ is_space c = false.
Proof.
  intros t Ht Hne. unfold trimEnd in Ht.
  assert (Hd : dropWhile is_space (rev t) = rev t).
  { rewrite <- Ht at 2. now rewrite rev_involutive. }
  destruct (trimStart_fixed_hd (rev t) Hd) as [E|(c & r & E & Hc)].
  - exfalso. apply Hne. rewrite <- (rev_involutive t), E. reflexivity.
  - eauto.
Qed.

Lemma trimEnd_app_fixed : forall a t,
  trimEnd t = t -> t <> [] -> trimEnd (a ++ t) = a ++ t.
Proof.
  intros a t Ht Hne.
  destruct (trimEnd_fixed_last t Ht Hne) as (c & r & E & Hc).
  unfold trimEnd. rewrite rev_app_distr, E. simpl. rewrite Hc.
  change (c :: r ++ rev a) with ((c :: r) ++ rev a).
  rewrite <- E, <- rev_app_distr. apply rev_involutive.
Qed.

Lemma trimEnd_snoc_space : forall a, trimEnd (a ++ [SP]) = trimEnd a.
Proof.
  intros a. unfold trimEnd. rewrite rev_app_distr. reflexivity.
Qed.

Lemma trimEnd_trim : forall s, trimEnd (trim s) = trim s.
Proof. intros s. unfold trim. apply trimEnd_idem. Qed.

Section ListFacts.

Variable newURL : str -> completion str.

Lemma list_lines_numbered : forall convItem c ordered children start,
  list_lines convItem c ordered start children =
  List.map (fun p => convItem (snd p) (item_ctx c ordered (fst p)))
    (combine (seq start (List.length (filter (tag_is "li") children)))
       (filter (tag_is "li") children)).
Proof.
  intros convItem c ordered. induction children as [|ch rest IH]; intros start.
  - reflexivity.
  - cbn [list_lines filter]. destruct (tag_is "li" ch).
    + cbn [List.length seq combine List.map]. f_equal. apply IH.
    + apply IH.
Qed.

Lemma convertNode_list : forall tag attrs disp children c,
  tag = lit "ul" \/ tag = lit "ol" ->
  convertNode newURL (Elem tag attrs disp children) c =
  convertList newURL (Elem tag attrs disp children) c.
Proof. intros tag attrs disp children c [-> | ->]; reflexivity. Qed.

Lemma is_list_tag : forall n,
  is_list n = true ->
  exists tag attrs disp children,
    n = Elem tag attrs disp children /\ (tag = lit "ul" \/ tag = lit "ol").
Proof.
  intros [v| |tag attrs disp children]; unfold is_list, tag_is; simpl;
    try discriminate.
  rewrite orb_true_iff, !Js_eqb_eq. intros H.
  exists tag, attrs, disp, children. auto.
Qed.

Lemma nested_parts : forall c children,
  List.concat
    (List.map
       (fun ch =>
          match ch with
          | Elem tag _ _ items =>
              if is_list ch
              then [trimEnd (convertList_with (convertListItem newURL) tag
                               items c)]
              else []
          | _ => []
          end)
       children)
  = List.map (fun nl => trimEnd (convertNode newURL nl c))
      (filter is_list children).
Proof.
  intros c. induction children as [|ch rest IH]; [reflexivity|].
  cbn [List.map List.concat filter].
  destruct (is_list ch) eqn:E.
  - destruct (is_list_tag ch E) as (tag & attrs & disp & items & -> & Htag).
    cbn [app List.map]. rewrite IH. f_equal.
    now rewrite (convertNode_list _ _ _ _ _ Htag).
  - rewrite <- IH. destruct ch; reflexivity.
Qed.

Lemma convertListItem_eq : forall li c,
  convertListItem newURL li c =
  match join [LF] (nestedLists newURL li c) with
  | [] => headLine c (ownText newURL li c)
  | nestedMd => headLine c (ownText newURL li c) ++ [LF] ++ nestedMd
  end.
Proof.
  intros li c. unfold nestedLists, ownText.
  destruct li as [v| |tag attrs disp children]; try reflexivity.
  cbn [convertListItem childNodes]. unfold convertListItem_with.
  rewrite nested_parts.
  destruct (join [LF] _); reflexivity.
Qed.

Lemma ownText_trimmed : forall li c,
  trimEnd (ownText newURL li c) = ownText newURL li c.
Proof. intros li c. unfold ownText, itemText. apply trimEnd_trim. Qed.

Lemma headLine_text : forall c text,
  trimEnd text = text -> text <> [] ->
  headLine c text =
  List.repeat SP (2 * (listDepth c - 1)) ++ bullet c ++ text.
Proof.
  intros c text Ht Hne. unfold headLine.
  rewrite Nat.max_0_l, repeat_two_spaces, app_assoc.
  rewrite trimEnd_app_fixed by assumption. now rewrite <- app_assoc.
Qed.

Lemma headLine_empty : forall c,
  headLine c [] =
  List.repeat SP (2 * (listDepth c - 1))
    ++ (if listOrdered c then decimal (listIndex c) ++ lit "." else lit "-").
Proof.
  intros c. unfold headLine, bullet.
  rewrite Nat.max_0_l, repeat_two_spaces, app_nil_r.
  destruct (listOrdered c).
  - change (lit ". ") with (lit "." ++ [SP]).
    rewrite !app_assoc, trimEnd_snoc_space, <- app_assoc.
    rewrite app_assoc. rewrite trimEnd_app_fixed; [|reflexivity|discriminate].
    now rewrite <- app_assoc.
  - change (lit "- ") with (lit "-" ++ [SP]).
    rewrite app_assoc, trimEnd_snoc_space.
    apply trimEnd_app_fixed; [reflexivity|discriminate].
Qed.

End ListFacts.

(** C9 (amended).  A list renders its [li] children in order, numbered
    from 1 in that list ([ol]), each in a context one level deeper.  An
    item at depth [d] is rendered as a head line made of [2 * (d - 1)]
    spaces, the bullet ([- ], or the index and [. ]) and the own text of
    the item; the head line is trimmed at the end, so an item without own
    text gets [-] (or the index and [.]) alone.  The nested lists of the
    item follow on the next lines, rendered in the context of the item:
    their items are one level deeper and numbered from 1 again. *)
Theorem list_rendering : forall newURL,
  (forall listEl c,
     is_list listEl = true ->
     let items := filter (tag_is "li") (childNodes listEl) in
     let lines :=
       List.map
         (fun p => convertListItem newURL (snd p)
                     (item_ctx c (tag_is "ol" listEl) (fst p)))
         (combine (seq 1 (List.length items)) items) in
     convertNode newURL listEl c =
     match items with
     | [] => []
     | _ => join [LF] lines ++ [LF; LF]
     end)
  /\ (forall li c,
        convertListItem newURL li c =
        match join [LF] (nestedLists newURL li c) with
        | [] => head_of c (ownText newURL li c)
        | nestedMd => head_of c (ownText newURL li c) ++ [LF] ++ nestedMd
        end).
Proof.
  intros newURL. split.
  - intros listEl c Hlist.
    destruct (is_list_tag listEl Hlist)
      as (tag & attrs & disp & children & -> & Htag).
    rewrite (convertNode_list newURL _ _ _ _ _ Htag).
    unfold convertList, convertList_with. cbn [tagName childNodes].
    rewrite list_lines_numbered.
    change (tag_is "ol" (Elem tag attrs disp children))
      with (Js.eqb tag (lit "ol")).
    destruct (filter (tag_is "li") children); reflexivity.
  - intros li c. rewrite convertListItem_eq.
    assert (Hhead : headLine c (ownText newURL li c)
                    = head_of c (ownText newURL li c)).
    { unfold head_of. destruct (ownText newURL li c) as [|x text] eqn:E.
      - apply headLine_empty.
      - rewrite headLine_text.
        + reflexivity.
        + rewrite <- E. apply ownText_trimmed.
        + discriminate. }
    now rewrite Hhead.
Qed.

(** The claim as the specification words it fails for an item without
    own text: its head line is the bullet without the space. *)
Lemma list_rendering_counterexample :
  let c := item_ctx top_ctx false 1 in
  listOrdered c = false
  /\ startsWith (convertListItem keep_url bare_item c)
       (List.repeat SP (2 * (listDepth c - 1)) ++ lit "- ") = false
  /\ convertListItem keep_url bare_item c = lit "-" ++ [LF] ++ lit "  - x".
Proof. repeat split; vm_compute; reflexivity. Qed.

Lemma list_rendering_witness :
  is_list two_level_list = true
  /\ convertNode keep_url two_level_list top_ctx
     = lit "- a" ++ [LF] ++ lit "  - b" ++ [LF] ++ lit "  - c" ++ [LF]
         ++ lit "- d" ++ [LF; LF].
Proof.
  split; [reflexivity|].
  destruct (list_rendering keep_url) as [Hlist _].
  rewrite (Hlist two_level_list top_ctx eq_refl).
  vm_compute. reflexivity.
Defined.

(** ** The document of a two-turn conversation *)

Lemma single_line_no_cr : forall s, single_line s -> no_cr s.
Proof.
  intros s Hs. unfold no_cr. eapply Forall_impl; [|exact Hs].
  intros c [_ Hc]. exact Hc.
Qed.

Lemma single_line_hd : forall s, single_line s -> hd_is_lf s = false.
Proof.
  intros [|c tl] Hs; auto. inversion Hs as [|? ? [Hc _] _]; subst.
  simpl. unfold is_lf. now apply N.eqb_neq.
Qed.

Lemma single_line_span : forall s b,
  single_line s -> s <> [] -> span_len is_lf (s ++ b) = 0.
Proof.
  intros [|c tl] b Hs Hne; [contradiction|].
  inversion Hs as [|? ? [Hc _] _]; subst. simpl.
  unfold is_lf. apply N.eqb_neq in Hc. now rewrite Hc.
Qed.

Lemma single_line_app_runs : forall k a b,
  0 < k -> single_line a -> lf_runs_below k b -> lf_runs_below k (a ++ b).
Proof.
  intros k a b Hk. induction a as [|c a IH]; intros Ha Hb; auto.
  inversion Ha as [|? ? Hc Ha']; subst.
  split; [|now apply IH].
  change (c :: a ++ b) with ((c :: a) ++ b).
  rewrite single_line_span; auto. discriminate.
Qed.

Lemma is_blank_is_space : forall c, is_blank c = true -> is_space c = true.
Proof.
  intros c. unfold is_blank, SP, TAB.
  rewrite orb_true_iff, !N.eqb_eq. intros [-> | ->]; reflexivity.
Qed.

(** A line that does not end with a blank may be followed by anything
    that has no blank before a line feed. *)
Lemma single_line_app_blank : forall a b,
  single_line a ->
  (exists c r, rev a = c :: r /\ is_blank c = false) ->
  blank_lf_free b -> blank_lf_free (a ++ b).
Proof.
  induction a as [|x a IH]; intros b Ha (c & r & Hrev & Hc) Hb.
  - discriminate.
  - inversion Ha as [|? ? Hx Ha']; subst.
    destruct a as [|y a'].
    + simpl in Hrev. injection Hrev as -> _. simpl. split; auto.
      now rewrite Hc.
    + change ((x :: y :: a') ++ b) with (x :: (y :: a') ++ b).
      split.
      * simpl. inversion Ha' as [|? ? [Hy _] _]; subst.
        unfold is_lf. apply N.eqb_neq in Hy. rewrite Hy.
        apply andb_false_r.
      * apply IH; auto.
        exists c. simpl in Hrev.
        destruct (rev a' ++ [y]) as [|z r'] eqn:E.
        -- destruct (rev a'); discriminate.
        -- simpl in Hrev. injection Hrev as -> _. exists r'. auto.
Qed.

Lemma Forall_dropWhile {P : char -> Prop} : forall p s,
  Forall P s -> Forall P (dropWhile p s).
Proof.
  induction 1 as [|c tl Hc Htl IH]; simpl; auto.
  destruct (p c); auto.
Qed.

Lemma Forall_skipn_str {P : char -> Prop} : forall n (s : str),
  Forall P s -> Forall P (skipn n s).
Proof.
  induction n as [|n IH]; intros [|c tl] Hs; simpl; auto.
  inversion Hs; subst. auto.
Qed.

Lemma Forall_trim {P : char -> Prop} : forall s,
  Forall P s -> Forall P (trim s).
Proof.
  intros s Hs. unfold trim, trimEnd, trimStart.
  apply Forall_rev, Forall_dropWhile, Forall_rev, Forall_dropWhile, Hs.
Qed.

Lemma getThreadTitle_single_line : forall documentTitle,
  single_line documentTitle -> single_line (getThreadTitle documentTitle).
Proof.
  intros dt Hdt. unfold getThreadTitle.
  assert (Hstrip : single_line (strip_gemini (trim dt))).
  { unfold strip_gemini. apply Forall_trim in Hdt.
    destruct (startsWith _ _); auto.
    pose proof (Forall_dropWhile is_space _
                  (Forall_skipn_str 6 _ Hdt)) as Hd.
    destruct (dropWhile is_space (skipn 6 (trim dt))) as [|c rest]; auto.
    destruct (c =? 45)%N; auto.
    inversion Hd; subst. now apply Forall_dropWhile. }
  apply Forall_trim in Hstrip.
  destruct (trim (strip_gemini (trim dt))); simpl; auto.
  repeat constructor; discriminate.
Qed.

Lemma getThreadTitle_last : forall documentTitle,
  exists c r,
    rev (getThreadTitle documentTitle) = c :: r /\ is_space c = false.
Proof.
  intros dt. unfold getThreadTitle.
  destruct (trim (strip_gemini (trim dt))) as [|x t] eqn:E.
  - simpl. eexists _, _. split; reflexivity.
  - cbn [first_nonempty]. apply trimEnd_fixed_last.
    + rewrite <- E. apply trimEnd_trim.
    + discriminate.
Qed.

Lemma trimEnd_snoc : forall a c,
  is_space c = true -> trimEnd (a ++ [c]) = trimEnd a.
Proof.
  intros a c Hc. unfold trimEnd. rewrite rev_app_distr. simpl.
  now rewrite Hc.
Qed.

Lemma cleanup_two_turn : forall title,
  single_line title ->
  (exists c r, rev title = c :: r /\ is_space c = false) ->
  cleanupMarkdown (two_turn_document title ++ [LF]) = two_turn_document title.
Proof.
  intros title Hline (c & r & Hrev & Hc).
  assert (Hhead : single_line (lit "# " ++ title)).
  { apply Forall_app. split; auto. repeat constructor; discriminate. }
  assert (Hlast : exists c r, rev (lit "# " ++ title) = c :: r
                              /\ is_blank c = false).
  { exists c. rewrite rev_app_distr, Hrev. eexists. split; [reflexivity|].
    destruct (is_blank c) eqn:E; auto.
    apply is_blank_is_space in E. congruence. }
  unfold two_turn_document. rewrite !app_assoc.
  rewrite <- (app_assoc _ two_turn_body [LF]).
  rewrite cleanupMarkdown_clean.
  - unfold trim. replace (trimStart ((lit "# " ++ title) ++ two_turn_body ++ [LF]))
      with ((lit "# " ++ title) ++ two_turn_body ++ [LF]) by reflexivity.
    rewrite app_assoc, trimEnd_snoc by reflexivity.
    apply trimEnd_app_fixed; [reflexivity | discriminate].
  - apply Forall_app. split; [now apply single_line_no_cr|].
    unfold two_turn_body. simpl. repeat (constructor; [discriminate|]).
    constructor.
  - apply single_line_app_blank; auto.
    unfold two_turn_body. simpl. repeat (split; [reflexivity|]). exact I.
  - apply single_line_app_runs; auto.
    unfold two_turn_body. simpl. repeat (split; [lia|]). exact I.
Qed.

Lemma two_turn_join : forall title,
  join [LF]
    ([lit "# " ++ title; []]
     ++ [lit "## " ++ lit "User"; lit "Hello"; []; lit "---"; []]
     ++ [lit "## " ++ lit "Gemini"; lit "Hi there"; []; lit "---"; []])
  = two_turn_document title ++ [LF].
Proof.
  intros title. unfold two_turn_document, two_turn_body.
  cbn [join app]. rewrite <- !app_assoc. reflexivity.
Qed.

(** C3.  On a Gemini page whose conversation root holds one user turn
    rendered as [Hello] and then one assistant turn rendered as
    [Hi there], the extraction returns the title line, a blank line, and
    for each turn its heading, its body, a blank line, the rule and a
    blank line, the white space at the end trimmed.  The same holds when
    canvases are asked for and none is found nor referenced. *)
Theorem two_turn_extraction : forall (H : Host) (s : St) root user assistant,
  let pg := document (host s) in
  let expected :=
    Markdown (two_turn_document (getThreadTitle (documentTitle pg))) in
  endsWith (hostname pg) (lit "gemini.google.com") = true ->
  search_root pg = Some root ->
  collectConversationNodes root = [user; assistant] ->
  getSpeaker (snd user) = lit "User" ->
  getSpeaker (snd assistant) = lit "Gemini" ->
  trim (htmlToMarkdown (newURL (host s))
          (Some (getBestContentNode (snd user)))) = lit "Hello" ->
  trim (htmlToMarkdown (newURL (host s))
          (Some (getBestContentNode (snd assistant)))) = lit "Hi there" ->
  single_line (documentTitle pg) ->
  extractMarkdownFromPage false s = (Normal expected, s)
  /\ (forall s1 s2,
        extractAllCanvasContent root s = (Normal [], s1) ->
        call (checkForCanvasReference root) s1 = (Normal false, s2) ->
        extractMarkdownFromPage true s = (Normal expected, s2)).
Proof.
  intros H s root user assistant pg expected
         Hhost Hroot Hnodes Huser Hmodel Hhello Hhi Htitle.
  assert (Hclean :
    cleanupMarkdown
      (join [LF]
         ([lit "# " ++ getThreadTitle (documentTitle pg); []]
          ++ List.concat
               (List.map (turn_lines (newURL (host s))) [user; assistant])))
    = two_turn_document (getThreadTitle (documentTitle pg))).
  { cbn [List.map List.concat]. unfold turn_lines.
    rewrite Hhello, Hhi, Huser, Hmodel. cbn [lit app].
    rewrite app_nil_r.
    change (lit "Hello") with (N_of_ascii "H"%char :: lit "ello").
    change (lit "Hi there") with (N_of_ascii "H"%char :: lit "i there").
    cbv iota.
    rewrite <- (cleanup_two_turn (getThreadTitle (documentTitle pg)));
      [ | now apply getThreadTitle_single_line | apply getThreadTitle_last ].
    rewrite <- two_turn_join. reflexivity. }
  split.
  - unfold extractMarkdownFromPage, catch. fold pg.
    rewrite Hhost, Hroot, Hnodes. cbn [negb].
    unfold bind, ret. now rewrite Hclean.
  - intros s1 s2 Hcanvas Href.
    unfold extractMarkdownFromPage, catch. fold pg.
    rewrite Hhost, Hroot, Hnodes. cbn [negb].
    unfold bind at 1. unfold bind at 1. rewrite Hcanvas.
    unfold bind at 1. rewrite Href. unfold ret. now rewrite Hclean.
Qed.

Lemma two_turn_extraction_witness :
  let s := start_state (still_host greeting_page) tt in
  @extractMarkdownFromPage (still_host greeting_page) false s
  = (Normal
       (Markdown
          (lit "# Greeting" ++ [LF; LF] ++ lit "## User" ++ [LF]
             ++ lit "Hello" ++ [LF; LF] ++ lit "---" ++ [LF; LF]
             ++ lit "## Gemini" ++ [LF] ++ lit "Hi there" ++ [LF; LF]
             ++ lit "---")),
     s).
Proof.
  intros s.
  destruct (two_turn_extraction (still_host greeting_page) s greeting_main
              ([0], greeting_user) ([1], greeting_model)) as [Hplain _].
  - reflexivity.
  - reflexivity.
  - reflexivity.
  - reflexivity.
  - reflexivity.
  - reflexivity.
  - reflexivity.
  - simpl. repeat (constructor; [split; discriminate|]). constructor.
  - exact Hplain.
Defined.

(** ** The poller *)

Section Polling.

Context {H : Host} {A : Type}.
Variable truthy : A -> bool.
Variable fn : M A.
Variable start timeout : Z.
Variable interval : positive.

Lemma waitFor_loop_normal : forall rounds s,
  exists r s',
    waitFor_loop truthy fn start timeout interval rounds s = (Normal r, s').
Proof.
  induction rounds as [|rounds IH]; intros s; simpl.
  - eauto.
  - destruct (clock s - start <? timeout)%Z; [|eauto].
    destruct (fn s) as [[v|e] s1]; [|apply IH].
    destruct (truthy v); [eauto | apply IH].
Qed.

Lemma sleep_clock : forall s,
  (clock s + 1 <= clock (sleep interval s))%Z.
Proof. intros s. unfold sleep. simpl. lia. Qed.

Hypothesis fn_clock : forall s, (clock s <= clock (snd (fn s)))%Z.

Lemma waitFor_loop_polls : forall rounds s,
  (timeout - (clock s - start) <= Z.of_nat rounds)%Z ->
  exists r s',
    waitFor_loop truthy fn start timeout interval rounds s = (Normal r, s')
    /\ polls truthy fn start timeout interval s r s'.
Proof.
  induction rounds as [|rounds IH]; intros s Hleft; simpl.
  - exists None, s. split; auto. apply polls_timeout. lia.
  - destruct (Z.ltb_spec (clock s - start) timeout) as [Hlt|Hge].
    + pose proof (fn_clock s) as Hfn.
      destruct (fn s) as [[v|e] s1] eqn:Efn; simpl in Hfn.
      * destruct (truthy v) eqn:Ev.
        -- exists (Some v), s1. split; auto. now apply polls_truthy.
        -- destruct (IH (sleep interval s1)) as (r & s2 & Hrun & Hpolls).
           { pose proof (sleep_clock s1). lia. }
           exists r, s2. split; auto. eapply polls_falsy; eauto.
      * destruct (IH (sleep interval s1)) as (r & s2 & Hrun & Hpolls).
        { pose proof (sleep_clock s1). lia. }
        exists r, s2. split; auto. eapply polls_thrown; eauto.
    + exists None, s. split; auto. now apply polls_timeout.
Qed.

Lemma polls_result : forall s r s',
  polls truthy fn start timeout interval s r s' ->
  match r with
  | Some v => truthy v = true /\ exists s0, fst (fn s0) = Normal v
  | None => (timeout <= clock s' - start)%Z
  end.
Proof.
  induction 1 as [s Hs|s v s1 Hs Hfn Hv|s v s1 r s2 Hs Hfn Hv Hrest IH
                  |s e s1 r s2 Hs Hfn Hrest IH]; auto.
  split; auto. exists s. now rewrite Hfn.
Qed.

End Polling.

(** C6.  [waitFor] never throws, whatever the condition does.  When time
    does not run backwards while the condition is evaluated, [waitFor]
    runs the polling loop to its end: it evaluates the condition until a
    value is truthy and returns that value, takes a falsy value or an
    exception of the condition as not ready yet, and returns [null] once
    the timeout has elapsed. *)
Theorem waitFor_contract :
  forall (H : Host) (A : Type) (truthy : A -> bool) (fn : M A)
         (timeout : Z) (interval : positive) (s : St),
  (exists r s', waitFor truthy fn timeout interval s = (Normal r, s'))
  /\ ((forall s0, (clock s0 <= clock (snd (fn s0)))%Z) ->
      exists r s',
        waitFor truthy fn timeout interval s = (Normal r, s')
        /\ polls truthy fn (clock s) timeout interval s r s'
        /\ match r with
           | Some v => truthy v = true /\ exists s0, fst (fn s0) = Normal v
           | None => (timeout <= clock s' - clock s)%Z
           end).
Proof.
  intros H A truthy fn timeout interval s. split.
  - apply waitFor_loop_normal.
  - intros Hclock. unfold waitFor.
    destruct (waitFor_loop_polls truthy fn (clock s) timeout interval Hclock
                (Z.to_nat timeout) s) as (r & s' & Hrun & Hpolls).
    { lia. }
    exists r, s'. split; auto. split; auto.
    now apply polls_result with (s := s) (interval := interval).
Qed.

(** ** What a computation leaves alone *)

Section Frames.

Context {H : Host}.

Variable P : locals -> list event -> Prop.

Lemma keeps_ret : forall A (a : A), keeps P (ret a).
Proof. intros A a s Hs. exact Hs. Qed.

Lemma keeps_bind : forall A B (m : M A) (k : A -> M B),
  keeps P m -> (forall a, keeps P (k a)) -> keeps P (bind m k).
Proof.
  intros A B m k Hm Hk s Hs. unfold bind.
  specialize (Hm s Hs). destruct (m s) as [[a|e] s1]; simpl in *; auto.
  now apply Hk.
Qed.

Lemma keeps_catch : forall A (m : M A) (h : exn -> M A),
  keeps P m -> (forall e, keeps P (h e)) -> keeps P (catch m h).
Proof.
  intros A m h Hm Hh s Hs. unfold catch.
  specialize (Hm s Hs). destruct (m s) as [[a|e] s1]; simpl in *; auto.
  now apply Hh.
Qed.

Lemma keeps_call : forall A (f : W -> completion A * W), keeps P (call f).
Proof.
  intros A f s Hs. unfold call. destruct (f (host s)) as [r w]. exact Hs.
Qed.

Lemma keeps_Date_now : keeps P Date_now.
Proof. intros s Hs. exact Hs. Qed.

Lemma keeps_get_vars : keeps P get_vars.
Proof. intros s Hs. exact Hs. Qed.

Lemma keeps_console_warn : keeps P console_warn.
Proof. apply keeps_ret. Qed.

Lemma keeps_waitFor_loop :
  forall A (truthy : A -> bool) (fn : M A) start timeout interval,
  keeps P fn ->
  forall rounds, keeps P (waitFor_loop truthy fn start timeout interval rounds).
Proof.
  intros A truthy fn start timeout interval Hfn.
  induction rounds as [|rounds IH]; intros s Hs; simpl; auto.
  destruct (clock s - start <? timeout)%Z; auto.
  specialize (Hfn s Hs). destruct (fn s) as [[v|e] s1]; simpl in Hfn.
  - destruct (truthy v); auto.
  - now apply IH.
Qed.

Lemma keeps_waitFor :
  forall A (truthy : A -> bool) (fn : M A) timeout interval,
  keeps P fn -> keeps P (waitFor truthy fn timeout interval).
Proof.
  intros A truthy fn timeout interval Hfn s Hs. unfold waitFor.
  now apply keeps_waitFor_loop.
Qed.

End Frames.

Create HintDb keeps.

#[local] Hint Resolve keeps_ret keeps_call keeps_Date_now keeps_get_vars
  keeps_console_warn : keeps.

Ltac keeps_step :=
  match goal with
  | |- keeps _ (bind _ _) => apply keeps_bind; [|intros ?]
  | |- keeps _ (catch _ _) => apply keeps_catch; [|intros ?]
  | |- keeps _ (waitFor _ _ _ _) => apply keeps_waitFor
  | |- keeps _ (when ?b _) => unfold when; destruct b
  | |- keeps _ (if ?b then _ else _) => destruct b
  | |- keeps _ (match ?x with _ => _ end) => destruct x
  | |- keeps _ _ => solve [auto with keeps]
  end.

Ltac keeps_all := repeat keeps_step.

Section FrameOfHelpers.

Context {H : Host}.
Variable P : locals -> list event -> Prop.

Lemma keeps_visible : forall el, keeps P (visible el).
Proof. intros el. unfold visible. keeps_all. Qed.
Hint Resolve keeps_visible : keeps.

Lemma keeps_isFileListVisible : forall root, keeps P (isFileListVisible root).
Proof. intros root. unfold isFileListVisible. keeps_all. Qed.
Hint Resolve keeps_isFileListVisible : keeps.

Lemma keeps_isImmersivePanelOpen : keeps P isImmersivePanelOpen.
Proof. unfold isImmersivePanelOpen. keeps_all. Qed.
Hint Resolve keeps_isImmersivePanelOpen : keeps.

Lemma keeps_ensureSidebarOpen : forall root, keeps P (ensureSidebarOpen root).
Proof. intros root. unfold ensureSidebarOpen. keeps_all. Qed.
Hint Resolve keeps_ensureSidebarOpen : keeps.

Lemma keeps_closeImmersivePanel : keeps P closeImmersivePanel.
Proof. unfold closeImmersivePanel. keeps_all. Qed.
Hint Resolve keeps_closeImmersivePanel : keeps.

Lemma keeps_waitListVisible : forall root, keeps P (waitListVisible root).
Proof. intros root. unfold waitListVisible. keeps_all. Qed.
Hint Resolve keeps_waitListVisible : keeps.

Lemma keeps_ensureFileListVisible : forall root,
  keeps P (ensureFileListVisible root).
Proof. intros root. unfold ensureFileListVisible. keeps_all. Qed.
Hint Resolve keeps_ensureFileListVisible : keeps.

Lemma keeps_getCanvasContent : forall titleFallback,
  keeps P (getCanvasContent titleFallback).
Proof. intros t. unfold getCanvasContent. keeps_all. Qed.
Hint Resolve keeps_getCanvasContent : keeps.

Lemma keeps_closeSidebar : keeps P closeSidebar.
Proof. unfold closeSidebar. keeps_all. Qed.
Hint Resolve keeps_closeSidebar : keeps.

Lemma keeps_restoreOpenSidebar : forall root st,
  keeps P (restoreOpenSidebar root st).
Proof. intros root st. unfold restoreOpenSidebar. keeps_all. Qed.
Hint Resolve keeps_restoreOpenSidebar : keeps.

Lemma keeps_selectCodeTab : keeps P selectCodeTab.
Proof. unfold selectCodeTab. keeps_all. Qed.

Lemma keeps_poll_content : forall title remainingMs,
  keeps P (poll_content title remainingMs).
Proof. intros title remainingMs. unfold poll_content. keeps_all. Qed.

(** The steps of [restoreUiState] inside its [try]. *)
Lemma keeps_restore_steps : forall root (state : option snapshot),
  keeps P
    (bind
       match field state (@windowScroll _) None with
       | Some (x, y) => call (window_scrollTo x y)
       | None => ret tt
       end
       (fun _ =>
          if negb (field state (@sidebarWasOpen _) false)
          then
            bind closeSidebar
              (fun _ =>
                 when (negb (field state (@immersivePanelOpen _) false))
                   (bind closeImmersivePanel (fun _ => ret tt)))
          else
            bind
              match state with
              | Some st => restoreOpenSidebar root st
              | None => ret tt
              end
              (fun _ =>
                 when (negb (field state (@immersivePanelOpen _) false))
                   (bind closeImmersivePanel (fun _ => ret tt))))).
Proof. intros root state. keeps_all. Qed.

End FrameOfHelpers.

(** ** Restoring the page *)

Lemma restoreUiState_normal :
  forall (H : Host) root (state : option snapshot) (s : St),
  exists s',
    restoreUiState root state s = (Normal tt, s')
    /\ vars s' = vars s
    /\ trace s' = EvRestore :: trace s.
Proof.
  intros H root state s. unfold restoreUiState.
  unfold bind at 1, mark.
  set (s1 := {| host := host s; clock := clock s; vars := vars s;
                trace := EvRestore :: trace s |}).
  pose proof (keeps_restore_steps
                (fun v t => v = vars s /\ t = EvRestore :: trace s)
                root state s1 (conj eq_refl eq_refl)) as Hkeep.
  unfold catch.
  match goal with
  | |- context [match ?body s1 with _ => _ end] =>
      change (vars (snd (body s1)) = vars s
              /\ trace (snd (body s1)) = EvRestore :: trace s) in Hkeep;
      destruct (body s1) as [[[]|e] s2]
  end; simpl in Hkeep; destruct Hkeep as [Hv Ht].
  - exists s2. auto.
  - exists s2. unfold console_warn, ret. auto.
Qed.

(** C7.  [restoreUiState] returns normally for every snapshot (a [null]
    one included) and every behaviour of the page: an exception of any
    step is caught and logged.  It leaves the results of the extraction
    alone. *)
Theorem restoreUiState_never_throws :
  forall (H : Host) root (state : option snapshot) (s : St),
  exists s',
    restoreUiState root state s = (Normal tt, s')
    /\ results (vars s') = results (vars s).
Proof.
  intros H root state s.
  destruct (restoreUiState_normal H root state s) as (s' & Hrun & Hv & _).
  exists s'. split; auto. now rewrite Hv.
Qed.

(** ** The canvas loop *)

Section LoopFrames.

Context {H : Host}.
Variable t0 : list event.

Hint Resolve keeps_ensureFileListVisible keeps_ensureSidebarOpen
  keeps_getCanvasContent keeps_selectCodeTab keeps_poll_content : keeps.

Lemma tracked_push : forall content, keeps (tracked t0) (push_result content).
Proof.
  intros content s Hs. unfold tracked in *. simpl.
  rewrite rev_app_distr. simpl. now rewrite Hs.
Qed.

Lemma tracked_add_processed : forall title,
  keeps (tracked t0) (add_processed title).
Proof. intros title s Hs. exact Hs. Qed.

Lemma tracked_set_everOpenedEditor : forall b,
  keeps (tracked t0) (set_everOpenedEditor b).
Proof. intros b s Hs. exact Hs. Qed.

Hint Resolve tracked_push tracked_add_processed tracked_set_everOpenedEditor
  : keeps.

Lemma tracked_after_content : forall root title content,
  keeps (tracked t0) (after_content root title content).
Proof. intros root title content. unfold after_content. keeps_all. Qed.
Hint Resolve tracked_after_content : keeps.

Lemma tracked_loop_body : forall root totalStart title,
  keeps (tracked t0) (loop_body root totalStart title).
Proof. intros root totalStart title. unfold loop_body. keeps_all. Qed.
Hint Resolve tracked_loop_body : keeps.

Lemma tracked_for_titles : forall root totalStart titles,
  keeps (tracked t0) (for_titles root totalStart titles).
Proof.
  intros root totalStart. induction titles as [|title rest IH];
    cbn [for_titles]; keeps_all.
Qed.
Hint Resolve tracked_for_titles : keeps.

Lemma tracked_extract_phase : forall root totalStart,
  keeps (tracked t0) (extract_phase root totalStart).
Proof. intros root totalStart. unfold extract_phase. keeps_all. Qed.

End LoopFrames.

Lemma catch_warn_normal : forall (H : Host) (m : M unit) (s : St),
  exists s', catch m (fun _ => console_warn) s = (Normal tt, s').
Proof.
  intros H m s. unfold catch.
  destruct (m s) as [[[]|e] s1].
  - now exists s1.
  - exists s1. reflexivity.
Qed.

Lemma restores_pushes : forall l t,
  restores (List.map EvPush l ++ t) = restores t.
Proof. induction l as [|c l IH]; intros t; simpl; auto. Qed.

(** C8.  Once the snapshot is taken, [extractAllCanvasContent] returns
    normally however its loop ends: the trace of the call is the pushes
    onto [results], then one call of [restoreUiState], and the sequence
    returned is made of the pushed contents, in order. *)
Theorem extraction_restores_once :
  forall (H : Host) root (s : St) uiState w,
  captureUiState root (host s) = (Normal uiState, w) ->
  exists res s',
    extractAllCanvasContent root s = (Normal res, s')
    /\ trace s' = EvRestore :: List.map EvPush (rev res) ++ trace s
    /\ restores (trace s') = restores (trace s) + 1
    /\ (forall content, In (EvPush content) (List.map EvPush (rev res))
                        -> In content res).
Proof.
  intros H root s uiState w Hcap.
  unfold extractAllCanvasContent.
  unfold bind at 1. unfold call at 1. rewrite Hcap.
  unfold bind at 1, set_vars at 1. unfold bind at 1, Date_now at 1.
  cbn [host clock vars trace].
  set (totalStart := (clock s + Z.of_N (elapsed w))%Z).
  set (s2 := {| host := w; clock := totalStart;
                vars := {| results := []; processedTitles := [];
                           everOpenedEditor := false |};
                trace := trace s |}).
  destruct (catch_warn_normal H (extract_phase root totalStart) s2)
    as (s3 & Hphase).
  pose proof (keeps_catch (tracked (trace s)) _
                (extract_phase root totalStart) (fun _ => console_warn)
                (tracked_extract_phase (trace s) root totalStart)
                (fun _ => keeps_console_warn _) s2 eq_refl) as Htracked.
  rewrite Hphase in Htracked. cbn [snd] in Htracked.
  destruct (restoreUiState_normal H root (Some uiState) s3)
    as (s4 & Hrestore & Hv & Ht).
  unfold finally, bind at 1. rewrite Hphase.
  unfold bind, get_vars, ret. rewrite Hrestore.
  exists (results (vars s3)), s4.
  unfold tracked in Htracked.
  split; [reflexivity|]. split; [now rewrite Ht, Htracked|]. split.
  - rewrite Ht, Htracked. simpl. rewrite restores_pushes. lia.
  - intros content Hin. apply in_map_iff in Hin.
    destruct Hin as (c & E & Hc). injection E as ->. now apply in_rev.
Qed.

Section FailureFrames.

Context {H : Host}.

Lemma vars_kept : forall A (m : M A) (s : St) r s',
  (forall v, keeps (fun v' _ => v' = v) m) ->
  m s = (r, s') -> vars s' = vars s.
Proof.
  intros A m s r s' Hkeep Hrun.
  specialize (Hkeep (vars s) s eq_refl). now rewrite Hrun in Hkeep.
Qed.

Lemma for_titles_step : forall root totalStart title rest s c s',
  (clock s - totalStart <= MAX_TOTAL_MS)%Z ->
  loop_body root totalStart title s = (Normal c, s') ->
  for_titles root totalStart (title :: rest) s =
  match c with
  | Next => for_titles root totalStart rest s'
  | Break => (Normal tt, s')
  end.
Proof.
  intros root totalStart title rest s c s' Hbudget Hbody.
  cbn [for_titles]. unfold bind at 1, Date_now at 1.
  destruct (Z.gtb_spec (clock s - totalStart) MAX_TOTAL_MS) as [Hgt|_];
    [lia|].
  unfold bind. rewrite Hbody. destruct c; reflexivity.
Qed.

End FailureFrames.


(** ** Runs on the sample pages *)

Lemma waitFor_contract_witness :
  let H := vanishing_host in
  let fn : M (option (str * str)) := call getMonacoModelContent in
  let s := start_state H
             {| opened := Some (lit "a.py"); list_shown := true; reads := 0 |} in
  (forall s0 : St, (clock s0 <= clock (snd (fn s0)))%Z)
  /\ exists s',
       waitFor is_some fn 1500 100 s
       = (Normal (Some (Some (lit "print(1)", []))), s')
       /\ clock s' = 200%Z.
Proof.
  intros H fn s.
  assert (Hclock : forall s0 : St, (clock s0 <= clock (snd (fn s0)))%Z).
  { intros s0. unfold fn, call. simpl. lia. }
  split; [exact Hclock|].
  destruct (waitFor_contract H _ is_some fn 1500 100 s) as [_ Hrun].
  destruct (Hrun Hclock) as (r & s' & Hw & _ & _).
  exists s'. rewrite Hw.
  assert (Hc : waitFor is_some fn 1500 100 s
               = (Normal (Some (Some (lit "print(1)", []))),
                  {| host := {| opened := Some (lit "a.py");
                                list_shown := true; reads := 3 |};
                     clock := 200; vars := vars s; trace := [] |}))
    by (vm_compute; reflexivity).
  rewrite Hc in Hw. injection Hw as <- <-. split; reflexivity.
Defined.

(** The list disappears after the first file: the loop is left, the file
    read before is returned and the page is restored once, although the
    first step of the restoration throws. *)
Lemma extraction_restores_once_witness :
  let H := vanishing_host in
  let s := start_state H list_page in
  captureUiState greeting_main (host s) = (Normal closed_snapshot, list_page)
  /\ fst (extractAllCanvasContent greeting_main s) = Normal [canvas_of_a]
  /\ trace (snd (extractAllCanvasContent greeting_main s))
     = [EvRestore; EvPush canvas_of_a].
Proof.
  intros H s.
  assert (Hcap : captureUiState greeting_main (host s)
                 = (Normal closed_snapshot, list_page)) by reflexivity.
  split; [exact Hcap|].
  destruct (extraction_restores_once H greeting_main s closed_snapshot
              list_page Hcap) as (res & s' & Hrun & Htrace & _).
  assert (Hres : fst (extractAllCanvasContent greeting_main s)
                 = Normal [canvas_of_a]) by (vm_compute; reflexivity).
  split; [exact Hres|].
  rewrite Hrun in Hres. cbn [fst] in Hres. injection Hres as ->.
  rewrite Hrun. cbn [snd]. rewrite Htrace. reflexivity.
Defined.

Lemma restoreUiState_catches :
  let H := vanishing_host in
  let s := start_state H list_page in
  fst (call (window_scrollTo 0%Z 0%Z) s)
  = Throw (Exn (lit "scrollTo is not a function"))
  /\ fst (restoreUiState greeting_main (Some closed_snapshot) s) = Normal tt.
Proof. split; reflexivity. Qed.


(** ** Sample runs *)

Example cleanupMarkdown_sample :
  cleanupMarkdown
    ([SP] ++ lit "a" ++ [SP; TAB; CR; LF; CR; LF; CR; CR] ++ lit "b" ++ [SP; LF])
  = lit "a" ++ [LF; LF] ++ lit "b".
Proof. vm_compute. reflexivity. Qed.

Example cleanupMarkdownInline_sample :
  cleanupMarkdownInline (lit "a" ++ [SP; LF; LF; TAB; LF] ++ lit "b")
  = lit "a" ++ [LF] ++ lit "b".
Proof. vm_compute. reflexivity. Qed.

(** A code block that holds backticks: the fence is longer than the
    longest run. *)
Example pre_sample :
  convertNode keep_url
    (Elem (lit "pre") [] []
       [ Elem (lit "code") [(lit "class", lit "hljs language-js")] []
           [ Text (lit "a ```` b" ++ [LF; LF]) ] ])
    top_ctx
  = [LF] ++ lit "`````js" ++ [LF] ++ lit "a ```` b" ++ [LF] ++ lit "`````"
      ++ [LF; LF].
Proof. vm_compute. reflexivity. Qed.

Example ordered_list_sample :
  convertNode keep_url
    (Elem (lit "ol") [] []
       [ li_of [ Text (lit "one");
                 Elem (lit "ol") [] [] [ li_of [Text (lit "inner")] ] ];
         Text (lit " ");
         li_of [ Text (lit "two") ] ])
    top_ctx
  = lit "1. one" ++ [LF] ++ lit "  1. inner" ++ [LF] ++ lit "2. two"
      ++ [LF; LF].
Proof. vm_compute. reflexivity. Qed.

(** After a first file was read, a file that shows no content is skipped
    and the next one is read. *)
Example skip_after_success :
  let H := editor_host [lit "a.py"; lit "bad"; lit "c.js"]
             (fun t => negb (Js.eqb t (lit "bad"))) true in
  fst (extractAllCanvasContent greeting_main (start_state H list_page))
  = Normal
      [ canvas_of_a;
        lit "## Canvas: c.js" ++ [LF; LF] ++ lit "```javascript" ++ [LF]
          ++ lit "print(1)" ++ [LF] ++ lit "```" ].
Proof. vm_compute. reflexivity. Qed.

(** The first file shows no content: the loop is left and the second
    file is not opened. *)
Example abort_on_first_failure :
  let H := flaky_host in
  let r := extractAllCanvasContent greeting_main (start_state H list_page) in
  fst r = Normal []
  /\ opened (host (snd r)) = Some (lit "bad")
  /\ trace (snd r) = [EvRestore].
Proof. vm_compute. repeat split; reflexivity. Qed.

(** * Further properties of the renderer *)

(** ** Code texts *)

Lemma span_len_nth : forall p s d,
  nth_error s (span_len p s) = Some d -> p d = false.
Proof.
  induction s as [|c tl IH]; intros d; simpl; [discriminate|].
  destruct (p c) eqn:E; simpl; auto.
  intros H. injection H as <-. exact E.
Qed.

Lemma span_len_full : forall p s,
  nth_error s (span_len p s) = None -> forallb p s = true.
Proof.
  induction s as [|c tl IH]; simpl; auto.
  destruct (p c); simpl; auto. discriminate.
Qed.

Lemma dropWhile_all : forall p s, forallb p s = true -> dropWhile p s = [].
Proof.
  induction s as [|c tl IH]; simpl; auto.
  destruct (p c); simpl; auto. discriminate.
Qed.

Lemma dropWhile_app_keep : forall p l r,
  dropWhile p l <> [] -> dropWhile p (l ++ r) = dropWhile p l ++ r.
Proof.
  induction l as [|c l IH]; intros r Hne; simpl in *; [contradiction|].
  destruct (p c); auto.
Qed.

Lemma forallb_rev : forall (p : char -> bool) s,
  forallb p (rev s) = forallb p s.
Proof.
  induction s as [|c tl IH]; simpl; auto.
  rewrite forallb_app, IH. simpl. rewrite andb_true_r. apply andb_comm.
Qed.

(** [replace(/\n+$/g, "")] strips the line feeds at the end. *)
Lemma strip_lf_end : forall s,
  replace_all re_lf_end [] s = rev (dropWhile is_lf (rev s)).
Proof.
  induction s as [|c tl IH]; [reflexivity|].
  destruct (re_lf_end (c :: tl)) as [[|n]|] eqn:Em.
  - exfalso. unfold re_lf_end in Em.
    destruct (span_len is_lf (c :: tl)); [discriminate|].
    destruct (nth_error _ _); discriminate.
  - rewrite (replace_all_hit _ _ _ _ _ Em).
    unfold re_lf_end in Em.
    destruct (span_len is_lf (c :: tl)) as [|k] eqn:Ek; [discriminate|].
    destruct (nth_error (c :: tl) (S k)) eqn:En; [discriminate|].
    injection Em as <-.
    assert (Hall : forallb is_lf (c :: tl) = true).
    { apply span_len_full. now rewrite Ek. }
    rewrite dropWhile_all by now rewrite forallb_rev.
    apply nth_error_None in En. simpl in En.
    rewrite skipn_all2 by lia. reflexivity.
  - rewrite replace_all_miss by assumption. rewrite IH.
    cbn [rev]. destruct (is_lf c) eqn:Ec.
    + rewrite dropWhile_app_keep; [now rewrite rev_app_distr|].
      intros Hnil.
      assert (Hall : forallb is_lf tl = true).
      { rewrite <- forallb_rev.
        clear - Hnil. induction (rev tl) as [|d l IHl]; simpl in *; auto.
        destruct (is_lf d); [auto | discriminate]. }
      unfold re_lf_end in Em. cbn [span_len] in Em. rewrite Ec in Em.
      cbn [nth_error] in Em.
      destruct (nth_error tl (span_len is_lf tl)) as [d|] eqn:En;
        [|discriminate].
      pose proof (span_len_nth _ _ _ En) as Hd.
      apply nth_error_In in En.
      rewrite forallb_forall in Hall. rewrite (Hall d En) in Hd. discriminate.
    + rewrite dropWhile_snoc by assumption. now rewrite rev_app_distr.
Qed.

Lemma re_lf_end_fixed : forall s,
  dropWhile is_lf (rev s) = rev s -> replace_all re_lf_end [] s = s.
Proof.
  intros s Hs. rewrite strip_lf_end, Hs. apply rev_involutive.
Qed.

Lemma startsWith_single : forall x c r,
  startsWith (c :: r) [x] = (x =? c)%N.
Proof. intros x c r. destruct r; simpl; apply andb_true_r. Qed.

Lemma endsWith_lf : forall s,
  endsWith s [LF] = false <-> dropWhile is_lf (rev s) = rev s.
Proof.
  intros s. unfold endsWith. cbn [rev app].
  destruct (rev s) as [|c r]; [simpl; tauto|].
  rewrite startsWith_single. cbn [dropWhile].
  unfold is_lf. rewrite N.eqb_sym.
  destruct (c =? LF)%N eqn:E; split; intros H; auto; try discriminate.
  exfalso. pose proof (dropWhile_length is_lf r) as Hlen.
  unfold is_lf in Hlen. rewrite H in Hlen. simpl in Hlen. lia.
Qed.

(** X1.  The text of a code block is normalised: [normalizeCode] leaves no
    carriage return and no line feed at the end, it leaves a text that has
    neither as it is, and so it is idempotent. *)
Theorem normalizeCode_normal : forall code,
  no_cr (normalizeCode code)
  /\ endsWith (normalizeCode code) [LF] = false
  /\ (no_cr code -> endsWith code [LF] = false -> normalizeCode code = code)
  /\ normalizeCode (normalizeCode code) = normalizeCode code.
Proof.
  assert (Hfixed : forall code, no_cr code -> endsWith code [LF] = false ->
                                normalizeCode code = code).
  { intros code Hcr Hend. unfold normalizeCode.
    rewrite (replace_all_unmatched re_crlf) by now apply no_cr_unmatched_crlf.
    rewrite (replace_all_unmatched re_cr) by now apply no_cr_unmatched_cr.
    apply re_lf_end_fixed. now apply endsWith_lf. }
  assert (Hcr : forall code, no_cr (normalizeCode code)).
  { intros code. unfold normalizeCode. apply no_cr_replace; [constructor|].
    apply replace_cr_no_cr. }
  assert (Hend : forall code, endsWith (normalizeCode code) [LF] = false).
  { intros code. apply endsWith_lf. unfold normalizeCode.
    rewrite strip_lf_end, rev_involutive. apply dropWhile_idem. }
  intros code. repeat split; auto.
Qed.

Lemma normalizeCode_normal_witness :
  no_cr (lit "a" ++ [LF] ++ lit "b")
  /\ endsWith (lit "a" ++ [LF] ++ lit "b") [LF] = false
  /\ normalizeCode (lit "a" ++ [LF] ++ lit "b") = lit "a" ++ [LF] ++ lit "b"
  /\ normalizeCode (lit "a" ++ [CR; LF; CR] ++ lit "b" ++ [CR; LF; LF])
     = lit "a" ++ [LF; LF] ++ lit "b".
Proof.
  assert (Hcr : no_cr (lit "a" ++ [LF] ++ lit "b"))
    by (repeat constructor; discriminate).
  destruct (normalizeCode_normal (lit "a" ++ [LF] ++ lit "b"))
    as (_ & _ & Hfixed & _).
  split; [exact Hcr|]. split; [reflexivity|].
  split; [exact (Hfixed Hcr eq_refl) | reflexivity].
Defined.

(** ** Text nodes *)

(** X2.  [escapeText] turns every non-breaking space into a space and
    changes nothing else: the text keeps its length, no character is
    escaped, and a text node is rendered as that text. *)
Theorem escapeText_only_nbsp : forall text,
  escapeText text
  = List.map (fun c => if (c =? NBSP)%N then SP else c) text
  /\ List.length (escapeText text) = List.length text
  /\ Forall (fun c => c <> NBSP) (escapeText text)
  /\ (forall newURL c, convertNode newURL (Text text) c = escapeText text).
Proof.
  assert (Hmap : forall text,
            escapeText text
            = List.map (fun c => if (c =? NBSP)%N then SP else c) text).
  { unfold escapeText. induction text as [|c tl IH]; [reflexivity|].
    cbn [List.map]. destruct (c =? NBSP)%N eqn:E.
    - rewrite (replace_all_hit re_nbsp [SP] c tl 0)
        by (simpl; now rewrite E).
      cbn [skipn app]. now rewrite IH.
    - rewrite replace_all_miss by (simpl; now rewrite E).
      now rewrite IH. }
  intros text. split; [apply Hmap|]. split; [|split].
  - rewrite Hmap. apply length_map.
  - rewrite Hmap. apply Forall_forall. intros x Hx.
    apply in_map_iff in Hx. destruct Hx as (c & <- & _).
    destruct (N.eqb_spec c NBSP); [discriminate | assumption].
  - reflexivity.
Qed.

(** ** Inline code *)

Lemma replace_spaces_single : forall s,
  Forall (fun c => is_space c = true -> c = SP)
    (replace_all re_spaces [SP] s).
Proof.
  apply suffix_induction; [constructor|].
  intros c tl IH.
  destruct (re_spaces (c :: tl)) as [[|n]|] eqn:Em.
  - unfold re_spaces in Em.
    destruct (span_len is_space (c :: tl)); discriminate.
  - rewrite (replace_all_hit _ _ _ _ _ Em). constructor; auto.
  - rewrite replace_all_miss by assumption. constructor; [|apply (IH 0)].
    unfold re_spaces in Em. cbn [span_len] in Em.
    destruct (is_space c); [discriminate | discriminate].
Qed.

Lemma ticks_Forall : forall (P : char -> Prop) n,
  P BACKTICK -> Forall P (ticks n).
Proof.
  intros P n Hb. induction n as [|n IH]; [constructor|].
  change (ticks (S n)) with (BACKTICK :: ticks n). now constructor.
Qed.

(** X3.  Inline code stays on its line: in the rendering of a [code]
    element the only white space is the single space, so it holds no line
    break, no tabulation and no non-breaking space. *)
Theorem inline_code_single_line : forall newURL attrs disp children c,
  Forall (fun ch => is_space ch = true -> ch = SP)
    (convertNode newURL (Elem (lit "code") attrs disp children) c)
  /\ Forall (fun ch => ch <> LF /\ ch <> CR)
       (convertNode newURL (Elem (lit "code") attrs disp children) c).
Proof.
  intros newURL attrs disp children c.
  assert (H : Forall (fun ch => is_space ch = true -> ch = SP)
                (convertNode newURL (Elem (lit "code") attrs disp children) c)).
  { rewrite convertNode_code. cbv zeta.
    assert (Ht : Forall (fun ch => is_space ch = true -> ch = SP)
                   (code_text (Elem (lit "code") attrs disp children))).
    { unfold code_text. apply Forall_trim, replace_spaces_single. }
    destruct (code_text _) as [|x text] eqn:E; [constructor|].
    assert (Hf : Forall (fun ch => is_space ch = true -> ch = SP)
                   (makeInlineFence (x :: text))).
    { rewrite makeInlineFence_ticks. apply ticks_Forall. discriminate. }
    apply Forall_app. split; [exact Hf|].
    apply Forall_app. split; [exact Ht | exact Hf]. }
  split; [exact H|].
  eapply Forall_impl; [|exact H].
  intros ch Hch. split; intros ->; specialize (Hch eq_refl); discriminate.
Qed.

(** ** The language of a code block *)

Lemma firstn_span_Forall : forall p s,
  Forall (fun c => p c = true) (firstn (span_len p s) s).
Proof.
  induction s as [|c tl IH]; simpl; [constructor|].
  destruct (p c) eqn:E; simpl; auto.
Qed.

Lemma fromClass_chars : forall v,
  Forall (fun c => is_lang_char c = true) (fromClass v).
Proof.
  induction v as [|c tl IH]; [constructor|].
  cbn [fromClass]. destruct (startsWith _ _); auto.
  destruct (span_len is_lang_char (skipn 9 (c :: tl))) as [|n] eqn:E; auto.
  rewrite <- E. apply firstn_span_Forall.
Qed.

Lemma fromClass_absent : forall v,
  includes (lower_str v) (lit "language-") = false -> fromClass v = [].
Proof.
  induction v as [|c tl IH]; [reflexivity|].
  change (lower_str (c :: tl)) with (lower c :: lower_str tl).
  cbn [includes]. rewrite orb_false_iff. intros [Hs Hi].
  cbn [fromClass].
  change (lower_str (c :: tl)) with (lower c :: lower_str tl).
  rewrite Hs. auto.
Qed.

Lemma lang_char_not_space : forall c,
  is_lang_char c = true -> is_space c = false.
Proof.
  intros c H. apply not_true_iff_false. intros Hs.
  unfold is_lang_char in H. unfold is_space in Hs.
  repeat rewrite ?orb_true_iff, ?andb_true_iff in H.
  repeat rewrite ?orb_true_iff, ?andb_true_iff in Hs.
  rewrite ?N.leb_le, ?N.eqb_eq in H. rewrite ?N.leb_le, ?N.eqb_eq in Hs.
  lia.
Qed.

Lemma dropWhile_fixed : forall p s,
  Forall (fun c => p c = false) s -> dropWhile p s = s.
Proof.
  intros p s Hs. destruct Hs as [|c tl Hc _]; simpl; auto. now rewrite Hc.
Qed.

Lemma trim_fixed : forall s,
  Forall (fun c => is_space c = false) s -> trim s = s.
Proof.
  intros s Hs. unfold trim, trimStart, trimEnd.
  rewrite (dropWhile_fixed is_space s) by assumption.
  rewrite dropWhile_fixed by now apply Forall_rev.
  apply rev_involutive.
Qed.

Lemma fromClass_trimmed : forall v, trim (fromClass v) = fromClass v.
Proof.
  intros v. apply trim_fixed.
  eapply Forall_impl; [|apply fromClass_chars].
  apply lang_char_not_space.
Qed.

(** X4.  The language that [detectLanguage] reads in a class name is made
    of letters, digits, [_], [+] and [-] only, and there is none when no
    class name holds [language-]; the class of the [code] element is
    preferred to the class of the [pre] element, and both to the
    [data-language] attributes.  The language is trimmed. *)
Theorem detectLanguage_class : forall preEl codeEl,
  Forall (fun c => is_lang_char c = true) (fromClass (className codeEl))
  /\ (includes (lower_str (className codeEl)) (lit "language-") = false ->
      fromClass (className codeEl) = [])
  /\ (fromClass (className codeEl) <> [] ->
      detectLanguage preEl (Some codeEl) = fromClass (className codeEl))
  /\ (fromClass (className codeEl) = [] ->
      fromClass (className preEl) <> [] ->
      detectLanguage preEl (Some codeEl) = fromClass (className preEl))
  /\ trim (detectLanguage preEl (Some codeEl))
     = detectLanguage preEl (Some codeEl).
Proof.
  intros preEl codeEl. split; [apply fromClass_chars|].
  split; [apply fromClass_absent|]. split; [|split].
  - intros Hne. unfold detectLanguage.
    destruct (fromClass (className codeEl)) as [|x l] eqn:E; [contradiction|].
    cbn [first_nonempty]. rewrite <- E. apply fromClass_trimmed.
  - intros Hcode Hpre. unfold detectLanguage. rewrite Hcode.
    cbn [first_nonempty].
    destruct (fromClass (className preEl)) as [|x l] eqn:E; [contradiction|].
    cbn [first_nonempty]. rewrite <- E. apply fromClass_trimmed.
  - unfold detectLanguage. apply trim_idem.
Qed.

Lemma detectLanguage_class_witness :
  let preEl := Elem (lit "pre") [(lit "class", lit "language-text")] [] [] in
  let codeEl := Elem (lit "code") [(lit "class", lit "hljs Language-C++ x")] [] [] in
  fromClass (className codeEl) = lit "C++"
  /\ detectLanguage preEl (Some codeEl) = lit "C++"
  /\ fromClass (lit "hljs language") = [].
Proof.
  intros preEl codeEl.
  destruct (detectLanguage_class preEl codeEl) as (_ & _ & Hcode & _).
  destruct (detectLanguage_class preEl
              (Elem (lit "code") [(lit "class", lit "hljs language")] [] []))
    as (_ & Habsent & _).
  split; [reflexivity|]. split.
  - rewrite Hcode; [reflexivity | discriminate].
  - apply Habsent. reflexivity.
Defined.

(** ** Formulas *)

Lemma querySelector_In : forall h sel x,
  querySelector h sel = Some x ->
  In x (descendants h) /\ matches sel (snd x) = true.
Proof.
  intros h sel x. unfold querySelector, querySelectorAll.
  destruct (filter _ _) as [|y l] eqn:E; [discriminate|].
  simpl. intros H. injection H as ->.
  apply (filter_In (fun d => matches sel (snd d))). rewrite E. now left.
Qed.

Lemma find_text_source : forall el sel t,
  find_text el sel = Some t ->
  t <> []
  /\ exists h, In h (descendants ([], el)) /\ matches sel (snd h) = true
               /\ textContent (snd h) = t.
Proof.
  intros el sel t. unfold find_text.
  destruct (querySelector ([], el) sel) as [h|] eqn:E; [|discriminate].
  apply querySelector_In in E. destruct E as [Hin Hm].
  destruct (textContent (snd h)) as [|c r] eqn:Et; [discriminate|].
  simpl. intros H. injection H as <-. split; [discriminate|].
  exists h. auto.
Qed.

(** The last three sources of [extractLatex], tried when [data-math] and
    [data-tex] give nothing. *)
Ltac latex_tail el Hscript :=
  let Ea := fresh "Ea" in
  let Ealt := fresh "Ealt" in
  let Einc := fresh "Einc" in
  let H := fresh "H" in
  destruct (find_text el [[TagIs "annotation"; _]]) as [?a|] eqn:Ea;
  [ intros H; injection H as <-; apply (Hscript _ (or_introl eq_refl) Ea)
  | cbn [or_else];
    destruct (or_else (getAttribute el "alt") (getAttribute el "aria-label"))
      as [[|?x ?d]|] eqn:Ealt;
    try apply (Hscript _ (or_intror eq_refl));
    match goal with
    | |- context [includes ?t [92%N] || includes ?t [61%N]] =>
        destruct (includes t [92%N] || includes t [61%N]) eqn:Einc;
        [ intros H; injection H as <-; split; [discriminate|];
          right; right; left; split; auto;
          unfold or_else in Ealt;
          destruct (getAttribute el "alt") as [[|? ?]|]; auto
        | apply (Hscript _ (or_intror eq_refl)) ]
    end ].



(** ** The pre-pass that strips controls and scripts *)

Lemma node_induction (P : node -> Prop) :
  (forall v, P (Text v)) -> P Other ->
  (forall t a d ch, Forall P ch -> P (Elem t a d ch)) ->
  forall n, P n.
Proof.
  intros HT HO HE. fix IH 1. intros [v| |t a d ch].
  - apply HT.
  - exact HO.
  - apply HE. induction ch as [|c ch IHch]; constructor.
    + apply IH.
    + exact IHch.
Qed.

Lemma prune_Elem : forall drop t a d ch,
  prune drop (Elem t a d ch)
  = Elem t a d (List.map (prune drop) (filter (fun c => negb (drop c)) ch)).
Proof.
  intros drop t a d ch. cbn [prune]. f_equal.
  induction ch as [|c ch IH]; [reflexivity|].
  cbn [filter]. destruct (drop c); cbn [negb List.map]; now rewrite IH.
Qed.

Lemma prune_shallow : forall d drop n, shallow d -> d (prune drop n) = d n.
Proof.
  intros d drop [v| |t a disp ch] Hd; auto.
  rewrite prune_Elem. apply Hd.
Qed.

Lemma prune_ext : forall d d' n,
  (forall x, d x = d' x) -> prune d n = prune d' n.
Proof.
  intros d d' n Hext. induction n as [v| |t a disp ch IH] using node_induction;
    auto.
  rewrite !prune_Elem. f_equal.
  induction IH as [|c ch Hc _ IHch]; [reflexivity|].
  cbn [filter]. rewrite <- Hext. destruct (d c); cbn [negb List.map]; auto.
  now rewrite Hc, IHch.
Qed.

Lemma prune_none : forall d n, (forall x, d x = false) -> prune d n = n.
Proof.
  intros d n Hd. induction n as [v| |t a disp ch IH] using node_induction; auto.
  rewrite prune_Elem. f_equal.
  induction IH as [|c ch Hc _ IHch]; [reflexivity|].
  cbn [filter]. rewrite Hd. cbn [negb List.map]. now rewrite Hc, IHch.
Qed.

(** Two passes amount to one pass with both tests. *)
Lemma prune_prune : forall d1 d2 n,
  shallow d2 ->
  prune d2 (prune d1 n) = prune (fun x => d1 x || d2 x) n.
Proof.
  intros d1 d2 n Hd2.
  induction n as [v| |t a disp ch IH] using node_induction; auto.
  rewrite !prune_Elem. f_equal.
  induction IH as [|c ch Hc _ IHch]; [reflexivity|].
  cbn [filter]. destruct (d1 c) eqn:E1; cbn [negb orb List.map filter]; auto.
  rewrite (prune_shallow d2 d1 c Hd2).
  destruct (d2 c); cbn [negb List.map]; auto.
  now rewrite Hc, IHch.
Qed.

Lemma matches_shallow : forall sel, shallow (matches sel).
Proof.
  intros sel t a disp ch ch'. unfold matches. cbn [isElement andb].
  induction sel as [|cs sel IH]; [reflexivity|].
  cbn [existsb]. rewrite IH. f_equal.
Qed.

Lemma removed_shallow : shallow removed.
Proof.
  intros t a disp ch ch'. unfold removed.
  rewrite (matches_shallow removeSelectors t a disp ch ch').
  rewrite (matches_shallow [[TagIs "script"]] t a disp ch ch').
  reflexivity.
Qed.

Lemma matches_cons : forall cs sel n,
  matches (cs :: sel) n = matches [cs] n || matches sel n.
Proof.
  intros cs sel n. unfold matches. cbn [existsb].
  destruct (isElement n); cbn [andb]; [|reflexivity].
  now rewrite orb_false_r.
Qed.

Lemma fold_prune : forall (guard : node -> bool) sels d0 root,
  shallow guard ->
  fold_left (fun r sel => prune (fun el => matches [sel] el && guard el) r)
    sels (prune d0 root)
  = prune (fun el => d0 el || matches sels el && guard el) root.
Proof.
  intros guard sels. induction sels as [|sel sels IH]; intros d0 root Hg.
  - cbn [fold_left]. apply prune_ext. intros x.
    unfold matches. cbn [existsb]. now rewrite andb_false_r, orb_false_r.
  - cbn [fold_left]. rewrite prune_prune.
    + rewrite IH by assumption. apply prune_ext. intros x.
      rewrite (matches_cons sel sels).
      destruct (d0 x), (matches [sel] x), (matches sels x), (guard x);
        reflexivity.
    + intros t a disp ch ch'.
      now rewrite (matches_shallow [sel] t a disp ch ch'),
                  (Hg t a disp ch ch').
Qed.

Lemma cleanup_prune : forall rootEl, cleanup rootEl = prune removed rootEl.
Proof.
  intros rootEl. unfold cleanup.
  rewrite <- (prune_none (fun _ => false) rootEl) at 1 by reflexivity.
  rewrite (fold_prune
             (fun el => negb (tag_is "script" el && math_type el)))
    by (intros t a disp ch ch'; reflexivity).
  rewrite prune_prune.
  - apply prune_ext. intros x. reflexivity.
  - intros t a disp ch ch'. reflexivity.
Qed.

Lemma walk_Elem : forall p t a d ch,
  walk p (Elem t a d ch) = (p, Elem t a d ch) :: walk_children p 0 ch.
Proof.
  intros p t a d ch. cbn [walk]. f_equal.
  generalize 0. induction ch as [|c ch IH]; intros i; [reflexivity|].
  cbn [walk_children]. now rewrite IH.
Qed.

Lemma walk_cons : forall p n, walk p n = (p, n) :: tl (walk p n).
Proof. intros p [v| |t a d ch]; reflexivity. Qed.

Lemma prune_clean : forall d n p,
  shallow d ->
  Forall (fun h => d (snd h) = false) (tl (walk p (prune d n))).
Proof.
  intros d n p Hd. revert p.
  induction n as [v| |t a disp ch IH] using node_induction; intros p;
    try constructor.
  rewrite prune_Elem, walk_Elem. cbn [tl].
  generalize 0.
  induction IH as [|c ch Hc _ IHch]; intros i; [constructor|].
  cbn [filter]. destruct (d c) eqn:Ec; cbn [negb List.map]; auto.
  cbn [walk_children]. apply Forall_app. split; [|apply IHch].
  rewrite walk_cons. constructor; [|apply Hc].
  cbn [snd]. now rewrite prune_shallow.
Qed.


(** ** Quotes and containers *)

Lemma split_lf_lines : forall s cur,
  Forall (fun ch => ch <> LF) cur ->
  Forall (fun l => Forall (fun ch => ch <> LF) l) (split_lf cur s).
Proof.
  induction s as [|c tl IH]; intros cur Hcur; cbn [split_lf].
  - constructor; [|constructor]. now apply Forall_rev.
  - destruct (is_lf c) eqn:E.
    + constructor; [now apply Forall_rev | apply IH; constructor].
    + apply IH. constructor; auto.
      unfold is_lf in E. now apply N.eqb_neq.
Qed.

Lemma split_lf_nonempty : forall s cur, split_lf cur s <> [].
Proof.
  induction s as [|c tl IH]; intros cur; cbn [split_lf]; [discriminate|].
  destruct (is_lf c); [discriminate | apply IH].
Qed.

Lemma quote_line_shape : forall l,
  Forall (fun ch => ch <> LF) l ->
  startsWith (quote_line l) (lit ">") = true
  /\ Forall (fun ch => ch <> LF) (quote_line l).
Proof.
  intros [|x l] Hl; cbn [quote_line].
  - split; [reflexivity|]. repeat constructor. discriminate.
  - split; [reflexivity|].
    apply Forall_app. split; [|exact Hl].
    repeat constructor; discriminate.
Qed.

(** X7.  A [blockquote] is rendered as nothing, when its content is
    blank, or as a block between line feeds of which every line begins
    with [>]: no line of the quoted text is left unmarked. *)
Theorem blockquote_lines : forall newURL attrs disp children c,
  convertNode newURL (Elem (lit "blockquote") attrs disp children) c = []
  \/ exists lines,
       lines <> []
       /\ convertNode newURL (Elem (lit "blockquote") attrs disp children) c
          = [LF] ++ join [LF] lines ++ [LF; LF]
       /\ Forall (fun l => startsWith l (lit ">") = true
                           /\ Forall (fun ch => ch <> LF) l) lines.
Proof.
  intros newURL attrs disp children c.
  change (convertNode newURL (Elem (lit "blockquote") attrs disp children) c)
    with
      (match trim (cleanupMarkdown
                     (convertChildren newURL
                        (Elem (lit "blockquote") attrs disp children)
                        {| listDepth := listDepth c; inBlockquote := true;
                           listOrdered := listOrdered c;
                           listIndex := listIndex c |})) with
       | [] => []
       | inner =>
           [LF] ++ join [LF] (List.map quote_line (split_lf [] inner))
             ++ [LF; LF]
       end).
  destruct (trim _) as [|x inner]; [now left|]. right.
  exists (List.map quote_line (split_lf [] (x :: inner))).
  split; [|split; [reflexivity|]].
  - intros E. apply map_eq_nil in E. now apply split_lf_nonempty in E.
  - apply Forall_map.
    eapply Forall_impl; [|apply (split_lf_lines (x :: inner) []); constructor].
    apply quote_line_shape.
Qed.

(** X8.  A container ([div], [section], [article], [main], [header],
    [footer], [figure], [figcaption]) is rendered from its children alone,
    as their cleaned Markdown followed by a blank line: its attributes are
    never read, so a container that carries the classes or the attributes
    of a formula is not rendered as a formula. *)
Theorem container_ignores_attributes : forall newURL tag attrs disp children c,
  isBlockLike tag = true ->
  convertNode newURL (Elem tag attrs disp children) c
  = convertNode newURL (Elem tag [] [] children) c
  /\ convertNode newURL (Elem tag attrs disp children) c
     = match trim (cleanupMarkdown
                     (convertChildren newURL (Elem tag attrs disp children) c))
       with
       | [] => []
       | trimmed => trimmed ++ [LF; LF]
       end.
Proof.
  intros newURL tag attrs disp children c Hblock.
  unfold isBlockLike in Hblock. cbn [existsb] in Hblock.
  rewrite !orb_true_iff in Hblock.
  repeat (destruct Hblock as [Hblock|Hblock];
          [apply Js_eqb_eq in Hblock; subst tag; split; reflexivity|]).
  discriminate.
Qed.

Lemma container_ignores_attributes_witness :
  let el := Elem (lit "div")
              [(lit "class", lit "math-block"); (lit "data-math", lit "x^2")]
              (lit "block") [Text (lit "x2")] in
  isBlockLike (lit "div") = true
  /\ extractLatex el = Some (lit "x^2")
  /\ convertNode keep_url el top_ctx = lit "x2" ++ [LF; LF].
Proof.
  intros el. split; [reflexivity|]. split; [reflexivity|].
  destruct (container_ignores_attributes keep_url (lit "div")
              [(lit "class", lit "math-block"); (lit "data-math", lit "x^2")]
              (lit "block") [Text (lit "x2")] top_ctx eq_refl) as [Hplain _].
  unfold el. rewrite Hplain. reflexivity.
Defined.

(** * Further properties of the collector *)

(** ** The title of the thread *)

Lemma dropWhile_app_all : forall p (l r : str),
  dropWhile p l = [] -> dropWhile p (l ++ r) = dropWhile p r.
Proof.
  induction l as [|c l IH]; intros r; simpl; auto.
  destruct (p c); [auto | discriminate].
Qed.

Lemma trimEnd_app : forall a b,
  trimEnd (a ++ b) = if is_nil (trimEnd b) then trimEnd a else a ++ trimEnd b.
Proof.
  intros a b. unfold trimEnd. rewrite rev_app_distr.
  destruct (dropWhile is_space (rev b)) as [|c r] eqn:E.
  - cbn [rev is_nil]. now rewrite dropWhile_app_all.
  - rewrite dropWhile_app_keep by (rewrite E; discriminate).
    rewrite E, rev_app_distr, rev_involutive.
    destruct (rev (c :: r)) eqn:Er; [|reflexivity].
    apply (f_equal (@rev char)) in Er. rewrite rev_involutive in Er.
    discriminate.
Qed.

Lemma trimStart_trimEnd_comm : forall s,
  trimStart (trimEnd s) = trimEnd (trimStart s).
Proof.
  induction s as [|a s IH]; [reflexivity|].
  destruct (is_space a) eqn:Ea.
  - change (a :: s) with ([a] ++ s). rewrite trimEnd_app.
    unfold trimStart at 2. cbn [app dropWhile]. rewrite Ea.
    fold (trimStart s). rewrite <- IH.
    destruct (trimEnd s) as [|x t] eqn:E; cbn [is_nil].
    + unfold trimEnd. cbn [rev app dropWhile]. now rewrite Ea.
    + unfold trimStart. cbn [app dropWhile]. now rewrite Ea.
  - rewrite trimEnd_cons by assumption.
    unfold trimStart. cbn [dropWhile]. rewrite Ea.
    now rewrite trimEnd_cons.
Qed.

Lemma trim_trimEnd : forall s, trim (trimEnd s) = trim s.
Proof.
  intros s. unfold trim.
  now rewrite trimStart_trimEnd_comm, trimEnd_idem.
Qed.

Lemma trim_trimStart : forall s, trim (trimStart s) = trim s.
Proof.
  intros s. unfold trim, trimStart. now rewrite dropWhile_idem.
Qed.

Lemma trimEnd_nil_trim : forall s, trimEnd s = [] -> trim s = [].
Proof.
  intros s Hs. rewrite <- trim_trimEnd, Hs. reflexivity.
Qed.

(** X9.  The title of the document is never empty and has no white space
    around it: a blank [document.title] gives [Gemini], and a title that
    begins with [Gemini - ] gives what follows, trimmed, or [Gemini] when
    nothing follows. *)
Theorem getThreadTitle_shape : forall documentTitle,
  getThreadTitle documentTitle <> []
  /\ trim (getThreadTitle documentTitle) = getThreadTitle documentTitle
  /\ (trim documentTitle = [] -> getThreadTitle documentTitle = lit "Gemini")
  /\ getThreadTitle (lit "Gemini - " ++ documentTitle)
     = first_nonempty (trim documentTitle) (lit "Gemini").
Proof.
  intros dt. split; [|split; [|split]].
  - unfold getThreadTitle.
    destruct (trim (strip_gemini (trim dt))); discriminate.
  - unfold getThreadTitle.
    destruct (trim (strip_gemini (trim dt))) as [|x t] eqn:E;
      cbn [first_nonempty]; [reflexivity|].
    rewrite <- E. apply trim_idem.
  - intros Hblank. unfold getThreadTitle. rewrite Hblank. reflexivity.
  - unfold getThreadTitle.
    assert (Hraw : trim (lit "Gemini - " ++ dt)
                   = if is_nil (trimEnd dt) then lit "Gemini -"
                     else lit "Gemini - " ++ trimEnd dt).
    { unfold trim. replace (trimStart (lit "Gemini - " ++ dt))
        with (lit "Gemini - " ++ dt) by reflexivity.
      rewrite trimEnd_app. destruct (is_nil (trimEnd dt)); reflexivity. }
    rewrite Hraw. destruct (trimEnd dt) as [|x t] eqn:E; cbn [is_nil].
    + rewrite (trimEnd_nil_trim dt E). reflexivity.
    + replace (strip_gemini (lit "Gemini - " ++ x :: t))
        with (trimStart (x :: t)) by reflexivity.
      now rewrite trim_trimStart, <- E, trim_trimEnd.
Qed.

Lemma getThreadTitle_shape_witness :
  trim [SP; NBSP] = []
  /\ getThreadTitle [SP; NBSP] = lit "Gemini"
  /\ getThreadTitle (lit "Gemini - Plan  ") = lit "Plan"
  /\ getThreadTitle (lit "gemini-") = lit "Gemini".
Proof.
  destruct (getThreadTitle_shape [SP; NBSP]) as (_ & _ & Hblank & _).
  destruct (getThreadTitle_shape (lit "Plan  ")) as (_ & _ & _ & Hstrip).
  split; [reflexivity|]. split; [exact (Hblank eq_refl)|].
  split; [exact Hstrip | reflexivity].
Defined.

(** ** The content of a turn *)

(** X10.  The content of a turn is the turn itself or one of its
    descendants: a descendant is chosen only if it is the first element
    that one of the content selectors matches and its text is not blank. *)
Theorem getBestContentNode_choice : forall n,
  getBestContentNode n = n
  \/ exists p sel,
       In sel contentSelectors
       /\ querySelector ([], n) [sel] = Some (p, getBestContentNode n)
       /\ In (p, getBestContentNode n) (descendants ([], n))
       /\ matches [sel] (getBestContentNode n) = true
       /\ has_text (getBestContentNode n) = true.
Proof.
  intros n. unfold getBestContentNode.
  generalize contentSelectors as selectors.
  induction selectors as [|sel rest IH]; [now left|].
  cbn [firstContent].
  assert (Hrest :
    firstContent n rest = n
    \/ exists p sel0,
         In sel0 (sel :: rest)
         /\ querySelector ([], n) [sel0] = Some (p, firstContent n rest)
         /\ In (p, firstContent n rest) (descendants ([], n))
         /\ matches [sel0] (firstContent n rest) = true
         /\ has_text (firstContent n rest) = true).
  { destruct IH as [E | (p & sel0 & Hin & H)]; [now left|].
    right. exists p, sel0. split; [now right | exact H]. }
  destruct (querySelector ([], n) [sel]) as [[p el]|] eqn:Eq; [|exact Hrest].
  cbn [snd]. destruct (has_text el) eqn:Et; [|exact Hrest].
  right. exists p, sel. split; [now left|]. split; [exact Eq|].
  apply querySelector_In in Eq. destruct Eq as [Hin Hm]. auto.
Qed.

(** ** The speaker of a turn *)

Lemma matches_app : forall a b n,
  matches (a ++ b) n = matches a n || matches b n.
Proof.
  intros a b n. unfold matches. rewrite existsb_app.
  destruct (isElement n); reflexivity.
Qed.

Lemma matches_tag : forall sel t n,
  In [TagIs t] sel -> isElement n = true ->
  Js.eqb (tagName n) (lit t) = true -> matches sel n = true.
Proof.
  intros sel t n Hin Hel Htag. unfold matches. rewrite Hel.
  apply existsb_exists. exists [TagIs t]. split; auto.
  cbn [forallb cond_holds]. unfold tag_is. now rewrite Hel, Htag.
Qed.

Lemma getSpeaker_of_match : forall n,
  matches (userSelectors ++ modelSelectors) n = true ->
  getSpeaker n
  = if matches userSelectors n then lit "User" else lit "Gemini".
Proof.
  intros n Hm. rewrite matches_app in Hm. unfold getSpeaker.
  assert (Hel : isElement n = true).
  { unfold matches in Hm. destruct (isElement n); auto. }
  destruct (matches userSelectors n) eqn:Eu.
  - now rewrite orb_true_r.
  - cbn [orb] in Hm. rewrite Hm, orb_true_r, orb_false_r.
    destruct (Js.eqb (tagName n) (lit "user-query")) eqn:Et; auto.
    rewrite (matches_tag userSelectors "user-query" n) in Eu; auto;
      [discriminate | now left].
Qed.

(** X11.  Every turn that the collector returns is labelled [User] or
    [Gemini].  When the turn selectors found the turns, the label follows
    the selectors: [User] for a turn that a user selector matches,
    [Gemini] for the others; the class name is consulted only for the
    turns found by the fallback selectors. *)
Theorem speaker_of_turn : forall searchRoot h,
  In h (collectConversationNodes searchRoot) ->
  (getSpeaker (snd h) = lit "User" \/ getSpeaker (snd h) = lit "Gemini")
  /\ (querySelectorAll ([], searchRoot) (userSelectors ++ modelSelectors) <> [] ->
      getSpeaker (snd h)
      = if matches userSelectors (snd h) then lit "User" else lit "Gemini").
Proof.
  intros searchRoot h Hin. split.
  - unfold getSpeaker.
    destruct (_ || _); auto. destruct (_ || _); auto.
    destruct (includes _ _); auto.
  - intros Hfound. apply getSpeaker_of_match.
    apply turns_incl in Hin. unfold turnCandidates in Hin.
    destruct (querySelectorAll ([], searchRoot)
                (userSelectors ++ modelSelectors)) as [|x l] eqn:E;
      [contradiction|].
    rewrite <- E in Hin. unfold querySelectorAll in Hin.
    apply filter_In in Hin. exact (proj2 Hin).
Qed.

Lemma speaker_of_turn_witness :
  In ([1], greeting_model) (collectConversationNodes greeting_main)
  /\ getSpeaker greeting_model = lit "Gemini"
  /\ getSpeaker greeting_user = lit "User".
Proof.
  assert (Hin : In ([1], greeting_model) (collectConversationNodes greeting_main))
    by (vm_compute; right; left; reflexivity).
  assert (Hin' : In ([0], greeting_user) (collectConversationNodes greeting_main))
    by (vm_compute; left; reflexivity).
  destruct (speaker_of_turn greeting_main _ Hin) as [_ Hmodel].
  destruct (speaker_of_turn greeting_main _ Hin') as [_ Huser].
  assert (Hfound : querySelectorAll ([], greeting_main)
                     (userSelectors ++ modelSelectors) <> [])
    by (vm_compute; discriminate).
  specialize (Hmodel Hfound). specialize (Huser Hfound).
  cbn [snd] in Hmodel, Huser.
  split; [exact Hin|]. split.
  - rewrite Hmodel. reflexivity.
  - rewrite Huser. reflexivity.
Defined.

(** ** The order of the turns *)

(** X12.  [compareDomOrder] is a consistent comparison: it answers [0]
    exactly for an element and itself, exchanging the arguments negates
    the answer, [-1] is transitive, and an element comes before the
    elements it contains. *)
Theorem compareDomOrder_consistent : forall a b c,
  (compareDomOrder a b = 0%Z <-> same a b = true)
  /\ compareDomOrder b a = (- compareDomOrder a b)%Z
  /\ (compareDomOrder a b = (-1)%Z -> compareDomOrder b c = (-1)%Z ->
      compareDomOrder a c = (-1)%Z)
  /\ (contains a b = true -> same a b = false ->
      compareDomOrder a b = (-1)%Z).
Proof.
  intros a b c. rewrite !compareDomOrder_cmp. unfold same, contains.
  split; [|split; [|split]].
  - rewrite path_eqb_eq, <- path_cmp_eq.
    destruct (path_cmp (fst a) (fst b)); split; intros; auto; discriminate.
  - rewrite (path_cmp_opp (fst a) (fst b)).
    destruct (path_cmp (fst a) (fst b)); reflexivity.
  - destruct (path_cmp (fst a) (fst b)) eqn:Eab; try discriminate.
    destruct (path_cmp (fst b) (fst c)) eqn:Ebc; try discriminate.
    now rewrite (path_cmp_trans _ _ _ Eab Ebc).
  - intros Hpre Hne. destruct (is_prefix_cmp _ _ Hpre) as [E | ->]; auto.
    apply path_eqb_eq in E. congruence.
Qed.

Lemma compareDomOrder_consistent_witness :
  let outer : handle := ([0], greeting_user) in
  let inner : handle := ([0; 0], Text (lit "Hello")) in
  let later : handle := ([1], greeting_model) in
  compareDomOrder outer inner = (-1)%Z
  /\ compareDomOrder inner later = (-1)%Z
  /\ compareDomOrder outer later = (-1)%Z
  /\ compareDomOrder later outer = 1%Z.
Proof.
  intros outer inner later.
  destruct (compareDomOrder_consistent outer inner later)
    as (_ & _ & Htrans & Hcontains).
  destruct (compareDomOrder_consistent outer later outer) as (_ & Hopp & _).
  assert (H1 : compareDomOrder outer inner = (-1)%Z)
    by (apply Hcontains; reflexivity).
  assert (H2 : compareDomOrder inner later = (-1)%Z) by reflexivity.
  split; [exact H1|]. split; [exact H2|].
  split; [exact (Htrans H1 H2)|].
  rewrite Hopp, (Htrans H1 H2). reflexivity.
Defined.

(** * Further properties of the canvas orchestrator *)

(** ** The section of a canvas *)

Section Triples.

Context {H : Host}.

Lemma triple_ret : forall A (a : A) (P : St -> Prop) Q,
  (forall s, P s -> Q a s) -> triple P (ret a) Q.
Proof. intros A a P Q HQ s a' s' Hs E. injection E as <- <-. now apply HQ. Qed.

Lemma triple_bind : forall A B (m : M A) (k : A -> M B) P R Q,
  triple P m R -> (forall a, triple (R a) (k a) Q) -> triple P (bind m k) Q.
Proof.
  intros A B m k P R Q Hm Hk s b s' Hs. unfold bind.
  destruct (m s) as [[a|e] s1] eqn:E; [|discriminate].
  apply (Hk a). exact (Hm _ _ _ Hs E).
Qed.

(** The same when what matters of the first step is its value. *)
Lemma triple_bind_pure : forall A B (m : M A) (k : A -> M B) P (R : A -> Prop) Q,
  triple P m (fun a _ => R a) ->
  (forall a, R a -> triple (fun _ => True) (k a) Q) ->
  triple P (bind m k) Q.
Proof.
  intros A B m k P R Q Hm Hk s b s' Hs. unfold bind.
  destruct (m s) as [[a|e] s1] eqn:E; [|discriminate].
  now apply (Hk a (Hm _ _ _ Hs E)).
Qed.

Lemma triple_catch : forall A (m : M A) (h : exn -> M A) P Q,
  triple P m Q -> (forall e, triple (fun _ => True) (h e) Q) ->
  triple P (catch m h) Q.
Proof.
  intros A m h P Q Hm Hh s a s' Hs. unfold catch.
  destruct (m s) as [[a0|e] s1] eqn:E.
  - intros E'. injection E' as <- <-. exact (Hm _ _ _ Hs E).
  - now apply Hh.
Qed.

(** A [try] whose handler returns a value returns a value. *)
Lemma catch_returns : forall A (m : M A) (a0 : A) (s : St),
  exists a s',
    catch m (fun _ => bind console_warn (fun _ => ret a0)) s = (Normal a, s').
Proof.
  intros A m a0 s. unfold catch.
  destruct (m s) as [[a|e] s1]; eexists _, _; reflexivity.
Qed.

Lemma triple_any : forall A (m : M A) (P : St -> Prop),
  triple P m (fun _ _ => True).
Proof. intros A m P s a s' _ _. exact I. Qed.

(** What [m] returns, [m] returned from some state. *)
Lemma triple_run : forall A (m : M A) (P : St -> Prop),
  triple P m (fun a s' => exists s0, m s0 = (Normal a, s')).
Proof. intros A m P s a s' _ E. now exists s. Qed.

End Triples.

(** A step whose result the rest does not depend on. *)
Tactic Notation "skip_step" "as" ident(x) :=
  eapply triple_bind; [apply triple_any | intros x; cbv beta].

Lemma nonempty_Some : forall o c, nonempty o = Some c -> c <> [].
Proof. intros [[|x t]|] c E; try discriminate. now injection E as <-. Qed.

Lemma getCanvasContent_triple : forall (H : Host) titleFallback,
  triple (fun _ => True) (getCanvasContent titleFallback)
    (fun o _ => section_or_null titleFallback o).
Proof.
  intros H titleFallback. unfold getCanvasContent.
  assert (Hnull : section_or_null titleFallback None) by (split; auto).
  assert (Hsection : forall title lang code,
            code <> [] ->
            (forall t, nonempty titleFallback = Some t -> title = t) ->
            section_or_null titleFallback
              (Some (lit "## Canvas: " ++ title ++ [LF; LF] ++ ticks 3
                       ++ lang ++ [LF] ++ code ++ [LF] ++ ticks 3))).
  { intros title lang code Hcode Htitle. split; [reflexivity|].
    exists title, lang, code. auto. }
  apply triple_catch;
    [|intros e; skip_step as u; apply triple_ret; intros; exact Hnull].
  skip_step as u. skip_step as monacoContent.
  apply triple_bind_pure
    with (R := fun o : option str => forall c, o = Some c -> c <> []).
  - destruct (nonempty (option_map fst monacoContent)) as [code|] eqn:E.
    + apply triple_ret. intros s _ c Ec. injection Ec as <-.
      exact (nonempty_Some _ _ E).
    + skip_step as t. apply triple_ret. intros s _ c. apply nonempty_Some.
  - intros [code|] Hcode; [|apply triple_ret; intros; exact Hnull].
    specialize (Hcode code eq_refl).
    apply triple_bind_pure
      with (R := fun title =>
                   forall t, nonempty titleFallback = Some t -> title = t).
    + destruct (nonempty titleFallback) as [t|].
      * apply triple_ret. intros s _. congruence.
      * skip_step as titleText.
        destruct (nonempty titleText) as [t|]; apply triple_ret;
          intros s _; discriminate.
    + intros title Htitle. apply triple_ret. intros s _. now apply Hsection.
Qed.

(** X13.  [getCanvasContent] never throws.  It returns [null] or a
    section [## Canvas: title], a blank line and the code between fences
    of three backticks, whatever the code holds; the code is never empty,
    so the section is truthy, and the title is the fallback when the
    caller gives one. *)
Theorem getCanvasContent_result : forall (H : Host) titleFallback (s : St),
  exists o s',
    getCanvasContent titleFallback s = (Normal o, s')
    /\ is_content o = is_some o
    /\ match o with
       | None => True
       | Some content =>
           exists title lang code,
             content = canvas_section title lang code
             /\ code <> []
             /\ (forall t, nonempty titleFallback = Some t -> title = t)
       end.
Proof.
  intros H titleFallback s.
  assert (Hrun : exists o s',
            getCanvasContent titleFallback s = (Normal o, s')).
  { unfold getCanvasContent. apply catch_returns. }
  destruct Hrun as (o & s' & Hrun).
  exists o, s'. split; [exact Hrun|].
  exact (getCanvasContent_triple H titleFallback s o s' I Hrun).
Qed.

Lemma startsWith_app : forall p s, startsWith (p ++ s) p = true.
Proof.
  induction p as [|x p IH]; intros s; [now destruct s|].
  simpl. now rewrite N.eqb_refl, IH.
Qed.

Lemma span_len_stop : forall p a c b,
  forallb p a = true -> p c = false ->
  span_len p (a ++ c :: b) = List.length a.
Proof.
  induction a as [|x a IH]; intros c b Ha Hc; simpl in *.
  - now rewrite Hc.
  - apply andb_true_iff in Ha. destruct Ha as [Hx Ha]. rewrite Hx.
    f_equal. now apply IH.
Qed.

(** The first line of a text that starts with the heading of a canvas
    section is what the pattern of [extractAllCanvasContent] captures. *)
Lemma canvas_title_match_heading : forall title rest,
  forallb is_dot title = true ->
  canvas_title_match (lit "## Canvas: " ++ title ++ LF :: rest) = Some title.
Proof.
  intros title rest Hdot.
  change (lit "## Canvas: " ++ title ++ LF :: rest)
    with (35%N :: (lit "# Canvas: " ++ title ++ LF :: rest)).
  cbn [canvas_title_match].
  change (35%N :: (lit "# Canvas: " ++ title ++ LF :: rest))
    with (lit "## Canvas: " ++ (title ++ LF :: rest)).
  rewrite startsWith_app.
  replace (skipn 11 (lit "## Canvas: " ++ (title ++ LF :: rest)))
    with (title ++ LF :: rest) by reflexivity.
  rewrite span_len_stop by (auto; reflexivity).
  rewrite nth_error_app2 by lia. rewrite Nat.sub_diag. cbn [nth_error].
  replace (is_lf LF) with true by reflexivity.
  now rewrite firstn_app, Nat.sub_diag, firstn_all, app_nil_r.
Qed.

(** X14.  The title that [extractAllCanvasContent] reads back in a section
    is the title that [getCanvasContent] wrote in it, when that title
    holds no line terminator. *)
Theorem canvas_title_round_trip : forall title lang code,
  forallb is_dot title = true ->
  canvas_title_match (canvas_section title lang code) = Some title.
Proof.
  intros title lang code Hdot. unfold canvas_section.
  change (lit "## Canvas: " ++ title ++ [LF; LF] ++ ticks 3 ++ lang ++ [LF]
            ++ code ++ [LF] ++ ticks 3)
    with (lit "## Canvas: " ++ title
            ++ LF :: LF :: ticks 3 ++ lang ++ [LF] ++ code ++ [LF] ++ ticks 3).
  now apply canvas_title_match_heading.
Qed.

Lemma canvas_title_round_trip_witness :
  forallb is_dot (lit "a.py") = true
  /\ canvas_title_match canvas_of_a = Some (lit "a.py")
  /\ canvas_title_match
       (canvas_section (lit "a" ++ [CR] ++ lit "b") [] (lit "x")) = None.
Proof.
  split; [reflexivity|]. split; [|reflexivity].
  exact (canvas_title_round_trip (lit "a.py") (lit "python") (lit "print(1)")
           eq_refl).
Defined.

(** * Further properties of the entry point *)

(** ** The document returned *)

Lemma not_space_not_blank : forall c, is_space c = false -> is_blank c = false.
Proof.
  intros c Hc. destruct (is_blank c) eqn:E; auto.
  apply is_blank_is_space in E. congruence.
Qed.

Lemma not_space_not_lf : forall c, is_space c = false -> is_lf c = false.
Proof.
  intros c Hc. destruct (is_lf c) eqn:E; auto.
  unfold is_lf in E. apply N.eqb_eq in E. subst c. discriminate.
Qed.

Lemma not_space_not_cr : forall c, is_space c = false -> (c =? CR)%N = false.
Proof.
  intros c Hc. destruct (N.eqb_spec c CR) as [->|];
    [discriminate | reflexivity].
Qed.

(** The three characters that open the document are out of reach of the
    patterns of [cleanupMarkdown]. *)
Lemma replace_all_heading : forall m rep c R,
  m (35%N :: SP :: c :: R) = None -> m (SP :: c :: R) = None ->
  m (c :: R) = None ->
  replace_all m rep (35%N :: SP :: c :: R)
  = 35%N :: SP :: c :: replace_all m rep R.
Proof.
  intros m rep c R H1 H2 H3. now rewrite !replace_all_miss.
Qed.

Lemma cleanupMarkdown_heading : forall c R,
  is_space c = false ->
  exists R', cleanupMarkdown (lit "# " ++ c :: R) = lit "# " ++ c :: R'.
Proof.
  intros c R Hc. unfold cleanupMarkdown.
  change (lit "# " ++ c :: R) with (35%N :: SP :: c :: R).
  pose proof (not_space_not_cr c Hc) as Hcr.
  pose proof (not_space_not_blank c Hc) as Hblank.
  pose proof (not_space_not_lf c Hc) as Hlf.
  rewrite (replace_all_heading re_crlf); try reflexivity;
    [|cbn [re_crlf]; rewrite Hcr; now destruct R].
  rewrite (replace_all_heading re_cr); try reflexivity;
    [|cbn [re_cr]; now rewrite Hcr].
  rewrite (replace_all_heading re_blanks_lf);
    [ | reflexivity
      | unfold re_blanks_lf; cbn [span_len]; rewrite Hblank;
        replace (is_blank SP) with true by reflexivity;
        cbn [nth_error]; now rewrite Hlf
      | now apply re_blanks_lf_not_blank ].
  rewrite (replace_all_heading (re_lf_min 3));
    [ | reflexivity | reflexivity
      | apply re_lf_min_short; cbn [span_len]; rewrite Hlf; lia ].
  set (R' := replace_all (re_lf_min 3) [LF; LF] _).
  exists (trimEnd R'). unfold trim.
  replace (trimStart (35%N :: SP :: c :: R')) with (35%N :: SP :: c :: R')
    by reflexivity.
  rewrite trimEnd_cons by reflexivity.
  change (SP :: c :: R') with ([SP] ++ c :: R').
  rewrite trimEnd_app, (trimEnd_cons c R' Hc). reflexivity.
Qed.

Lemma getThreadTitle_hd : forall documentTitle,
  exists c t, getThreadTitle documentTitle = c :: t /\ is_space c = false.
Proof.
  intros dt. unfold getThreadTitle.
  destruct (trim (strip_gemini (trim dt))) as [|x t] eqn:E.
  - eexists _, _. split; reflexivity.
  - cbn [first_nonempty]. exists x, t. split; auto.
    pose proof (trimStart_trim (strip_gemini (trim dt))) as Hs.
    rewrite E in Hs.
    destruct (trimStart_fixed_hd _ Hs) as [|(c & r & Ec & Hc)];
      [discriminate|].
    now injection Ec as -> _.
Qed.

Lemma document_clean : forall documentTitle more,
  let text :=
    cleanupMarkdown
      (join [LF] ([lit "# " ++ getThreadTitle documentTitle; []] ++ more)) in
  no_cr text /\ blank_lf_free text /\ lf_runs_below 3 text
  /\ trim text = text
  /\ exists c rest, text = lit "# " ++ c :: rest /\ is_space c = false.
Proof.
  intros dt more text.
  destruct (cleanupMarkdown_is_clean
              (join [LF] ([lit "# " ++ getThreadTitle dt; []] ++ more)))
    as (Hcr & Hblank & Hruns).
  split; [exact Hcr|]. split; [exact Hblank|]. split; [exact Hruns|].
  split; [apply trim_idem|].
  destruct (getThreadTitle_hd dt) as (c & t & Et & Hc).
  unfold text. rewrite Et.
  assert (Hjoin : exists R,
            join [LF] ([lit "# " ++ c :: t; []] ++ more)
            = lit "# " ++ c :: R).
  { cbn [app join].
    exists (t ++ [LF] ++ match more with
                         | [] => []
                         | _ :: _ => [] ++ [LF] ++ join [LF] more
                         end).
    change (lit "# " ++ c :: t) with (lit "# " ++ [c] ++ t).
    now rewrite <- !app_assoc. }
  destruct Hjoin as (R & ->).
  destruct (cleanupMarkdown_heading c R Hc) as (R' & ->).
  exists c, R'. auto.
Qed.

(** X15.  [extractMarkdownFromPage] never throws: it returns a document
    or an error object.  A document is normalised (no carriage return, no
    blank before a line feed, no three line feeds in a row, no white space
    around it) and begins with the heading of the title, [# ] followed by
    a character that is not white space. *)
Theorem extraction_output : forall (H : Host) includeCanvas (s : St),
  exists r s',
    extractMarkdownFromPage includeCanvas s = (Normal r, s')
    /\ match r with
       | Markdown text =>
           no_cr text /\ blank_lf_free text /\ lf_runs_below 3 text
           /\ trim text = text
           /\ exists c rest, text = lit "# " ++ c :: rest /\ is_space c = false
       | Failed _ => True
       end.
Proof.
  intros H includeCanvas s. unfold extractMarkdownFromPage, catch.
  destruct (negb (endsWith (hostname (document (host s)))
                    (lit "gemini.google.com")));
    [eexists _, _; split; [reflexivity | exact I]|].
  destruct (search_root (document (host s))) as [root|];
    [|eexists _, _; split; [reflexivity | exact I]].
  destruct (collectConversationNodes root) as [|h nodes];
    [eexists _, _; split; [reflexivity | exact I]|].
  set (title := getThreadTitle (documentTitle (document (host s)))).
  set (turns := List.concat (List.map (turn_lines (newURL (host s))) (h :: nodes))).
  unfold bind at 1.
  destruct includeCanvas.
  - unfold bind at 1.
    destruct (extractAllCanvasContent root s) as [[sections|e] s1];
      [|eexists _, _; split; [reflexivity | exact I]].
    destruct sections as [|section sections].
    + unfold bind at 1.
      destruct (call (checkForCanvasReference root) s1) as [[[|]|e] s2];
        eexists _, _; (split; [reflexivity|]); try exact I.
      * rewrite <- app_assoc. apply document_clean.
      * apply document_clean.
    + eexists _, _. split; [reflexivity|].
      rewrite <- app_assoc. apply document_clean.
  - eexists _, _. split; [reflexivity|]. apply document_clean.
Qed.

(** ** Refusals *)

(** X16.  The extraction refuses a page without touching it, whether or
    not canvases were asked for: a page whose host name does not end with
    [gemini.google.com], a page with neither [main] nor [body], and a
    page in which no turn is found each give their own error and leave
    the page, the clock and the trace as they were. *)
Theorem extraction_refusals : forall (H : Host) includeCanvas (s : St),
  let pg := document (host s) in
  (endsWith (hostname pg) (lit "gemini.google.com") = false ->
   extractMarkdownFromPage includeCanvas s = (Normal (Failed NotGeminiPage), s))
  /\ (endsWith (hostname pg) (lit "gemini.google.com") = true ->
      search_root pg = None ->
      extractMarkdownFromPage includeCanvas s
      = (Normal (Failed PageUnreadable), s))
  /\ (endsWith (hostname pg) (lit "gemini.google.com") = true ->
      forall root,
        search_root pg = Some root -> collectConversationNodes root = [] ->
        extractMarkdownFromPage includeCanvas s
        = (Normal (Failed TurnsNotFound), s)).
Proof.
  intros H includeCanvas s pg. unfold extractMarkdownFromPage, catch.
  fold pg. split; [|split].
  - intros ->. reflexivity.
  - intros -> ->. reflexivity.
  - intros -> root -> ->. reflexivity.
Qed.

Lemma extraction_refusals_witness :
  let elsewhere :=
    {| hostname := lit "example.com"; documentTitle := lit "Gemini";
       documentElement := documentElement greeting_page |} in
  let silent :=
    {| hostname := lit "gemini.google.com"; documentTitle := lit "Gemini";
       documentElement :=
         Elem (lit "html") [] []
           [ Elem (lit "body") [] [] [ Elem (lit "p") [] [] [Text (lit "x")] ] ]
    |} in
  let frames :=
    {| hostname := lit "gemini.google.com"; documentTitle := lit "Gemini";
       documentElement := Elem (lit "svg") [] [] [] |} in
  fst (@extractMarkdownFromPage (still_host elsewhere) true
         (start_state (still_host elsewhere) tt))
  = Normal (Failed NotGeminiPage)
  /\ fst (@extractMarkdownFromPage (still_host frames) true
            (start_state (still_host frames) tt))
     = Normal (Failed PageUnreadable)
  /\ fst (@extractMarkdownFromPage (still_host silent) true
            (start_state (still_host silent) tt))
     = Normal (Failed TurnsNotFound).
Proof.
  intros elsewhere silent frames.
  destruct (extraction_refusals (still_host elsewhere) true
              (start_state (still_host elsewhere) tt)) as (H1 & _).
  destruct (extraction_refusals (still_host frames) true
              (start_state (still_host frames) tt)) as (_ & H2 & _).
  destruct (extraction_refusals (still_host silent) true
              (start_state (still_host silent) tt)) as (_ & _ & H3).
  split; [|split].
  - rewrite H1; reflexivity.
  - rewrite H2; reflexivity.
  - rewrite (H3 eq_refl (Elem (lit "body") [] []
                           [ Elem (lit "p") [] [] [Text (lit "x")] ]));
      reflexivity.
Defined.

(** ** A snapshot that fails *)

(** X17.  The snapshot of the page is taken outside the [try] of
    [extractAllCanvasContent]: when [captureUiState] throws, the canvas
    extraction throws the same exception without having restored or read
    anything, and the entry point returns the error in place of the
    conversation it had collected. *)
Theorem snapshot_failure : forall (H : Host) root (s : St) e w,
  captureUiState root (host s) = (Throw e, w) ->
  (exists s',
     extractAllCanvasContent root s = (Throw e, s')
     /\ trace s' = trace s /\ vars s' = vars s)
  /\ (endsWith (hostname (document (host s))) (lit "gemini.google.com") = true ->
      search_root (document (host s)) = Some root ->
      collectConversationNodes root <> [] ->
      exists s', extractMarkdownFromPage true s
                 = (Normal (Failed (Uncaught e)), s')).
Proof.
  intros H root s e w Hcap.
  assert (Hrun : extractAllCanvasContent root s
                 = (Throw e, {| host := w;
                                clock := clock s + Z.of_N (elapsed w);
                                vars := vars s; trace := trace s |})).
  { unfold extractAllCanvasContent, bind at 1, call. now rewrite Hcap. }
  split.
  - eexists. split; [exact Hrun|]. split; reflexivity.
  - intros Hhost Hroot Hnodes. unfold extractMarkdownFromPage, catch.
    rewrite Hhost, Hroot. cbn [negb].
    destruct (collectConversationNodes root) as [|h nodes]; [contradiction|].
    unfold bind at 1. unfold bind at 1. rewrite Hrun.
    eexists. reflexivity.
Qed.

Lemma snapshot_failure_witness :
  let H := unreadable_host greeting_page in
  let s := start_state H tt in
  captureUiState greeting_main (host s)
  = (Throw (Exn (lit "getComputedStyle is not a function")), tt)
  /\ fst (extractAllCanvasContent greeting_main s)
     = Throw (Exn (lit "getComputedStyle is not a function"))
  /\ fst (extractMarkdownFromPage true s)
     = Normal (Failed (Uncaught
                         (Exn (lit "getComputedStyle is not a function"))))
  /\ exists text, fst (extractMarkdownFromPage false s) = Normal (Markdown text).
Proof.
  intros H s.
  assert (Hcap : captureUiState greeting_main (host s)
                 = (Throw (Exn (lit "getComputedStyle is not a function")), tt))
    by reflexivity.
  destruct (snapshot_failure H greeting_main s _ _ Hcap)
    as ((s1 & Hcanvas & _) & Hentry).
  destruct Hentry as (s2 & Hentry);
    [reflexivity | reflexivity | vm_compute; discriminate |].
  split; [exact Hcap|]. split; [now rewrite Hcanvas|].
  split; [now rewrite Hentry|].
  eexists. vm_compute. reflexivity.
Defined.

(** ** The loop over the titles *)

Section Growth.

Context {H : Host}.

Lemma grows_bind : forall a b A B (m : M A) (k : A -> M B),
  grows a m -> (forall x, grows b (k x)) -> grows (a + b) (bind m k).
Proof.
  intros a b A B m k Hm Hk s. unfold bind.
  destruct (Hm s) as (e1 & E1 & H1).
  destruct (m s) as [[x|e] s1]; cbn [snd] in *.
  - destruct (Hk x s1) as (e2 & E2 & H2).
    exists (e1 ++ e2). rewrite E2, E1, <- app_assoc, length_app.
    split; [reflexivity | lia].
  - exists e1. split; [exact E1 | lia].
Qed.

Lemma grows_catch : forall a b A (m : M A) (h : exn -> M A),
  grows a m -> (forall e, grows b (h e)) -> grows (a + b) (catch m h).
Proof.
  intros a b A m h Hm Hh s. unfold catch.
  destruct (Hm s) as (e1 & E1 & H1).
  destruct (m s) as [[x|e] s1]; cbn [snd] in *.
  - exists e1. split; [exact E1 | lia].
  - destruct (Hh e s1) as (e2 & E2 & H2).
    exists (e1 ++ e2). rewrite E2, E1, <- app_assoc, length_app.
    split; [reflexivity | lia].
Qed.

(** A computation that leaves the variables alone adds nothing. *)
Lemma grows_frame : forall n A (m : M A),
  (forall v, keeps (fun v' _ => v' = v) m) -> grows n m.
Proof.
  intros n A m Hkeep s. exists []. rewrite app_nil_r. split; [|simpl; lia].
  now rewrite (Hkeep (vars s) s eq_refl).
Qed.

Lemma grows_push : forall content, grows 1 (push_result content).
Proof. intros content s. exists [content]. split; reflexivity. Qed.

Lemma grows_add_processed : forall title, grows 0 (add_processed title).
Proof. intros title s. exists []. now rewrite app_nil_r. Qed.

Lemma grows_set_everOpenedEditor : forall b, grows 0 (set_everOpenedEditor b).
Proof. intros b s. exists []. now rewrite app_nil_r. Qed.

Ltac frame := apply grows_frame; intros ?; keeps_all.

Lemma grows_after_content : forall root title content,
  grows 1 (after_content root title content).
Proof.
  intros root title content. unfold after_content.
  apply (grows_bind 1 0).
  - destruct content as [[|c text]|]; [frame | | frame].
    apply (grows_bind 1 0); [apply grows_push|]. intros _.
    apply (grows_bind 0 0); [apply grows_add_processed|]. intros _.
    apply (grows_bind 0 0); [apply grows_set_everOpenedEditor|]. intros _.
    frame.
  - intros stop. apply grows_frame. intros v.
    destruct stop; keeps_all; apply keeps_ensureFileListVisible.
Qed.

Lemma grows_loop_body : forall root totalStart title,
  grows 1 (loop_body root totalStart title).
Proof.
  intros root totalStart title. unfold loop_body.
  apply (grows_catch 1 0); [|intros e; frame].
  apply (grows_bind 0 1);
    [apply grows_frame; intros v; apply keeps_ensureFileListVisible|].
  intros listReady. destruct (negb listReady); [frame|].
  apply (grows_bind 0 1); [frame|].
  intros v0. destruct (has_title title (processedTitles v0)); [frame|].
  apply (grows_bind 0 1); [frame|].
  intros clicked. destruct (negb clicked); [frame|].
  apply (grows_bind 0 1);
    [apply grows_frame; intros v; apply keeps_selectCodeTab|].
  intros _. apply (grows_bind 0 1); [frame|].
  intros now. destruct (_ <=? _)%Z; [frame|].
  apply (grows_bind 0 1);
    [apply grows_frame; intros v; apply keeps_poll_content|].
  intros content. apply grows_after_content.
Qed.

Lemma grows_for_titles : forall root totalStart titles,
  grows (List.length titles) (for_titles root totalStart titles).
Proof.
  intros root totalStart. induction titles as [|title rest IH];
    cbn [for_titles List.length]; [frame|].
  apply (grows_bind 0 (S (List.length rest))); [frame|].
  intros now. destruct (_ >? _)%Z; [frame|].
  apply (grows_bind 1 (List.length rest)); [apply grows_loop_body|].
  intros [|]; [exact IH | frame].
Qed.

End Growth.

(** X18.  The loop over the titles only appends to the results, at most
    one section for each title, and a round for a title that is already
    processed changes neither the results nor the processed titles. *)
Theorem loop_adds_one_per_title :
  forall (H : Host) root totalStart titles (s : St),
  (exists extra,
     results (vars (snd (for_titles root totalStart titles s)))
     = results (vars s) ++ extra
     /\ List.length extra <= List.length titles)
  /\ (forall title,
        has_title title (processedTitles (vars s)) = true ->
        vars (snd (loop_body root totalStart title s)) = vars s).
Proof.
  intros H root totalStart titles s. split.
  - apply grows_for_titles.
  - intros title Hseen. unfold loop_body, catch. unfold bind at 1.
    destruct (ensureFileListVisible root s) as [[listReady|e] s1] eqn:E.
    + assert (Hv : vars s1 = vars s).
      { eapply vars_kept; [|exact E].
        intros v. apply keeps_ensureFileListVisible. }
      destruct listReady; cbn [negb]; [|exact Hv].
      unfold bind at 1, get_vars at 1. rewrite Hv, Hseen. exact Hv.
    + cbn [snd]. eapply vars_kept; [|exact E].
      intros v. apply keeps_ensureFileListVisible.
Qed.

Lemma loop_adds_one_per_title_witness :
  let H := vanishing_host in
  let s : St :=
    {| host := list_page; clock := 0;
       vars := {| results := [canvas_of_a]; processedTitles := [lit "a.py"];
                  everOpenedEditor := true |};
       trace := [] |} in
  has_title (lit "a.py") (processedTitles (vars s)) = true
  /\ vars (snd (loop_body greeting_main 0 (lit "a.py") s)) = vars s
  /\ opened (host (snd (loop_body greeting_main 0 (lit "a.py") s))) = None
  /\ List.length
       (results (vars (snd (for_titles greeting_main 0
                              [lit "a.py"; lit "b.js"] s)))) = 2.
Proof.
  intros H s.
  destruct (loop_adds_one_per_title H greeting_main 0%Z
              [lit "a.py"; lit "b.js"] s) as [_ Hskip].
  split; [reflexivity|]. split; [exact (Hskip (lit "a.py") eq_refl)|].
  split; vm_compute; reflexivity.
Defined.

(** ** Making the list of files visible *)

Section Observed.

Context {H : Host} {A : Type}.
Variable truthy : A -> bool.
Variable fn : M A.
Variable start timeout : Z.
Variable interval : positive.

(** A value returned by [waitFor] is the last thing the condition
    answered. *)
Lemma waitFor_loop_some : forall rounds s v s',
  waitFor_loop truthy fn start timeout interval rounds s
  = (Normal (Some v), s') ->
  truthy v = true /\ exists s0, fn s0 = (Normal v, s').
Proof.
  induction rounds as [|rounds IH]; intros s v s'; cbn [waitFor_loop];
    [discriminate|].
  destruct (clock s - start <? timeout)%Z; [|discriminate].
  destruct (fn s) as [[r|e] s1] eqn:E; [|apply IH].
  destruct (truthy r) eqn:Er; [|apply IH].
  intros E'. injection E' as <- <-. split; [exact Er|]. now exists s.
Qed.

End Observed.

(** A wait for the list that answers [true] has just seen the list. *)
Lemma waitListVisible_triple : forall (H : Host) root (P : St -> Prop),
  triple P (waitListVisible root)
    (fun ok s' =>
       ok = true -> exists s0, isFileListVisible root s0 = (Normal true, s')).
Proof.
  intros H root P s ok s' _. unfold waitListVisible, bind, waitFor.
  destruct (waitFor_loop _ _ _ _ _ _ s) as [[[v|]|e] s1] eqn:E;
    try discriminate; intros E' Hok; injection E' as <- <-;
    [|discriminate].
  apply waitFor_loop_some in E. destruct E as [Hv Hs0].
  unfold truthy_bool in Hv. now subst v.
Qed.

(** X19.  The answer of [ensureFileListVisible] is always the answer of
    the visibility check it made last: it returns [true] only from a
    state in which the list of files was just seen visible, [false] only
    from a state in which it was just seen hidden, and nothing is clicked
    after that check. *)
Theorem ensureFileListVisible_observed : forall (H : Host) root (s s' : St) b,
  ensureFileListVisible root s = (Normal b, s') ->
  exists s0, isFileListVisible root s0 = (Normal b, s').
Proof.
  intros H root s s' b Hrun.
  refine (_ : (fun b s' => exists s0, isFileListVisible root s0 = (Normal b, s'))
                b s').
  revert Hrun. generalize I. revert s b s'.
  change (triple (fun _ => True) (ensureFileListVisible root)
            (fun b s' => exists s0, isFileListVisible root s0 = (Normal b, s'))).
  unfold ensureFileListVisible.
  eapply triple_bind; [apply triple_run|]. intros [|]; cbv beta.
  { apply triple_ret. auto. }
  skip_step as sidePanel.
  apply triple_bind
    with (R := fun found s' =>
                 found = true ->
                 exists s0, isFileListVisible root s0 = (Normal true, s')).
  - destruct sidePanel as [sp|]; [|apply triple_ret; discriminate].
    skip_step as back.
    apply triple_bind
      with (R := fun ok s' =>
                   ok = true ->
                   exists s0, isFileListVisible root s0 = (Normal true, s')).
    + destruct back; [apply waitListVisible_triple|].
      apply triple_ret. discriminate.
    + intros [|]; [apply triple_ret; auto|].
      skip_step as files.
      destruct files; [apply waitListVisible_triple|].
      apply triple_ret. discriminate.
  - intros [|]; [apply triple_ret; auto|].
    skip_step as closeBtn. skip_step as u. skip_step as v.
    apply triple_run.
Qed.

Lemma ensureFileListVisible_observed_witness :
  let H := vanishing_host in
  let hidden := {| opened := Some (lit "a.py"); list_shown := false;
                   reads := 0 |} in
  fst (ensureFileListVisible greeting_main (start_state H list_page))
  = Normal true
  /\ fst (ensureFileListVisible greeting_main (start_state H hidden))
     = Normal false
  /\ exists s0,
       isFileListVisible greeting_main s0
       = (Normal false,
          snd (ensureFileListVisible greeting_main (start_state H hidden))).
Proof.
  intros H hidden.
  split; [reflexivity|]. split; [reflexivity|].
  apply (ensureFileListVisible_observed H greeting_main (start_state H hidden)).
  reflexivity.
Defined.

(** * Further properties of running text *)

Lemma inline_text_clean : forall newURL el c,
  trim (inline_text newURL el c) = inline_text newURL el c
  /\ lf_runs_below 2 (inline_text newURL el c)
  /\ blank_lf_free (inline_text newURL el c).
Proof.
  intros newURL el c. unfold inline_text. split; [apply trim_idem|]. split.
  - apply lf_runs_below_trim. apply (squeeze_below 0).
  - apply blank_lf_free_trim.
    apply (squeeze_blank_lf_free 0), replace_blanks_free.
Qed.

(** X20.  The text of a paragraph, of a bold or italic run and of a
    heading holds no empty line and no blank at the end of a line, and no
    white space around it; a paragraph is that text and an empty line,
    bold and italic runs are that text between their marks, a heading of
    level 1 to 6 is that text after as many [#], and each is dropped when
    the text is empty. *)
Theorem running_text : forall newURL attrs disp children c,
  let el := fun tag : str => Elem tag attrs disp children in
  let text := inline_text newURL (el (lit "p")) c in
  (trim text = text /\ lf_runs_below 2 text /\ blank_lf_free text)
  /\ convertNode newURL (el (lit "p")) c
     = match text with [] => [] | _ => text ++ [LF; LF] end
  /\ convertNode newURL (el (lit "strong")) c
     = match text with [] => [] | _ => lit "**" ++ text ++ lit "**" end
  /\ convertNode newURL (el (lit "b")) c
     = convertNode newURL (el (lit "strong")) c
  /\ convertNode newURL (el (lit "em")) c
     = match text with [] => [] | _ => lit "*" ++ text ++ lit "*" end
  /\ convertNode newURL (el (lit "i")) c
     = convertNode newURL (el (lit "em")) c
  /\ (forall level,
        1 <= level <= 6 ->
        convertNode newURL (el (lit "h" ++ decimal level)) c
        = match text with
          | [] => []
          | _ => [LF] ++ Js.repeat (lit "#") level ++ [SP] ++ text ++ [LF; LF]
          end).
Proof.
  intros newURL attrs disp children c el text.
  split; [apply inline_text_clean|].
  unfold text, inline_text, el.
  change (convertChildren newURL (Elem (lit "p") attrs disp children) c)
    with (List.concat (List.map (fun ch => convertNode newURL ch c) children)).
  repeat split; try reflexivity;
    try (cbn [convertNode]; destruct (trim _); reflexivity).
  intros level Hlevel.
  assert (Hcases : level = 1 \/ level = 2 \/ level = 3 \/ level = 4
                   \/ level = 5 \/ level = 6) by lia.
  repeat (destruct Hcases as [-> | Hcases];
          [cbn [convertNode]; destruct (trim _); reflexivity|]).
  subst level. cbn [convertNode]. destruct (trim _); reflexivity.
Qed.

Lemma running_text_witness :
  convertNode keep_url
    (Elem (lit "h2") [] []
       [ Text (lit "  Plan " ++ [LF; LF; LF] ++ lit "B  ");
         Elem (lit "em") [] [] [Text (lit " now ")] ])
    top_ctx
  = [LF] ++ lit "## Plan" ++ [LF] ++ lit "B  *now*" ++ [LF; LF].
Proof.
  destruct (running_text keep_url [] []
              [ Text (lit "  Plan " ++ [LF; LF; LF] ++ lit "B  ");
                Elem (lit "em") [] [] [Text (lit " now ")] ] top_ctx)
    as (_ & _ & _ & _ & _ & _ & Hheading).
  assert (Hlevel : 1 <= 2 <= 6) by lia.
  exact (Hheading 2 Hlevel).
Defined.

(** * Further properties of the context *)

Lemma headLine_same : forall c c' text,
  same_item c c' -> headLine c text = headLine c' text.
Proof.
  intros c c' text (Hd & Ho & Hi). unfold headLine, bullet.
  now rewrite Hd, Ho, Hi.
Qed.

Lemma list_lines_same : forall (convItem : node -> ctx -> str) c c' ordered children,
  Forall (fun ch => forall k k', same_item k k' -> convItem ch k = convItem ch k')
    children ->
  same_depth c c' ->
  forall index,
    list_lines convItem c ordered index children
    = list_lines convItem c' ordered index children.
Proof.
  intros convItem c c' ordered children Hall Hd.
  induction Hall as [|ch rest Hch _ IH]; intros index; [reflexivity|].
  cbn [list_lines]. destruct (tag_is "li" ch); [|apply IH].
  rewrite IH. f_equal. apply Hch. repeat split; cbn. now rewrite Hd.
Qed.

Lemma context_frame : forall newURL n,
  (forall c c', same_depth c c' ->
                convertNode newURL n c = convertNode newURL n c')
  /\ (forall c c', same_item c c' ->
                   convertListItem newURL n c = convertListItem newURL n c').
Proof.
  intros newURL n.
  induction n as [v| |tag attrs disp children IH] using node_induction.
  - split; [reflexivity|]. intros c c' Hs. now apply headLine_same.
  - split; [reflexivity|]. intros c c' Hs. now apply headLine_same.
  - assert (Hmap : forall k k',
              same_depth k k' ->
              List.map (fun ch => convertNode newURL ch k) children
              = List.map (fun ch => convertNode newURL ch k') children).
    { intros k k' Hk. apply map_ext_in. intros ch Hch.
      rewrite Forall_forall in IH. now apply (proj1 (IH ch Hch)). }
    split.
    + intros c c' Hd.
      assert (Hlist : convertList_with (convertListItem newURL) tag children c
                      = convertList_with (convertListItem newURL) tag children c').
      { unfold convertList_with. rewrite (list_lines_same _ c c'); auto.
        eapply Forall_impl; [|exact IH]. intros ch [_ Hch]. exact Hch. }
      cbn [convertNode].
      rewrite (Hmap c c' Hd).
      rewrite (Hmap {| listDepth := listDepth c; inBlockquote := true;
                       listOrdered := listOrdered c;
                       listIndex := listIndex c |}
                    {| listDepth := listDepth c'; inBlockquote := true;
                       listOrdered := listOrdered c';
                       listIndex := listIndex c' |} Hd).
      rewrite Hlist. reflexivity.
    + intros c c' Hs. rewrite !convertListItem_eq.
      unfold ownText, nestedLists. cbn [childNodes].
      assert (Hd : same_depth c c') by apply Hs.
      replace (List.map
                 (fun ch => if is_list ch then [] else [convertNode newURL ch c])
                 children)
        with (List.map
                (fun ch => if is_list ch then [] else [convertNode newURL ch c'])
                children).
      * replace (List.map (fun nl => trimEnd (convertNode newURL nl c))
                   (filter is_list children))
          with (List.map (fun nl => trimEnd (convertNode newURL nl c'))
                  (filter is_list children)).
        -- now rewrite (headLine_same c c' _ Hs).
        -- apply map_ext_in. intros ch Hch. apply filter_In in Hch.
           rewrite Forall_forall in IH.
           now rewrite (proj1 (IH ch (proj1 Hch)) c c' Hd).
      * apply map_ext_in. intros ch Hch. destruct (is_list ch); auto.
        rewrite Forall_forall in IH.
        now rewrite (proj1 (IH ch Hch) c c' Hd).
Qed.

(** X21.  Of the context, a node reads the list depth only: its Markdown
    is the same inside and outside a quote, and the marker and the index
    of the enclosing list matter to the items of that list alone.  An
    item reads the depth, the marker and the index. *)
Theorem context_independence : forall newURL n c c',
  (listDepth c = listDepth c' ->
   convertNode newURL n c = convertNode newURL n c')
  /\ (listDepth c = listDepth c' -> listOrdered c = listOrdered c' ->
      listIndex c = listIndex c' ->
      convertListItem newURL n c = convertListItem newURL n c').
Proof.
  intros newURL n c c'. destruct (context_frame newURL n) as [Hnode Hitem].
  split.
  - apply Hnode.
  - intros Hd Ho Hi. apply Hitem. now repeat split.
Qed.

Lemma context_independence_witness :
  let quoted :=
    {| listDepth := 0; inBlockquote := true; listOrdered := true;
       listIndex := 7 |} in
  listDepth top_ctx = listDepth quoted
  /\ convertNode keep_url two_level_list top_ctx
     = convertNode keep_url two_level_list quoted.
Proof.
  intros quoted.
  destruct (context_independence keep_url two_level_list top_ctx quoted)
    as [Hnode _].
  split; [reflexivity | exact (Hnode eq_refl)].
Defined.

(** * Further properties of the candidates *)

(** X22.  A turn that the collector returns lies under the search root
    and was found by a selector: by one of the turn selectors of the
    user or of the model, or, only when those find nothing in the whole
    tree, by one of the fallback selectors, and then its text is not
    blank. *)
Theorem collected_origin : forall searchRoot h,
  In h (collectConversationNodes searchRoot) ->
  In h (descendants ([], searchRoot))
  /\ (matches (userSelectors ++ modelSelectors) (snd h) = true
      \/ (querySelectorAll ([], searchRoot) (userSelectors ++ modelSelectors)
          = []
          /\ matches turnSelectors (snd h) = true
          /\ has_text (snd h) = true)).
Proof.
  intros searchRoot h Hin. apply turns_incl in Hin.
  unfold turnCandidates in Hin.
  destruct (querySelectorAll ([], searchRoot)
              (userSelectors ++ modelSelectors)) as [|x l] eqn:E.
  - apply filter_In in Hin. destruct Hin as [Hin Htext].
    unfold querySelectorAll in Hin. apply filter_In in Hin.
    destruct Hin as [Hin Hm]. split; [exact Hin|]. right. auto.
  - rewrite <- E in Hin. unfold querySelectorAll in Hin.
    apply filter_In in Hin. destruct Hin as [Hin Hm]. split; auto.
Qed.

Lemma collected_origin_witness :
  let listed :=
    Elem (lit "main") [] []
      [ Elem (lit "div") [(lit "role", lit "listitem")] [] [Text (lit "Hi")];
        Elem (lit "div") [(lit "role", lit "listitem")] [] [Text [SP]] ] in
  collectConversationNodes listed
  = [([0], Elem (lit "div") [(lit "role", lit "listitem")] [] [Text (lit "Hi")])]
  /\ querySelectorAll ([], listed) (userSelectors ++ modelSelectors) = []
  /\ has_text (Elem (lit "div") [(lit "role", lit "listitem")] []
                 [Text (lit "Hi")]) = true.
Proof.
  intros listed.
  assert (Hrun : collectConversationNodes listed
                 = [([0], Elem (lit "div") [(lit "role", lit "listitem")] []
                            [Text (lit "Hi")])])
    by (vm_compute; reflexivity).
  split; [exact Hrun|].
  destruct (collected_origin listed
              ([0], Elem (lit "div") [(lit "role", lit "listitem")] []
                      [Text (lit "Hi")])) as [_ [Hprimary | (Hnone & _ & Htext)]].
  - rewrite Hrun. now left.
  - vm_compute in Hprimary. discriminate.
  - split; [exact Hnone | exact Htext].
Defined.

(** * Further properties of the editor *)

Lemma longer_counts : forall best m,
  counts m ->
  Monaco.longer best m
  = Normal
      match best with
      | None => Some (m, lineCount m)
      | Some (_, bestCount) =>
          if (bestCount <? lineCount m)%N then Some (m, lineCount m) else best
      end.
Proof.
  intros best m Hm. unfold Monaco.longer, lineCount.
  destruct (Monaco.getLineCount m) as [[n|e]|] eqn:E; cbn [Monaco.andThen].
  - destruct best as [[b bc]|]; [destruct (bc <? n)%N|]; reflexivity.
  - exfalso. exact (Hm e E).
  - destruct best as [[b bc]|]; [destruct (bc <? 0)%N|]; reflexivity.
Qed.

Lemma first_longest_snoc_keep : forall l i m m',
  first_longest l i m -> (lineCount m' <= lineCount m)%N ->
  first_longest (l ++ [m']) i m.
Proof.
  intros l i m m' (Hi & Hmax & Hfirst) Hle.
  assert (Hlt : i < List.length l) by (apply nth_error_Some; congruence).
  split; [|split].
  - now rewrite nth_error_app1.
  - intros j x Hj. destruct (Nat.lt_ge_cases j (List.length l)) as [Hl|Hl].
    + rewrite nth_error_app1 in Hj by assumption. eauto.
    + rewrite nth_error_app2 in Hj by assumption.
      destruct (j - List.length l) as [|k]; cbn in Hj.
      * now injection Hj as <-.
      * destruct k; discriminate.
  - intros j x Hji Hj. rewrite nth_error_app1 in Hj by lia. eauto.
Qed.

Lemma first_longest_snoc_new : forall l i m m',
  first_longest l i m -> (lineCount m < lineCount m')%N ->
  first_longest (l ++ [m']) (List.length l) m'.
Proof.
  intros l i m m' (Hi & Hmax & Hfirst) Hlt.
  split; [|split].
  - rewrite nth_error_app2, Nat.sub_diag by lia. reflexivity.
  - intros j x Hj. destruct (Nat.lt_ge_cases j (List.length l)) as [Hl|Hl].
    + rewrite nth_error_app1 in Hj by assumption.
      specialize (Hmax j x Hj). lia.
    + rewrite nth_error_app2 in Hj by assumption.
      destruct (j - List.length l) as [|k]; cbn in Hj.
      * injection Hj as <-. lia.
      * destruct k; discriminate.
  - intros j x Hjl Hj. rewrite nth_error_app1 in Hj by assumption.
    specialize (Hmax j x Hj). lia.
Qed.

Lemma reduce_first_longest : forall rest seen i m,
  Forall counts rest -> first_longest seen i m ->
  exists i' m',
    Monaco.reduce rest (Some (m, lineCount m)) = Normal (Some (m', lineCount m'))
    /\ first_longest (seen ++ rest) i' m'.
Proof.
  induction rest as [|x rest IH]; intros seen i m Hrest Hbest.
  - exists i, m. rewrite app_nil_r. split; [reflexivity | exact Hbest].
  - inversion Hrest as [|? ? Hx Hrest']; subst.
    cbn [Monaco.reduce]. rewrite (longer_counts _ x Hx).
    cbn [Monaco.andThen].
    replace (seen ++ x :: rest) with ((seen ++ [x]) ++ rest)
      by now rewrite <- app_assoc.
    destruct (N.ltb_spec (lineCount m) (lineCount x)) as [Hlt|Hge].
    + apply (IH (seen ++ [x]) (List.length seen) x Hrest').
      now apply first_longest_snoc_new with i m.
    + apply (IH (seen ++ [x]) i m Hrest').
      now apply first_longest_snoc_keep.
Qed.

(** X23.  [getMonacoModelContent] reads the first of the models that has
    the greatest number of lines, a model without [getLineCount] counting
    for none: it returns the value and the language of that model.  It
    returns [null] when the editor is absent or has no model, and an
    exception of the editor gives [null] as well. *)
Theorem longest_model_content : forall models,
  (models <> [] -> Forall counts models ->
   exists i m,
     first_longest models i m
     /\ Monaco.getMonacoModelContent (Some (Normal (Some models)))
        = content_of m)
  /\ Monaco.getMonacoModelContent None = None
  /\ Monaco.getMonacoModelContent (Some (Normal None)) = None
  /\ Monaco.getMonacoModelContent (Some (Normal (Some []))) = None
  /\ (forall e, Monaco.getMonacoModelContent (Some (Throw e)) = None).
Proof.
  intros models. split; [|repeat split].
  intros Hne Hcount. destruct models as [|x rest]; [contradiction|].
  inversion Hcount as [|? ? Hx Hrest]; subst.
  assert (Hfirst : first_longest [x] 0 x).
  { split; [reflexivity|]. split.
    - intros [|[|j]] m' Hj; try discriminate. injection Hj as <-. lia.
    - intros j m' Hj. lia. }
  destruct (reduce_first_longest rest [x] 0 x Hrest Hfirst)
    as (i & m & Hrun & Hlongest).
  exists i, m. split; [exact Hlongest|].
  unfold Monaco.getMonacoModelContent. cbn [Monaco.andThen Monaco.reduce].
  rewrite (longer_counts None x Hx). cbn [Monaco.andThen].
  rewrite Hrun. cbn [Monaco.andThen option_map fst]. unfold content_of.
  destruct (Monaco.getValue m) as [[code|e]|]; try reflexivity.
  cbn [Monaco.andThen].
  destruct (Monaco.getLanguageId m) as [[id|e]|]; reflexivity.
Qed.

Lemma longest_model_content_witness :
  let model lines code :=
    {| Monaco.getLineCount := option_map (@Normal N) lines;
       Monaco.getValue := Some (Normal (lit code));
       Monaco.getLanguageId := None;
       Monaco.languageIdentifier := Some (lit "python") |} in
  let models := [ model (Some 2%N) "a"%string; model None "b"%string;
                  model (Some 7%N) "c"%string; model (Some 7%N) "d"%string ] in
  Forall counts models
  /\ exists i m,
       first_longest models i m
       /\ content_of m = Some (lit "c", lit "python").
Proof.
  intros model models.
  assert (Hcount : Forall counts models).
  { repeat constructor; intros e; discriminate. }
  assert (Hne : models <> []) by discriminate.
  split; [exact Hcount|].
  destruct (longest_model_content models) as [Hlongest _].
  destruct (Hlongest Hne Hcount) as (i & m & Hfirst & Hcontent).
  exists i, m. split; [exact Hfirst|].
  rewrite <- Hcontent. reflexivity.
Defined.

(** ** The lines on display *)

Section ViewFacts.

Context {Ed : View.Editor}.

(** The loop leaves when the position has passed the height: more rounds
    than [(max - pos) / step + 1] change nothing. *)
Lemma scroll_enough : forall fuel extra pos max step collected w,
  (0 < step)%Z -> ((max - pos) / step + 1 <= Z.of_nat fuel)%Z ->
  View.scroll (fuel + extra) pos max step collected w
  = View.scroll fuel pos max step collected w.
Proof.
  induction fuel as [|fuel IH]; intros extra pos max step collected w Hstep Hfuel.
  - assert (Hlt : (max < pos)%Z).
    { destruct (Z.lt_ge_cases max pos) as [|Hge]; auto.
      assert (0 <= (max - pos) / step)%Z by (apply Z.div_pos; lia). lia. }
    destruct extra as [|extra]; [reflexivity|].
    cbn [Nat.add View.scroll].
    destruct (Z.leb_spec pos max); [lia | reflexivity].
  - cbn [Nat.add View.scroll].
    destruct (Z.leb_spec pos max) as [Hle|]; [|reflexivity].
    apply IH; auto.
    replace (max - pos)%Z with (max - (pos + step) + 1 * step)%Z in Hfuel
      by lia.
    rewrite Z.div_add in Hfuel by lia. lia.
Qed.

Lemma join_nil_concat : forall sep (l : list str),
  join sep l = [] -> List.concat l = [].
Proof.
  induction l as [|p rest IH]; [reflexivity|].
  destruct rest as [|q rest'].
  - cbn. intros ->. reflexivity.
  - change (join sep (p :: q :: rest')) with (p ++ sep ++ join sep (q :: rest')).
    intros E. apply app_eq_nil in E. destruct E as [-> E].
    apply app_eq_nil in E. destruct E as [_ E].
    cbn [List.concat app]. now apply IH.
Qed.

Lemma no_repeat_snoc : forall l x,
  no_repeat l ->
  (forall last r, rev l = last :: r -> last <> x) ->
  no_repeat (l ++ [x]).
Proof.
  induction l as [|a l IH]; intros x Hl Hlast; [cbn; auto|].
  cbn [app no_repeat]. destruct Hl as [Ha Hl]. split.
  - destruct l as [|b l']; cbn [app]; [|exact Ha].
    apply (Hlast a []). reflexivity.
  - destruct l as [|b l']; [cbn; auto|].
    apply IH; auto. intros last r Hrev.
    apply (Hlast last (r ++ [a])). cbn [rev] in *. now rewrite Hrev.
Qed.

Lemma compress_no_repeat : forall collected acc,
  no_repeat acc ->
  no_repeat
    (fold_left
       (fun compressed l =>
          match rev compressed with
          | [] => compressed ++ [l]
          | last :: _ =>
              if Js.eqb last l then compressed else compressed ++ [l]
          end)
       collected acc).
Proof.
  induction collected as [|l rest IH]; intros acc Hacc; [exact Hacc|].
  cbn [fold_left]. apply IH.
  destruct (rev acc) as [|last r] eqn:Er.
  - apply no_repeat_snoc; auto. rewrite Er. discriminate.
  - destruct (Js.eqb last l) eqn:E; auto.
    apply no_repeat_snoc; auto. rewrite Er.
    intros last' r' E' <-. injection E' as <- _.
    assert (Hrefl : Js.eqb last last = true) by now apply Js_eqb_eq.
    congruence.
Qed.

End ViewFacts.

(** X24.  [readMonacoDomText] never returns the empty text: it returns a
    text that is not empty, or [null].  With two lines or more on
    display and some text in them it returns these lines and leaves the
    editor alone, as it does when the editor cannot scroll.  Otherwise it
    scrolls through the whole height, and the last thing it does to the
    editor is to set the scroll offset it found; the lines it has
    collected are joined without a line repeated next to itself. *)
Theorem readMonacoDomText_result : forall (Ed : View.Editor) (w : View.E),
  let lines := View.readLines w in
  fst (View.readMonacoDomText w) <> Some []
  /\ (1 < List.length lines -> trim (List.concat lines) <> [] ->
      View.readMonacoDomText w = (Some (join [LF] lines), w))
  /\ (View.scrollable w = false -> snd (View.readMonacoDomText w) = w)
  /\ (snd (View.readMonacoDomText w) = w
      \/ exists w2,
           snd (View.readMonacoDomText w)
           = View.set_scrollTop (View.scrollTop w) w2)
  /\ (forall collected, no_repeat (View.compress collected))
  /\ (forall extra collected,
        View.scroll
          (Z.to_nat (View.scrollHeight w / View.step_of w + 1) + extra)
          0 (View.scrollHeight w) (View.step_of w) collected w
        = View.scroll (Z.to_nat (View.scrollHeight w / View.step_of w + 1))
            0 (View.scrollHeight w) (View.step_of w) collected w).
Proof.
  intros Ed w lines.
  assert (Hnonempty : forall o : option str, nonempty o <> Some []).
  { intros [[|x t]|]; discriminate. }
  unfold View.readMonacoDomText. fold lines.
  split; [|split; [|split; [|split; [|split]]]].
  - destruct (_ && _ && _) eqn:Efast.
    + cbn [fst]. intros E. injection E as E.
      apply join_nil_concat in E.
      apply andb_true_iff in Efast. destruct Efast as [Efast _].
      apply andb_true_iff in Efast. destruct Efast as [_ Etext].
      rewrite E in Etext. discriminate.
    + destruct (negb (View.scrollable w)); [apply Hnonempty|].
      destruct (View.scroll _ _ _ _ _ _) as [collected w1].
      apply Hnonempty.
  - intros Hlen Htext.
    assert (E1 : (0 <? List.length lines) = true) by (apply Nat.ltb_lt; lia).
    assert (E2 : (1 <? List.length lines) = true) by now apply Nat.ltb_lt.
    rewrite E1, E2.
    destruct (trim (List.concat lines)); [contradiction | reflexivity].
  - intros Hs. rewrite Hs. destruct (_ && _ && _); reflexivity.
  - destruct (_ && _ && _); [now left|].
    destruct (negb (View.scrollable w)); [now left|].
    destruct (View.scroll _ _ _ _ _ _) as [collected w1]. right.
    eexists. reflexivity.
  - intros collected. apply compress_no_repeat. exact I.
  - intros extra collected. apply scroll_enough.
    + unfold View.step_of. lia.
    + rewrite Z.sub_0_r.
      assert (H0 : (0 < View.step_of w)%Z) by (unfold View.step_of; lia).
      destruct (Z.lt_ge_cases (View.scrollHeight w) 0) as [Hneg|Hpos].
      * assert (View.scrollHeight w / View.step_of w < 0)%Z
          by (apply Z.div_lt_upper_bound; lia).
        lia.
      * assert (0 <= View.scrollHeight w / View.step_of w)%Z
          by (apply Z.div_pos; lia).
        lia.
Qed.

Lemma readMonacoDomText_result_witness :
  1 < List.length (@View.readLines (sample_editor 2) 0%Z)
  /\ @View.readMonacoDomText (sample_editor 2) 0%Z
     = (Some (lit "a" ++ [LF] ++ lit "b"), 0%Z)
  /\ @View.readMonacoDomText (sample_editor 1) 300%Z
     = (Some (lit "b" ++ [LF] ++ lit "a" ++ [LF] ++ lit "b" ++ [LF] ++ lit "c"),
        300%Z).
Proof.
  destruct (readMonacoDomText_result (sample_editor 2) 0%Z)
    as (_ & Hfast & _).
  assert (Hlen : 1 < List.length (@View.readLines (sample_editor 2) 0%Z))
    by (cbn; lia).
  split; [exact Hlen|]. split.
  - rewrite (Hfast Hlen); [reflexivity | discriminate].
  - vm_compute. reflexivity.
Defined.

(** * Further properties of the list of files *)

(** ** Paths in the tree *)

Lemma walk_children_In : forall h p cs i,
  In h (walk_children p i cs)
  <-> exists j c, nth_error cs j = Some c /\ In h (walk (p ++ [i + j]) c).
Proof.
  intros h p cs. induction cs as [|c cs IH]; intros i; cbn [walk_children].
  - split; [contradiction|]. intros (j & c & Hj & _). now destruct j.
  - rewrite in_app_iff, IH. split.
    + intros [Hin | (j & c' & Hj & Hin)].
      * exists 0, c. rewrite Nat.add_0_r. auto.
      * exists (S j), c'. rewrite Nat.add_succ_r. auto.
    + intros ([|j] & c' & Hj & Hin); cbn [nth_error] in Hj.
      * injection Hj as <-. rewrite Nat.add_0_r in Hin. now left.
      * right. exists j, c'. rewrite Nat.add_succ_r in Hin. auto.
Qed.

Lemma descendants_In : forall h p n,
  In h (tl (walk p n))
  <-> exists j c, nth_error (childNodes n) j = Some c
                  /\ In h (walk (p ++ [j]) c).
Proof.
  intros h p [v| |t a d ch]; cbn [childNodes].
  - split; [contradiction|]. intros (j & c & Hj & _). now destruct j.
  - split; [contradiction|]. intros (j & c & Hj & _). now destruct j.
  - rewrite walk_Elem. cbn [tl]. apply walk_children_In.
Qed.

(** A node found under [n] lies at the end of a path from [n]. *)
Lemma walk_node_at : forall n p q m,
  In (q, m) (walk p n) ->
  exists r, q = p ++ r /\ Sidebar.node_at n r = Some m.
Proof.
  induction n as [v| |t a d ch IH] using node_induction; intros p q m Hin.
  - destruct Hin as [E|[]]. injection E as <- <-.
    exists []. now rewrite app_nil_r.
  - destruct Hin as [E|[]]. injection E as <- <-.
    exists []. now rewrite app_nil_r.
  - rewrite walk_cons in Hin. destruct Hin as [E|Hin].
    + injection E as <- <-. exists []. now rewrite app_nil_r.
    + apply descendants_In in Hin. destruct Hin as (j & c & Hj & Hin).
      cbn [childNodes] in Hj. rewrite Forall_forall in IH.
      destruct (IH c (nth_error_In _ _ Hj) _ _ _ Hin) as (r & -> & Hr).
      exists (j :: r). rewrite <- app_assoc. split; [reflexivity|].
      cbn [Sidebar.node_at childNodes]. now rewrite Hj.
Qed.

Lemma descendants_node_at : forall n p q m,
  In (q, m) (tl (walk p n)) ->
  exists j r, q = p ++ j :: r /\ Sidebar.node_at n (j :: r) = Some m.
Proof.
  intros n p q m Hin. apply descendants_In in Hin.
  destruct Hin as (j & c & Hj & Hin).
  apply walk_node_at in Hin. destruct Hin as (r & -> & Hr).
  exists j, r. rewrite <- app_assoc. split; [reflexivity|].
  cbn [Sidebar.node_at]. now rewrite Hj.
Qed.

(** The node at the end of a path from [n] is found under [n]. *)
Lemma node_at_walk : forall r n p m,
  Sidebar.node_at n r = Some m -> In (p ++ r, m) (walk p n).
Proof.
  induction r as [|j r IH]; intros n p m Hr.
  - injection Hr as <-. rewrite app_nil_r, walk_cons. now left.
  - cbn [Sidebar.node_at] in Hr.
    destruct (nth_error (childNodes n) j) as [c|] eqn:Hj; [|discriminate].
    rewrite walk_cons. right. apply descendants_In.
    exists j, c. split; [exact Hj|].
    replace (p ++ j :: r) with ((p ++ [j]) ++ r) by now rewrite <- app_assoc.
    now apply IH.
Qed.

Lemma node_at_descendant : forall j r n p m,
  Sidebar.node_at n (j :: r) = Some m -> In (p ++ j :: r, m) (tl (walk p n)).
Proof.
  intros j r n p m Hr. cbn [Sidebar.node_at] in Hr.
  destruct (nth_error (childNodes n) j) as [c|] eqn:Hj; [|discriminate].
  apply descendants_In. exists j, c. split; [exact Hj|].
  replace (p ++ j :: r) with ((p ++ [j]) ++ r) by now rewrite <- app_assoc.
  now apply node_at_walk.
Qed.

Lemma node_at_app : forall r n m r',
  Sidebar.node_at n r = Some m ->
  Sidebar.node_at n (r ++ r') = Sidebar.node_at m r'.
Proof.
  induction r as [|j r IH]; intros n m r' Hr.
  - now injection Hr as <-.
  - cbn [app Sidebar.node_at] in *.
    destruct (nth_error (childNodes n) j) as [c|]; [|discriminate].
    now apply IH.
Qed.

(** The nodes on the way to a node are its ancestors. *)
Lemma ancestors_from_In : forall p n m j r,
  Sidebar.node_at n p = Some m ->
  In m (Sidebar.ancestors_from n (p ++ j :: r)).
Proof.
  induction p as [|i p IH]; intros n m j r Hp.
  - injection Hp as <-. now left.
  - cbn [app Sidebar.node_at Sidebar.ancestors_from] in *.
    destruct (nth_error (childNodes n) i) as [c|]; [|discriminate].
    right. now apply IH.
Qed.

(** The descendants of a descendant are descendants. *)
Lemma descendants_trans : forall (c h h' : handle),
  In h (descendants c) -> In h' (descendants h) -> In h' (descendants c).
Proof.
  intros [p n] [q m] [q' m'] Hh Hh'. unfold descendants in *. cbn [fst snd] in *.
  apply descendants_node_at in Hh. destruct Hh as (j & r & -> & Hr).
  apply descendants_node_at in Hh'. destruct Hh' as (j' & r' & -> & Hr').
  rewrite <- app_assoc. cbn [app]. apply node_at_descendant.
  change (j :: r ++ j' :: r') with ((j :: r) ++ j' :: r').
  now rewrite (node_at_app _ _ _ _ Hr).
Qed.

(** ** Titles *)

Lemma distinct_In : forall titles seen t,
  In t (Sidebar.distinct seen titles) <-> In t titles /\ ~ In t seen.
Proof.
  induction titles as [|x rest IH]; intros seen t; cbn [Sidebar.distinct].
  - cbn. tauto.
  - destruct (existsb (Js.eqb x) seen) eqn:E.
    + rewrite IH. apply existsb_exists in E. destruct E as (y & Hy & Exy).
      apply Js_eqb_eq in Exy. subst y. cbn [In].
      split; [tauto|]. intros [[->|Hin] Hnot]; [contradiction | auto].
    + cbn [In]. rewrite IH. cbn [In].
      assert (Hx : ~ In x seen).
      { intros Hin. apply not_true_iff_false in E. apply E.
        apply existsb_exists. exists x. split; auto. now apply Js_eqb_eq. }
      split.
      * intros [<- | (Hin & Hnot)]; [auto | tauto].
      * intros [[<- | Hin] Hnot]; [now left|].
        destruct (list_eq_dec N.eq_dec x t) as [->|Hne]; [now left|].
        right. split; auto. intros [E'|Hin']; auto.
Qed.

Lemma distinct_NoDup : forall titles seen, NoDup (Sidebar.distinct seen titles).
Proof.
  induction titles as [|x rest IH]; intros seen; cbn [Sidebar.distinct].
  - constructor.
  - destruct (existsb (Js.eqb x) seen); [apply IH|].
    constructor; [|apply IH].
    rewrite distinct_In. intros [_ Hnot]. apply Hnot. now left.
Qed.

Lemma listed_In : forall doc containerOf shown root t,
  In t (Sidebar.listCreatedFileTitles doc containerOf shown root) <->
  exists container el,
    containerOf root = Some container
    /\ shown container = true
    /\ In el (Sidebar.titleElements doc container)
    /\ Sidebar.title_of el = t /\ t <> [].
Proof.
  intros doc containerOf shown root t. unfold Sidebar.listCreatedFileTitles.
  destruct (containerOf root) as [container|];
    [|split; [contradiction | intros (? & ? & E & _); discriminate]].
  destruct (shown container) eqn:Ev; cbn [negb].
  - rewrite distinct_In, filter_In, in_map_iff. split.
    + intros [[(el & <- & Hel) Hne] _].
      exists container, el. repeat split; auto.
      intros E. rewrite E in Hne. discriminate.
    + intros (c' & el & E & _ & Hel & <- & Hne). injection E as <-.
      split; [|tauto]. split; [now exists el|].
      destruct (Sidebar.title_of el); [contradiction | reflexivity].
  - split; [contradiction|].
    intros (c' & el & E & Hv & _). injection E as <-. congruence.
Qed.

(** X25.  The titles that [listCreatedFileTitles] returns are all
    different, none is empty and none has white space around it; there
    is none when the container of the files is not found or not
    visible. *)
Theorem listed_titles : forall doc containerOf shown root,
  NoDup (Sidebar.listCreatedFileTitles doc containerOf shown root)
  /\ Forall (fun t => t <> [] /\ trim t = t)
       (Sidebar.listCreatedFileTitles doc containerOf shown root)
  /\ (containerOf root = None ->
      Sidebar.listCreatedFileTitles doc containerOf shown root = [])
  /\ (forall container,
        containerOf root = Some container -> shown container = false ->
        Sidebar.listCreatedFileTitles doc containerOf shown root = []).
Proof.
  intros doc containerOf shown root. split; [|split; [|split]].
  - unfold Sidebar.listCreatedFileTitles.
    destruct (containerOf root) as [container|]; [|constructor].
    destruct (negb (shown container)); [constructor|].
    apply distinct_NoDup.
  - apply Forall_forall. intros t Ht. apply listed_In in Ht.
    destruct Ht as (container & el & _ & _ & _ & <- & Hne).
    split; [exact Hne|]. unfold Sidebar.title_of. apply trim_idem.
  - intros E. unfold Sidebar.listCreatedFileTitles. now rewrite E.
  - intros container E Hv. unfold Sidebar.listCreatedFileTitles.
    now rewrite E, Hv.
Qed.

(** X26.  A file that [openFileByTitle] opens is a file that
    [listCreatedFileTitles] lists: when the function finds a chip for a
    title that is not empty, the title is in the list; and the element it
    clicks is that chip or an element inside it. *)
Theorem opened_title_is_listed : forall doc containerOf shown root title target,
  (forall container,
     containerOf root = Some container ->
     Sidebar.node_at doc (fst container) = Some (snd container)) ->
  Sidebar.openFileByTitle containerOf shown root title = Some target ->
  title <> [] ->
  In title (Sidebar.listCreatedFileTitles doc containerOf shown root)
  /\ exists container chip,
       containerOf root = Some container
       /\ In chip (querySelectorAll container [[TagIs "sidebar-immersive-chip"]])
       /\ (target = chip \/ In target (descendants chip)).
Proof.
  intros doc containerOf shown root title target Hvalid Hopen Hne.
  unfold Sidebar.openFileByTitle in Hopen.
  destruct (containerOf root) as [container|] eqn:Efind; [|discriminate].
  destruct (shown container) eqn:Ev; cbn [negb] in Hopen; [|discriminate].
  destruct (List.find _ (querySelectorAll container _)) as [chip|] eqn:Echip;
    [|discriminate].
  apply find_some in Echip. destruct Echip as [Hchip Htitle].
  split.
  - destruct (querySelector chip [[ClassIs "immersive-title"]])
      as [titleEl|] eqn:Eel; [|discriminate].
    apply Js_eqb_eq in Htitle.
    apply querySelector_In in Eel. destruct Eel as [Hel Hclass].
    apply listed_In. exists container, titleEl.
    split; [exact Efind|]. split; [exact Ev|]. split; [|auto].
    unfold querySelectorAll in Hchip. apply filter_In in Hchip.
    destruct Hchip as [Hchip Htag].
    apply filter_In. split; [now apply descendants_trans with chip|].
    rewrite Hclass. cbn [andb]. apply existsb_exists.
    exists (snd chip). split; [|exact Htag].
    destruct container as [p n]. destruct chip as [q m].
    destruct titleEl as [q' m']. unfold descendants in *. cbn [fst snd] in *.
    apply descendants_node_at in Hchip. destruct Hchip as (j & r & -> & Hr).
    apply descendants_node_at in Hel. destruct Hel as (j' & r' & -> & _).
    apply ancestors_from_In.
    rewrite (node_at_app _ _ _ _ (Hvalid _ eq_refl)). exact Hr.
  - exists container, chip. split; [reflexivity|]. split; [exact Hchip|].
    destruct (querySelector chip [[ClassIs "container"]; [ClassIs "clickable"]])
      as [clickable|] eqn:Eclick.
    + injection Hopen as <-. right. now apply querySelector_In in Eclick.
    + injection Hopen as <-. now left.
Qed.

Lemma listed_titles_witness :
  let root : handle := ([], sidebar_document) in
  Sidebar.listCreatedFileTitles sidebar_document sidebar_container
    (fun _ => true) root
  = [lit "a.py"; lit "b.js"; lit "old.js"]
  /\ Sidebar.listCreatedFileTitles sidebar_document sidebar_container
       (fun _ => false) root = [].
Proof.
  intros root.
  destruct (listed_titles sidebar_document sidebar_container (fun _ => false)
              root) as (_ & _ & _ & Hhidden).
  split; [vm_compute; reflexivity|].
  exact (Hhidden ([0; 0], files_container) eq_refl eq_refl).
Defined.

Lemma opened_title_is_listed_witness :
  let root : handle := ([], sidebar_document) in
  let titles :=
    Sidebar.listCreatedFileTitles sidebar_document sidebar_container
      (fun _ => true) root in
  Sidebar.node_at sidebar_document [0; 0] = Some files_container
  /\ option_map fst
       (Sidebar.openFileByTitle sidebar_container (fun _ => true) root
          (lit "b.js")) = Some [0; 0; 1; 0]
  /\ In (lit "b.js") titles
  /\ In (lit "old.js") titles
  /\ Sidebar.openFileByTitle sidebar_container (fun _ => true) root
       (lit "old.js") = None.
Proof.
  intros root titles.
  destruct (Sidebar.openFileByTitle sidebar_container (fun _ => true) root
              (lit "b.js")) as [target|] eqn:Eopen;
    [|vm_compute in Eopen; discriminate].
  destruct (opened_title_is_listed sidebar_document sidebar_container
              (fun _ => true) root (lit "b.js") target) as [Hlisted _].
  - intros container E. injection E as <-. reflexivity.
  - exact Eopen.
  - discriminate.
  - split; [reflexivity|]. split.
    + vm_compute in Eopen. injection Eopen as <-. reflexivity.
    + split; [exact Hlisted|]. split; [|vm_compute; reflexivity].
      vm_compute. right. right. now left.
Defined.

(** * Further properties of the canvas extraction *)

Section StableFrames.

Context {H : Host}.
Variable P : locals -> list event -> Prop.
Hypothesis P_stable : stable P.

Lemma stable_push : forall content, keeps P (push_result content).
Proof. intros content s Hs. now apply (proj1 P_stable). Qed.

Lemma stable_add_processed : forall title, keeps P (add_processed title).
Proof. intros title s Hs. now apply (proj1 (proj2 P_stable)). Qed.

Lemma stable_set_everOpenedEditor : forall b, keeps P (set_everOpenedEditor b).
Proof. intros b s Hs. now apply (proj2 (proj2 P_stable)). Qed.

Hint Resolve stable_push stable_add_processed stable_set_everOpenedEditor
  keeps_ensureFileListVisible keeps_ensureSidebarOpen keeps_getCanvasContent
  keeps_selectCodeTab keeps_poll_content : keeps.

Lemma stable_after_content : forall root title content,
  keeps P (after_content root title content).
Proof. intros root title content. unfold after_content. keeps_all. Qed.
Hint Resolve stable_after_content : keeps.

Lemma stable_loop_body : forall root totalStart title,
  keeps P (loop_body root totalStart title).
Proof. intros root totalStart title. unfold loop_body. keeps_all. Qed.
Hint Resolve stable_loop_body : keeps.

Lemma stable_for_titles : forall root totalStart titles,
  keeps P (for_titles root totalStart titles).
Proof.
  intros root totalStart. induction titles as [|title rest IH];
    cbn [for_titles]; keeps_all.
Qed.
Hint Resolve stable_for_titles : keeps.

(** What [extractAllCanvasContent] does after it has looked at the
    canvas on display. *)
Lemma stable_listing : forall root totalStart,
  keeps P
    (bind (ensureSidebarOpen root)
       (fun _ =>
          bind (ensureFileListVisible root)
            (fun _ =>
               bind (call (listCreatedFileTitles root))
                 (fun titles =>
                    match titles with
                    | _ :: _ => for_titles root totalStart titles
                    | [] =>
                        bind (call (getCanvasSidebarItems root))
                          (fun _ =>
                             bind get_vars
                               (fun v =>
                                  match results v with
                                  | [] =>
                                      bind (call (tryClickOpenButton root))
                                        (fun opened =>
                                           if opened
                                           then
                                             bind
                                               (waitFor is_content
                                                  (getCanvasContent None)
                                                  3000 100)
                                               (fun _ =>
                                                  bind (getCanvasContent None)
                                                    (fun content =>
                                                       match content with
                                                       | Some (c :: text) =>
                                                           push_result (c :: text)
                                                       | _ => ret tt
                                                       end))
                                           else ret tt)
                                  | _ :: _ => ret tt
                                  end))
                    end)))).
Proof. intros root totalStart. keeps_all. Qed.

End StableFrames.

Lemma has_title_added : forall title titles,
  has_title title
    (if has_title title titles then titles else titles ++ [title]) = true.
Proof.
  intros title titles. destruct (has_title title titles) eqn:E; [exact E|].
  unfold has_title. rewrite existsb_app. cbn [existsb].
  assert (Hrefl : Js.eqb title title = true) by now apply Js_eqb_eq.
  rewrite Hrefl. now rewrite orb_true_r.
Qed.

Lemma recorded_stable : forall before content title,
  stable (recorded before content title).
Proof.
  intros before content title. split; [|split].
  - intros v t c [(rest & E) Ht]. split; [|exact Ht].
    exists (rest ++ [c]). cbn [results]. rewrite E, <- app_assoc. reflexivity.
  - intros v t title' [Hr Ht]. split; [exact Hr|]. cbn [processedTitles].
    destruct (has_title title' (processedTitles v)); auto.
    unfold has_title in *. rewrite existsb_app, Ht. reflexivity.
  - intros v t b HP. exact HP.
Qed.

(** X27.  The canvas that is on display when the extraction starts comes
    first: when [getCanvasContent] finds one, its section follows the
    results already there and precedes every section added later, and the
    title written in the section, trimmed, is among the processed titles
    when the phase ends. *)
Theorem displayed_canvas_first :
  forall (H : Host) root totalStart (s s1 : St) content,
  getCanvasContent None s = (Normal (Some content), s1) ->
  (exists rest,
     results (vars (snd (extract_phase root totalStart s)))
     = results (vars s) ++ content :: rest)
  /\ (forall title lang code,
        content = canvas_section title lang code ->
        forallb is_dot title = true ->
        has_title (trim title)
          (processedTitles (vars (snd (extract_phase root totalStart s))))
        = true).
Proof.
  intros H root totalStart s s1 content Hcontent.
  assert (Hv : vars s1 = vars s).
  { eapply vars_kept; [|exact Hcontent].
    intros v. apply keeps_getCanvasContent. }
  destruct (getCanvasContent_triple H None s _ s1 I Hcontent)
    as [_ (title0 & lang0 & code0 & E0 & Hcode & _)].
  assert (Hne : exists c text, content = c :: text).
  { rewrite E0. unfold canvas_section. eexists _, _. reflexivity. }
  destruct Hne as (c & text & Ec).
  set (title := match canvas_title_match content with
                | Some t => trim t
                | None => lit "Untitled"
                end).
  assert (Hphase :
    recorded (results (vars s)) content title
      (vars (snd (extract_phase root totalStart s)))
      (trace (snd (extract_phase root totalStart s)))).
  { unfold extract_phase. unfold bind at 1. rewrite Hcontent.
    rewrite Ec. unfold bind at 1. unfold bind at 1.
    unfold add_processed at 1, bind at 1, get_vars at 1, set_vars at 1.
    unfold push_result at 1, bind at 1, get_vars at 1.
    unfold bind at 1, set_vars at 1, mark at 1.
    cbn [vars trace host clock results processedTitles everOpenedEditor].
    apply (stable_listing _ (recorded_stable _ _ _)).
    cbn [vars trace results processedTitles].
    rewrite Hv, <- Ec. split; [now exists []|].
    apply has_title_added. }
  destruct Hphase as [Hfirst Htitle]. split; [exact Hfirst|].
  intros title' lang code E Hdot. unfold title in Htitle.
  rewrite E in Htitle. unfold canvas_section in Htitle.
  change (lit "## Canvas: " ++ title' ++ [LF; LF] ++ ticks 3 ++ lang ++ [LF]
            ++ code ++ [LF] ++ ticks 3)
    with (lit "## Canvas: " ++ title'
            ++ LF :: LF :: ticks 3 ++ lang ++ [LF] ++ code ++ [LF] ++ ticks 3)
    in Htitle.
  now rewrite canvas_title_match_heading in Htitle.
Qed.

Lemma displayed_canvas_first_witness :
  exists content s1 lang,
    @getCanvasContent vanishing_host None showing_a
    = (Normal (Some content), s1)
    /\ content = canvas_section (lit "Canvas Content") lang (lit "print(1)")
    /\ hd_error
         (results (vars (snd (@extract_phase vanishing_host greeting_main 0
                                showing_a))))
       = Some content
    /\ has_title (lit "Canvas Content")
         (processedTitles
            (vars (snd (@extract_phase vanishing_host greeting_main 0
                          showing_a)))) = true.
Proof.
  destruct (@getCanvasContent vanishing_host None showing_a)
    as [[[content|]|e] s1] eqn:Hrun; try (vm_compute in Hrun; discriminate).
  exists content, s1, [].
  destruct (displayed_canvas_first vanishing_host greeting_main 0%Z
              showing_a s1 content Hrun) as [(rest & Hfirst) Htitle].
  assert (Hcontent :
            content = canvas_section (lit "Canvas Content") [] (lit "print(1)")).
  { vm_compute in Hrun. injection Hrun as Hc _. subst content. reflexivity. }
  split; [reflexivity|]. split; [exact Hcontent|]. split.
  - rewrite Hfirst. reflexivity.
  - exact (Htitle (lit "Canvas Content") [] (lit "print(1)") Hcontent eq_refl).
Defined.

(** * Further properties of the container of the files *)

Lemma valid_descendant : forall doc h d,
  valid doc h -> In d (descendants h) -> valid doc d.
Proof.
  intros doc [p n] [q m] Hh Hd. unfold valid, descendants in *.
  cbn [fst snd] in *.
  apply descendants_node_at in Hd. destruct Hd as (j & r & -> & Hat).
  rewrite (node_at_app _ _ _ _ Hh). exact Hat.
Qed.

Lemma valid_walk : forall doc d, In d (walk [] doc) -> valid doc d.
Proof.
  intros doc [q m] Hd. apply walk_node_at in Hd.
  destruct Hd as (r & -> & Hat). exact Hat.
Qed.

Lemma elements_valid : forall doc sc sel d,
  valid_scope doc sc -> In d (Created.elements doc sc sel) ->
  valid doc d /\ matches sel (snd d) = true.
Proof.
  intros doc [|h] sel d Hsc Hd; cbn [Created.elements] in Hd.
  - apply (filter_In (fun d => matches sel (snd d))) in Hd.
    destruct Hd as [Hin Hm]. split; [now apply valid_walk | exact Hm].
  - apply (filter_In (fun d => matches sel (snd d))) in Hd.
    destruct Hd as [Hin Hm]. split; [|exact Hm].
    now apply (valid_descendant doc h).
Qed.

Lemma elementsFrom_In : forall parent cs i c,
  In c (Created.elementsFrom parent i cs) ->
  exists k, fst c = parent ++ [i + k]
            /\ nth_error cs k = Some (snd c)
            /\ isElement (snd c) = true.
Proof.
  intros parent. induction cs as [|x cs IH]; intros i c Hc;
    cbn [Created.elementsFrom] in Hc; [contradiction|].
  apply in_app_or in Hc. destruct Hc as [Hc | Hc].
  - destruct (isElement x) eqn:Ex; [|contradiction].
    destruct Hc as [<- | []]. exists 0. rewrite Nat.add_0_r. auto.
  - apply IH in Hc. destruct Hc as (k & Hp & Hn & He).
    exists (S k). rewrite Nat.add_succ_r. auto.
Qed.

Lemma followingElements_In : forall doc el c,
  In c (Created.followingElements doc el) ->
  valid doc c /\ isElement (snd c) = true
  /\ exists parent i k,
       fst el = parent ++ [i] /\ fst c = parent ++ [S i + k].
Proof.
  intros doc el c Hc. unfold Created.followingElements in Hc.
  destruct (rev (fst el)) as [|i parent] eqn:Erev; [contradiction|].
  destruct (Sidebar.node_at doc (rev parent)) as [p|] eqn:Ep;
    [|contradiction].
  apply elementsFrom_In in Hc. destruct Hc as (k & Hpath & Hnth & Hel).
  split; [|split; [exact Hel|]].
  - unfold valid. rewrite Hpath, (node_at_app _ _ _ _ Ep).
    cbn [Sidebar.node_at]. rewrite nth_error_skipn in Hnth.
    now rewrite Hnth.
  - exists (rev parent), i, k. split; [|exact Hpath].
    rewrite <- (rev_involutive (fst el)), Erev. reflexivity.
Qed.

Lemma seek_Some : forall siblings first c,
  Created.seek first siblings = Some c ->
  In c siblings /\ classList_contains (snd c) "source-container" = true.
Proof.
  induction siblings as [|x rest IH]; intros first c Hc;
    cbn [Created.seek] in Hc; [discriminate|].
  destruct (negb first && _); [discriminate|].
  destruct (classList_contains (snd x) "source-container") eqn:Ex.
  - injection Hc as <-. split; [now left | exact Ex].
  - apply IH in Hc. destruct Hc as [Hin Hclass]. split; [now right | exact Hclass].
Qed.

Lemma matches_single : forall cs n,
  matches [cs] n = true -> forallb (cond_holds n) cs = true.
Proof.
  intros cs n Hm. unfold matches in Hm. apply andb_true_iff in Hm.
  destruct Hm as [_ Hm]. cbn [existsb] in Hm. now rewrite orb_false_r in Hm.
Qed.

Lemma inScope_Some : forall doc toLowerCase sc c,
  valid_scope doc sc ->
  Created.inScope doc toLowerCase sc = Some c ->
  valid doc c /\ isElement (snd c) = true
  /\ classList_contains (snd c) "source-container" = true
  /\ ((tag_is "div" (snd c) = true
       /\ exists chip,
            In chip (descendants c)
            /\ tag_is "sidebar-immersive-chip" (snd chip) = true)
      \/ (find
            (fun c =>
               is_some (querySelector c [[TagIs "sidebar-immersive-chip"]]))
            (Created.elements doc sc
               [[TagIs "div"; ClassIs "source-container"]]) = None
          /\ exists header parent i k,
               Created.is_target toLowerCase header = true
               /\ fst header = parent ++ [i]
               /\ fst c = parent ++ [S i + k])).
Proof.
  intros doc toLowerCase sc c Hsc Hc. unfold Created.inScope in Hc.
  destruct (find _ (Created.elements doc sc
                      [[TagIs "div"; ClassIs "source-container"]]))
    as [chipContainer|] eqn:Echip.
  - injection Hc as ->. apply find_some in Echip.
    destruct Echip as [Hin Hchip].
    destruct (elements_valid _ _ _ _ Hsc Hin) as [Hvalid Hm].
    assert (Hconds := matches_single _ _ Hm).
    cbn [forallb cond_holds] in Hconds.
    apply andb_true_iff in Hconds. destruct Hconds as [Htag Hclass].
    rewrite andb_true_r in Hclass.
    split; [exact Hvalid|]. split.
    { unfold tag_is in Htag. now apply andb_true_iff in Htag. }
    split; [exact Hclass|]. left. split; [exact Htag|].
    destruct (querySelector c [[TagIs "sidebar-immersive-chip"]])
      as [chip|] eqn:Eq; [|discriminate].
    apply querySelector_In in Eq. destruct Eq as [Hd Hmc].
    exists chip. split; [exact Hd|].
    apply matches_single in Hmc. cbn [forallb cond_holds] in Hmc.
    now rewrite andb_true_r in Hmc.
  - destruct (find (Created.is_target toLowerCase) _)
      as [header|] eqn:Eheader; [|discriminate].
    apply find_some in Eheader. destruct Eheader as [_ Htarget].
    apply seek_Some in Hc. destruct Hc as [Hfollow Hclass].
    destruct (followingElements_In _ _ _ Hfollow)
      as (Hvalid & Hel & parent & i & k & Hh & Hcpath).
    split; [exact Hvalid|]. split; [exact Hel|]. split; [exact Hclass|].
    right. split; [reflexivity|]. exists header, parent, i, k. auto.
Qed.

(** X28.  The container that [findCreatedSectionContainer] finds is an
    element of the document of class [source-container].  It is found in
    the root when the root has one, and in the whole document only when
    the root has none.  It is a [div] of the scope that holds a chip, or,
    when no such [div] is in the scope, an element that follows, among the
    children of the same parent, a header of the scope whose text is one
    of the four headings. *)
Theorem created_container : forall doc toLowerCase root container sc,
  (forall r, root = Some r -> valid_scope doc r) ->
  Created.findCreatedSectionContainer doc toLowerCase root
  = Some (container, sc) ->
  valid doc container
  /\ isElement (snd container) = true
  /\ classList_contains (snd container) "source-container" = true
  /\ (root = Some sc
      \/ (sc = Created.Document
          /\ forall r, root = Some r ->
                       Created.inScope doc toLowerCase r = None))
  /\ ((tag_is "div" (snd container) = true
       /\ exists chip,
            In chip (descendants container)
            /\ tag_is "sidebar-immersive-chip" (snd chip) = true)
      \/ (find
            (fun c =>
               is_some (querySelector c [[TagIs "sidebar-immersive-chip"]]))
            (Created.elements doc sc
               [[TagIs "div"; ClassIs "source-container"]]) = None
          /\ exists header parent i k,
               Created.is_target toLowerCase header = true
               /\ fst header = parent ++ [i]
               /\ fst container = parent ++ [S i + k])).
Proof.
  intros doc toLowerCase root container sc Hroot Hfind.
  assert (Hscope :
    valid_scope doc sc
    /\ Created.inScope doc toLowerCase sc = Some container
    /\ (root = Some sc
        \/ (sc = Created.Document
            /\ forall r, root = Some r ->
                         Created.inScope doc toLowerCase r = None))).
  { unfold Created.findCreatedSectionContainer in Hfind.
    destruct root as [[|h]|]; cbn [app Created.search existsb] in Hfind.
    - destruct (Created.inScope doc toLowerCase Created.Document) eqn:E;
        [|discriminate].
      injection Hfind as <- <-. split; [exact I|]. split; [exact E|].
      now left.
    - destruct (Created.inScope doc toLowerCase (Created.Element h)) eqn:E.
      + injection Hfind as <- <-. split; [now apply Hroot|].
        split; [exact E|]. now left.
      + cbn [Created.search existsb Created.scope_eqb orb] in Hfind.
        destruct (Created.inScope doc toLowerCase Created.Document) eqn:E';
          [|discriminate].
        injection Hfind as <- <-. split; [exact I|]. split; [exact E'|].
        right. split; [reflexivity|]. intros r Hr. now injection Hr as <-.
    - destruct (Created.inScope doc toLowerCase Created.Document) eqn:E;
        [|discriminate].
      injection Hfind as <- <-. split; [exact I|]. split; [exact E|].
      right. split; [reflexivity|]. intros r Hr. discriminate.
  }
  destruct Hscope as (Hvalid & Hin & Hpriority).
  destruct (inScope_Some _ _ _ _ Hvalid Hin)
    as (Hc & Hel & Hclass & Hkind).
  repeat split; assumption.
Qed.

Lemma created_container_witness :
  let root := Created.Element ([0], headed_body) in
  exists container,
    Created.findCreatedSectionContainer headed_document lower_str (Some root)
    = Some (container, root)
    /\ fst container = [0; 3]
    /\ tag_is "ul" (snd container) = true
    /\ valid headed_document container
    /\ classList_contains (snd container) "source-container" = true.
Proof.
  intros root.
  destruct (Created.findCreatedSectionContainer headed_document lower_str
              (Some root)) as [[container sc]|] eqn:Hfind;
    [|vm_compute in Hfind; discriminate].
  assert (Hroot : forall r, Some root = Some r -> valid_scope headed_document r).
  { intros r Hr. injection Hr as <-. reflexivity. }
  destruct (created_container headed_document lower_str (Some root)
              container sc Hroot Hfind) as (Hvalid & _ & Hclass & _).
  vm_compute in Hfind. injection Hfind as <- <-.
  exists ([0; 3], Elem (lit "ul") [(lit "class", lit "source-container")] []
                    [Text (lit "a.py")]).
  split; [reflexivity|]. split; [reflexivity|]. split; [reflexivity|].
  split; [exact Hvalid | exact Hclass].
Defined.

(** * Further properties of the extraction without canvases *)


